(** * load_tweets.py: record normalisation and upsert engine

    A shallow embedding of [load_tweets.py] ([remove_nulls], [get_id_urls],
    [insert_tweet]) and the properties of its specification.

    Conventions of the embedding.
    - A decoded JSON value (the result of [json.loads]) is a [json].  A Python
      [str] is a Coq [string], one [ascii] per character, so the characters
      of the model are those of the range 0..255.  A Python [float] is
      carried as its [repr]: [str] and truth testing are the only operations
      the program applies to one, and the [repr] determines both.
    - A Python exception is a [pyexn], an error of the store a [dberr];
      an expression that can raise returns a [result].
    - Code that talks to the database runs in the monad [M]: it threads the
      connection and keeps it when an exception is raised, as Python does.
    - [connection] is an interface ([Connection]); the relational store of
      the specification is one instance ([pg]), a connection that records
      the statements it is given another ([recorder]).

    The file has three parts: the embedding of the program, the
    definitions the properties are stated with, and the properties. *)

From Stdlib Require Import String Ascii List ZArith Bool Lia DecimalString.
Import ListNotations.
Local Open Scope string_scope.
Local Open Scope Z_scope.

Set Implicit Arguments.

(** ** Python values and exceptions *)

(** What Python itself raises on a decoded record. *)
Inductive pyexn : Type :=
| KeyError
| TypeError
| IndexError
| AttributeError.

(** What the store raises on a statement. *)
Inductive dberr : Type :=
| DataError             (* the type of a parameter is refused *)
| NotNullViolation      (* NULL in a primary-key column *)
| ForeignKeyViolation   (* a reference to a row that does not exist *)
| Refused.              (* any other refusal of a statement *)

(** What can leave code that uses a connection. *)
Inductive exn : Type :=
| Py (e : pyexn)
| Db (e : dberr).

Inductive result (X A : Type) : Type :=
| OK (a : A)
| Err (e : X).
Arguments OK {X A} a.
Arguments Err {X A} e.

#[local] Unset Elimination Schemes.
Inductive json : Type :=
| JNull
| JBool (b : bool)
| JInt (z : Z)
| JFloat (repr : string)
| JStr (s : string)
| JArr (l : list json)
| JObj (l : list (string * json)).
#[local] Set Elimination Schemes.

Definition pyexn_eqb (a b : pyexn) : bool :=
  match a, b with
  | KeyError, KeyError | TypeError, TypeError | IndexError, IndexError
  | AttributeError, AttributeError => true
  | _, _ => false
  end.

(** *** Pure expressions: the [result] monad *)

Definition rbind {X A B} (r : result X A) (f : A -> result X B) : result X B :=
  match r with
  | OK a => f a
  | Err e => Err e
  end.

(** [try: r except E: h] for a handler that names one exception class. *)
Definition rcatch {A} (E : pyexn) (r h : result pyexn A) : result pyexn A :=
  match r with
  | OK a => OK a
  | Err e => if pyexn_eqb e E then h else Err e
  end.

(** [try: r except: h], the bare handler. *)
Definition rcatch_all {X A} (r h : result X A) : result X A :=
  match r with
  | OK a => OK a
  | Err _ => h
  end.

Declare Scope result_scope.
Delimit Scope result_scope with res.
Notation "x <- r ;; k" := (rbind r (fun x => k))
  (at level 61, r at next level, right associativity) : result_scope.

(** *** Subscripts, [get], iteration, truth *)

Fixpoint assoc (k : string) (l : list (string * json)) : option json :=
  match l with
  | [] => None
  | (k', v) :: l' => if String.eqb k k' then Some v else assoc k l'
  end.

(** [v[k]] for a string key [k]. *)
Definition getitem (v : json) (k : string) : result pyexn json :=
  match v with
  | JObj l => match assoc k l with Some x => OK x | None => Err KeyError end
  | _ => Err TypeError
  end.

(** [v[i]] for a literal index [i >= 0].  The keys of a decoded object are
    strings, so an integer subscript of an object is a [KeyError]. *)
Definition index (v : json) (i : nat) : result pyexn json :=
  match v with
  | JArr l => match nth_error l i with Some x => OK x | None => Err IndexError end
  | JStr s => match String.get i s with
              | Some c => OK (JStr (String c EmptyString))
              | None => Err IndexError
              end
  | JObj _ => Err KeyError
  | _ => Err TypeError
  end.

(** [v.get(k, d)]: only a dict has the method. *)
Definition get (v : json) (k : string) (d : json) : result pyexn json :=
  match v with
  | JObj l => OK (match assoc k l with Some x => x | None => d end)
  | _ => Err AttributeError
  end.

(** The elements a [for] loop (or [enumerate]) draws from [v]. *)
Definition iter (v : json) : result pyexn (list json) :=
  match v with
  | JArr l => OK l
  | JStr s => OK (map (fun c => JStr (String c EmptyString)) (list_ascii_of_string s))
  | JObj l => OK (map (fun kv => JStr (fst kv)) l)
  | _ => Err TypeError
  end.

Definition is_None (v : json) : bool :=
  match v with JNull => true | _ => false end.

Definition truthy (v : json) : bool :=
  match v with
  | JNull => false
  | JBool b => b
  | JInt z => negb (z =? 0)
  | JFloat r => negb (String.eqb r "0.0" || String.eqb r "-0.0")
  | JStr s => negb (String.eqb s EmptyString)
  | JArr l => match l with [] => false | _ => true end
  | JObj l => match l with [] => false | _ => true end
  end.

(** ** Strings *)

Definition NUL : ascii := Ascii.zero.

(** [s.replace(old, new)] for a pattern [old] of one character. *)
Fixpoint replace1 (old : ascii) (new : string) (s : string) : string :=
  match s with
  | EmptyString => EmptyString
  | String c s' =>
      if Ascii.eqb c old then new ++ replace1 old new s'
      else String c (replace1 old new s')
  end.

(** ** remove_nulls (lines 16-38) *)

Definition remove_nulls (s : json) : result pyexn json :=
  match s with
  | JNull => OK JNull
  | JStr s => OK (JStr (replace1 NUL EmptyString s))
  | _ => Err AttributeError   (* no [replace] method *)
  end.

(** The sanitizer's contract is over an optional string. *)
Definition of_optional (s : option string) : json :=
  match s with
  | None => JNull
  | Some s => JStr s
  end.

(** *** [lower], [strip], [split], [len] on the characters 0..255 *)

Definition in_range (lo hi n : nat) : bool := (Nat.leb lo n && Nat.leb n hi)%bool.

Definition lower_char (c : ascii) : ascii :=
  let n := nat_of_ascii c in
  if (in_range 65 90 n || (in_range 192 222 n && negb (Nat.eqb n 215)))%bool
  then ascii_of_nat (n + 32)
  else c.

Fixpoint lower (s : string) : string :=
  match s with
  | EmptyString => EmptyString
  | String c s' => String (lower_char c) (lower s')
  end.

Definition isspace (c : ascii) : bool :=
  let n := nat_of_ascii c in
  (in_range 9 13 n || in_range 28 32 n || Nat.eqb n 133 || Nat.eqb n 160)%bool.

Fixpoint lstrip (s : string) : string :=
  match s with
  | EmptyString => EmptyString
  | String c s' => if isspace c then lstrip s' else s
  end.

Fixpoint rstrip (s : string) : string :=
  match s with
  | EmptyString => EmptyString
  | String c s' =>
      match rstrip s' with
      | EmptyString => if isspace c then EmptyString else String c EmptyString
      | r => String c r
      end
  end.

Definition strip (s : string) : string := rstrip (lstrip s).

(** [s.split(sep)] for a separator of one character; never empty. *)
Fixpoint split (sep : ascii) (s : string) : list string :=
  match s with
  | EmptyString => [EmptyString]
  | String c s' =>
      if Ascii.eqb c sep then EmptyString :: split sep s'
      else match split sep s' with
           | h :: t => String c h :: t
           | [] => [String c EmptyString]
           end
  end.

(** *** [str] and [repr] *)

Definition str_of_Z (z : Z) : string := NilZero.string_of_int (Z.to_int z).

Definition hex_digit (n : nat) : ascii :=
  if Nat.ltb n 10 then ascii_of_nat (48 + n) else ascii_of_nat (87 + n).

Definition printable (c : ascii) : bool :=
  let n := nat_of_ascii c in
  negb (Nat.ltb n 32 || in_range 127 160 n || Nat.eqb n 173)%bool.

Definition escape_char (quote c : ascii) : string :=
  if (Ascii.eqb c quote || Ascii.eqb c "092")%bool then String "092" (String c EmptyString)
  else if Ascii.eqb c "009" then "\t"
  else if Ascii.eqb c "010" then "\n"
  else if Ascii.eqb c "013" then "\r"
  else if printable c then String c EmptyString
  else let n := nat_of_ascii c in
       String "092" (String "x" (String (hex_digit (Nat.div n 16))
                               (String (hex_digit (Nat.modulo n 16)) EmptyString))).

Fixpoint contains (c : ascii) (s : string) : bool :=
  match s with
  | EmptyString => false
  | String c' s' => (Ascii.eqb c c' || contains c s')%bool
  end.

Fixpoint escape (quote : ascii) (s : string) : string :=
  match s with
  | EmptyString => EmptyString
  | String c s' => escape_char quote c ++ escape quote s'
  end.

Definition repr_str (s : string) : string :=
  let quote : ascii :=
    if (contains "'" s && negb (contains "034" s))%bool then "034"%char else "'"%char in
  String quote (escape quote s ++ String quote EmptyString).

Fixpoint join (sep : string) (l : list string) : string :=
  match l with
  | [] => EmptyString
  | [x] => x
  | x :: l' => x ++ sep ++ join sep l'
  end.

Fixpoint repr (v : json) : string :=
  match v with
  | JNull => "None"
  | JBool true => "True"
  | JBool false => "False"
  | JInt z => str_of_Z z
  | JFloat r => r
  | JStr s => repr_str s
  | JArr l => "[" ++ join ", " (map repr l) ++ "]"
  | JObj l =>
      "{" ++ join ", " (map (fun kv : string * json => let (k, x) := kv in repr_str k ++ ": " ++ repr x) l) ++ "}"
  end.

Definition str (v : json) : string :=
  match v with
  | JStr s => s
  | _ => repr v
  end.

(** [prefix + v]: [str] concatenates with [str] only. *)
Definition concat_str (prefix : string) (v : json) : result pyexn json :=
  match v with
  | JStr s => OK (JStr (prefix ++ s))
  | _ => Err TypeError
  end.

(** ** Field extraction of insert_tweet *)

Local Open Scope result_scope.

(** [str(p[0]) + ' ' + str(p[1])] *)
Definition point_str (p : json) : result pyexn string :=
  x <- index p 0 ;;
  y <- index p 1 ;;
  OK (str x ++ " " ++ str y).

(** Lines 201-202: the vertices of one ring, each followed by a comma. *)
Fixpoint ring_points (points : list json) : result pyexn string :=
  match points with
  | [] => OK EmptyString
  | point :: rest =>
      s <- point_str point ;;
      r <- ring_points rest ;;
      OK (s ++ "," ++ r)
  end.

(** Lines 200-204: one ring, closed by its first vertex. *)
Definition ring_str (poly : json) : result pyexn string :=
  points <- iter poly ;;
  body <- ring_points points ;;
  first <- index poly 0 ;;
  closing <- point_str first ;;
  OK ("(" ++ body ++ closing ++ ")").

(** Lines 197-204: the rings, separated by commas. *)
Fixpoint rings_str (i : nat) (polys : list json) : result pyexn string :=
  match polys with
  | [] => OK EmptyString
  | poly :: rest =>
      r <- ring_str poly ;;
      rs <- rings_str (S i) rest ;;
      OK ((if Nat.ltb 0 i then "," else EmptyString) ++ r ++ rs)
  end.

(** Lines 190-193. *)
Definition geo_point (tweet : json) : result pyexn json :=
  geo_coords <- (g <- getitem tweet "geo" ;; getitem g "coordinates") ;;
  geo_coords <- point_str geo_coords ;;
  OK (JStr ("POINT" ++ "(" ++ geo_coords ++ ")")).

(** Lines 196-207. *)
Definition geo_polygon (tweet : json) : result pyexn json :=
  coordinates <- (p <- getitem tweet "place" ;;
                  b <- getitem p "bounding_box" ;;
                  getitem b "coordinates") ;;
  polys <- iter coordinates ;;
  body <- rings_str 0 polys ;;
  OK (JStr ("POLYGON" ++ "(" ++ body ++ ")")).

(** Lines 209-212; [geo] keeps its initial value [''] when the test fails. *)
Definition geo_fallback (tweet : json) : result pyexn json :=
  enabled <- (u <- getitem tweet "user" ;; getitem u "geo_enabled") ;;
  if truthy enabled then OK JNull else OK (JStr EmptyString).

(** Lines 188-212: the value bound to [geo]. *)
Definition normalize_geo (tweet : json) : result pyexn json :=
  rcatch TypeError (geo_point tweet)
    (rcatch KeyError (geo_polygon tweet) (geo_fallback tweet)).

(** Lines 214-217. *)
Definition tweet_text (tweet : json) : result pyexn json :=
  rcatch_all (e <- getitem tweet "extended_tweet" ;; getitem e "full_text")
             (getitem tweet "text").

Definition lower_method (v : json) : result pyexn json :=
  match v with
  | JStr s => OK (JStr (lower s))
  | _ => Err AttributeError
  end.

(** Lines 219-222. *)
Definition tweet_country_code (tweet : json) : result pyexn json :=
  rcatch TypeError
    (p <- getitem tweet "place" ;; c <- getitem p "country_code" ;; lower_method c)
    (OK JNull).

Definition eq_str (v : json) (s : string) : bool :=
  match v with
  | JStr t => String.eqb t s
  | _ => false
  end.

(** Lines 224-229. *)
Definition tweet_state_code (tweet country_code : json) : result pyexn json :=
  if eq_str country_code "us" then
    full_name <- (p <- getitem tweet "place" ;; getitem p "full_name") ;;
    match full_name with
    | JStr s =>
        let state_code := lower (strip (last (split "," s) EmptyString)) in
        if Nat.ltb 2 (String.length state_code) then OK JNull
        else OK (JStr state_code)
    | _ => Err AttributeError
    end
  else OK JNull.

(** Lines 231-234. *)
Definition tweet_place_name (tweet : json) : result pyexn json :=
  rcatch TypeError (p <- getitem tweet "place" ;; getitem p "full_name") (OK JNull).

(** The fallback chain of an entity container (lines 306-309, 330-333). *)
Definition entities (tweet : json) (key : string) : result pyexn json :=
  rcatch KeyError
    (x <- getitem tweet "extended_tweet" ;; e <- getitem x "entities" ;; getitem e key)
    (e <- getitem tweet "entities" ;; getitem e key).

(** Lines 376-381: both containers come from the same side. *)
Definition tweet_tags_entities (tweet : json) : result pyexn (json * json) :=
  rcatch KeyError
    (x <- getitem tweet "extended_tweet" ;; e <- getitem x "entities" ;;
     hashtags <- getitem e "hashtags" ;;
     x <- getitem tweet "extended_tweet" ;; e <- getitem x "entities" ;;
     cashtags <- getitem e "symbols" ;;
     OK (hashtags, cashtags))
    (e <- getitem tweet "entities" ;; hashtags <- getitem e "hashtags" ;;
     e <- getitem tweet "entities" ;; cashtags <- getitem e "symbols" ;;
     OK (hashtags, cashtags)).

(** A list comprehension [[prefix + x['text'] for x in v]]. *)
Fixpoint prefixed (prefix : string) (l : list json) : result pyexn (list json) :=
  match l with
  | [] => OK []
  | x :: l' =>
      t <- getitem x "text" ;;
      tag <- concat_str prefix t ;;
      rest <- prefixed prefix l' ;;
      OK (tag :: rest)
  end.

(** Line 383. *)
Definition tweet_tags_list (hashtags cashtags : json) : result pyexn (list json) :=
  hs <- iter hashtags ;;
  hs <- prefixed "#" hs ;;
  cs <- iter cashtags ;;
  cs <- prefixed "$" cs ;;
  OK (hs ++ cs)%list.

(** Lines 403-409. *)
Definition tweet_media_list (tweet : json) : result pyexn json :=
  rcatch KeyError
    (x <- getitem tweet "extended_tweet" ;; e <- getitem x "extended_entities" ;;
     getitem e "media")
    (rcatch KeyError
       (e <- getitem tweet "extended_entities" ;; getitem e "media")
       (OK (JArr []))).

Local Close Scope result_scope.

(** ** SQL statements and the connection *)

(** The parameters bound to the columns of [users] other than its key
    (lines 165-181). *)
Record users_cols : Type := {
  u_created_at : json;
  u_updated_at : json;
  u_id_urls : json;
  u_friends_count : json;
  u_listed_count : json;
  u_favourites_count : json;
  u_statuses_count : json;
  u_protected : json;
  u_verified : json;
  u_screen_name : json;
  u_name : json;
  u_location : json;
  u_description : json;
  u_withheld_in_countries : json
}.

(** The parameters bound to the columns of [tweets] other than its key
    (lines 280-299). *)
Record tweets_cols : Type := {
  t_id_users : json;
  t_created_at : json;
  t_in_reply_to_status_id : json;
  t_in_reply_to_user_id : json;
  t_quoted_status_id : json;
  t_retweet_count : json;
  t_favorite_count : json;
  t_quote_count : json;
  t_withheld_copyright : json;
  t_withheld_in_countries : json;
  t_source : json;
  t_text : json;
  t_country_code : json;
  t_state_code : json;
  t_lang : json;
  t_place_name : json;
  t_geo : json
}.

(** One constructor per SQL text of the program, named after the variable
    that holds it, with the parameters bound at the call. *)
Inductive stmt : Type :=
| sql_insert_urls (url : json)                          (* lines 49-57 *)
| sql_select_urls (url : json)                          (* lines 64-69 *)
| sql_select_tweets (id_tweets : json)                  (* lines 96-100 *)
| sql_check_user_id (id_users : json)                   (* lines 117-121 *)
| sql_insert (id_users : json) (data : users_cols)      (* lines 126-137 *)
| sql_update (id_users : json) (data : users_cols)      (* lines 139-159 *)
| sql_id_insert (id_users : json)                       (* lines 248-255 *)
| sql_in_tweets (id_tweets : json) (data : tweets_cols) (* lines 260-279 *)
| sql_in_tweet_urls (id_tweets id_urls : json)          (* lines 310-317 *)
| sql_id_users_insert (id_users screen_name name : json) (* lines 345-352 *)
| sql_into_tweet_mentions (id_tweets id_users : json)   (* lines 361-368 *)
| sql_into_tags (id_tweets tag : json)                  (* lines 385-392 *)
| sql_into_media (id_tweets id_urls type : json).       (* lines 411-418 *)

(** A result row, and what [.first()] gives: the first row or [None]. *)
Definition row : Type := list json.

(** The interface the program uses of a SQLAlchemy connection:
    [execute] (with [.first()] of its result) and the transaction of
    [with connection.begin()]. *)
Class Connection (C : Type) : Type := {
  execute : stmt -> C -> C * result exn (option row);
  begin : C -> C;
  commit : C -> C;
  rollback : C -> C
}.

(** *** The monad of code that uses a connection *)

Definition M (C A : Type) : Type := C -> C * result exn A.

Definition ret {C A} (a : A) : M C A := fun c => (c, OK a).

Definition bind {C A B} (m : M C A) (f : A -> M C B) : M C B :=
  fun c =>
    match m c with
    | (c', OK a) => f a c'
    | (c', Err e) => (c', Err e)
    end.

(** A pure expression: its exception is a Python exception. *)
Definition lift {C A} (r : result pyexn A) : M C A :=
  fun c => (c, match r with OK a => OK a | Err e => Err (Py e) end).

Declare Scope conn_scope.
Delimit Scope conn_scope with conn.
Notation "x <- m ;; k" := (bind m (fun x => k))
  (at level 61, m at next level, right associativity) : conn_scope.
Notation "m ;;; k" := (bind m (fun _ => k))
  (at level 61, right associativity) : conn_scope.

Fixpoint for_each {C X} (l : list X) (body : X -> M C unit) : M C unit :=
  match l with
  | [] => ret tt
  | x :: l' => bind (body x) (fun _ => for_each l' body)
  end.

(** [with connection.begin(): body]: commit when the body ends (also by
    [return]), roll back when it raises, and let the exception through. *)
Definition with_begin {C} `{Connection C} {A} (body : M C A) : M C A :=
  fun c =>
    match body (begin c) with
    | (c', OK a) => (commit c', OK a)
    | (c', Err e) => (rollback c', Err e)
    end.

Definition first_is_None (res : option row) : bool :=
  match res with None => true | Some _ => false end.

(** [res[0]] on what [.first()] gave. *)
Definition row_0 (res : option row) : result pyexn json :=
  match res with
  | None => Err TypeError
  | Some r => match r with x :: _ => OK x | [] => Err IndexError end
  end.

Local Open Scope conn_scope.

(** ** get_id_urls (lines 41-73) *)

Definition get_id_urls {C} `{Connection C} (url : json) : M C json :=
  res <- execute (sql_insert_urls url) ;;
  res <- (if first_is_None res then execute (sql_select_urls url) else ret res) ;;
  id_urls <- lift (row_0 res) ;;
  ret id_urls.

(** ** insert_tweet (lines 76-426) *)

(** Lines 165-181. *)
Definition users_data (tweet user user_id_urls : json)
  : result pyexn (json * users_cols) :=
  (id_users <- get user "id" JNull ;;
   created_at <- get user "created_at" JNull ;;
   updated_at <- get user "updated_at" JNull ;;
   friends_count <- get user "friends_count" (JInt 0) ;;
   listed_count <- get user "listed_count" (JInt 0) ;;
   favourites_count <- get user "favourites_count" (JInt 0) ;;
   statuses_count <- get user "statuses_count" (JInt 0) ;;
   protected <- get user "protected" (JBool false) ;;
   verified <- get user "verified" (JBool false) ;;
   screen_name <- (v <- get user "screen_name" JNull ;; remove_nulls v) ;;
   name <- (v <- get user "name" JNull ;; remove_nulls v) ;;
   location <- (v <- get user "location" JNull ;; remove_nulls v) ;;
   description <- (v <- get user "description" JNull ;; remove_nulls v) ;;
   withheld <- (v <- get tweet "withheld_in_countries" JNull ;; remove_nulls v) ;;
   OK (id_users,
       {| u_created_at := created_at; u_updated_at := updated_at;
          u_id_urls := user_id_urls; u_friends_count := friends_count;
          u_listed_count := listed_count; u_favourites_count := favourites_count;
          u_statuses_count := statuses_count; u_protected := protected;
          u_verified := verified; u_screen_name := screen_name; u_name := name;
          u_location := location; u_description := description;
          u_withheld_in_countries := withheld |}))%res.

(** Lines 280-299. *)
Definition tweets_data (tweet user text country_code state_code place_name geo : json)
  : result pyexn (json * tweets_cols) :=
  (id_tweets <- get tweet "id" JNull ;;
   id_users <- get user "id" JNull ;;
   created_at <- get tweet "created_at" JNull ;;
   in_reply_to_status_id <- get tweet "in_reply_to_status_id" JNull ;;
   in_reply_to_user_id <- get tweet "in_reply_to_user_id" JNull ;;
   quoted_status_id <- get tweet "quoted_status_id" JNull ;;
   retweet_count <- get tweet "retweet_count" (JInt 0) ;;
   favorite_count <- get tweet "favorite_count" (JInt 0) ;;
   quote_count <- get tweet "quote_count" (JInt 0) ;;
   withheld_copyright <- get tweet "withheld_copyright" (JBool false) ;;
   withheld_in_countries <- get tweet "withheld_in_countries" JNull ;;
   source <- (v <- get tweet "source" JNull ;; remove_nulls v) ;;
   text <- remove_nulls text ;;
   lang <- (v <- get tweet "lang" (JStr EmptyString) ;; remove_nulls v) ;;
   OK (id_tweets,
       {| t_id_users := id_users; t_created_at := created_at;
          t_in_reply_to_status_id := in_reply_to_status_id;
          t_in_reply_to_user_id := in_reply_to_user_id;
          t_quoted_status_id := quoted_status_id;
          t_retweet_count := retweet_count; t_favorite_count := favorite_count;
          t_quote_count := quote_count; t_withheld_copyright := withheld_copyright;
          t_withheld_in_countries := withheld_in_countries;
          t_source := source; t_text := text; t_country_code := country_code;
          t_state_code := state_code; t_lang := lang; t_place_name := place_name;
          t_geo := geo |}))%res.

Section InsertTweet.
Context {C : Type} `{Connection C}.

(** Lines 108-182: the posting user. *)
Definition insert_user (tweet : json) : M C json :=
  url <- lift (u <- getitem tweet "user" ;; getitem u "url")%res ;;
  user_id_urls <- (if is_None url then ret JNull else get_id_urls url) ;;
  user <- lift (get tweet "user" (JObj [])) ;;
  id_users <- lift (getitem user "id") ;;
  res <- execute (sql_check_user_id id_users) ;;
  data <- lift (users_data tweet user user_id_urls) ;;
  execute (if first_is_None res then sql_insert (fst data) (snd data)
           else sql_update (fst data) (snd data)) ;;;
  ret user.

(** Lines 242-257: the user a reply is addressed to. *)
Definition insert_reply_target (tweet : json) : M C unit :=
  target <- lift (get tweet "in_reply_to_user_id" JNull) ;;
  if is_None target then ret tt
  else
    res_id_in_users <- execute (sql_check_user_id target) ;;
    if first_is_None res_id_in_users
    then execute (sql_id_insert target) ;;; ret tt
    else ret tt.

(** Lines 188-300: the row of [tweets]. *)
Definition insert_tweets_row (tweet user : json) : M C unit :=
  geo <- lift (normalize_geo tweet) ;;
  text <- lift (tweet_text tweet) ;;
  country_code <- lift (tweet_country_code tweet) ;;
  state_code <- lift (tweet_state_code tweet country_code) ;;
  place_name <- lift (tweet_place_name tweet) ;;
  insert_reply_target tweet ;;;
  data <- lift (tweets_data tweet user text country_code state_code place_name geo) ;;
  execute (sql_in_tweets (fst data) (snd data)) ;;;
  ret tt.

(** Lines 306-325. *)
Definition insert_tweet_urls (tweet : json) : M C unit :=
  urls <- lift (entities tweet "urls") ;;
  id_tweet <- lift (get tweet "id" JNull) ;;
  urls <- lift (iter urls) ;;
  for_each urls (fun url =>
    expanded_url <- lift (getitem url "expanded_url") ;;
    id_urls <- get_id_urls expanded_url ;;
    execute (sql_in_tweet_urls id_tweet id_urls) ;;;
    ret tt).

(** Lines 330-371. *)
Definition insert_tweet_mentions (tweet : json) : M C unit :=
  mentions <- lift (entities tweet "user_mentions") ;;
  mentions <- lift (iter mentions) ;;
  for_each mentions (fun mention =>
    id_users <- lift (get mention "id" JNull) ;;
    screen_name <- lift (v <- get mention "screen_name" JNull ;; remove_nulls v)%res ;;
    name <- lift (v <- get mention "name" JNull ;; remove_nulls v)%res ;;
    execute (sql_id_users_insert id_users screen_name name) ;;;
    id_tweets <- lift (get tweet "id" JNull) ;;
    id_users <- lift (get mention "id" JNull) ;;
    execute (sql_into_tweet_mentions id_tweets id_users) ;;;
    ret tt).

(** Lines 376-397. *)
Definition insert_tweet_tags (tweet : json) : M C unit :=
  containers <- lift (tweet_tags_entities tweet) ;;
  tags <- lift (tweet_tags_list (fst containers) (snd containers)) ;;
  for_each tags (fun tag =>
    id_tweets <- lift (get tweet "id" JNull) ;;
    tag <- lift (remove_nulls tag) ;;
    execute (sql_into_tags id_tweets tag) ;;;
    ret tt).

(** Lines 403-426. *)
Definition insert_tweet_media (tweet : json) : M C unit :=
  media <- lift (tweet_media_list tweet) ;;
  media <- lift (iter media) ;;
  for_each media (fun medium =>
    media_url <- lift (getitem medium "media_url") ;;
    id_urls <- get_id_urls media_url ;;
    id_tweets <- lift (get tweet "id" JNull) ;;
    type <- lift (get medium "type" JNull) ;;
    execute (sql_into_media id_tweets id_urls type) ;;;
    ret tt).

(** Lines 105-426: what runs when the tweet is not yet in [tweets]. *)
Definition load_tweet (tweet : json) : M C unit :=
  user <- insert_user tweet ;;
  insert_tweets_row tweet user ;;;
  insert_tweet_urls tweet ;;;
  insert_tweet_mentions tweet ;;;
  insert_tweet_tags tweet ;;;
  insert_tweet_media tweet.

(** Lines 96-104 and what follows: the body of the [with] block. *)
Definition insert_tweet_body (tweet : json) : M C unit :=
  id_tweets <- lift (getitem tweet "id") ;;
  res <- execute (sql_select_tweets id_tweets) ;;
  if first_is_None res then load_tweet tweet else ret tt.

Definition insert_tweet (tweet : json) : M C unit :=
  with_begin (insert_tweet_body tweet).

End InsertTweet.

Local Close Scope conn_scope.

(** ** The relational store *)

(** Modelled from the spec: the schema and the database engine, which are
    not among the sources.  The tables are those the SQL texts name, with
    the columns they name: the three entity tables of the data model
    (section 3) and the associations of a tweet to its links, mentions,
    tags and media.  [users] and [tweets] are keyed by their identity,
    [urls] by a generated identity and unique in [url], the association
    tables by the pairs the data model gives; the references from [users],
    [tweets] and the association tables to [users], [tweets] and [urls] are
    foreign keys.  Identities are integers and [url] and [tag] are text: a
    parameter of another type, and a text that holds the null character,
    which the store cannot represent, is a [DataError].  Ranges, lengths
    and the types of the remaining columns are not modelled.  A table is
    the list of its rows, the latest first. *)
Record tables : Type := {
  urls : list (Z * option string);
  users : list (Z * users_cols);
  tweets : list (Z * tweets_cols);
  tweet_urls : list (Z * Z);
  tweet_mentions : list (Z * Z);
  tweet_tags : list (Z * string);
  tweet_media : list (Z * Z * json)
}.

(** The state behind a connection: the rows, the rows as they were when
    the open transaction began, and the sequence that generates [id_urls]
    (a sequence is not rolled back). *)
Record pg : Type := {
  cur : tables;
  saved : option tables;
  urls_seq : Z
}.

Definition set_urls (x : list (Z * option string)) (t : tables) : tables :=
  {| urls := x; users := users t; tweets := tweets t; tweet_urls := tweet_urls t;
     tweet_mentions := tweet_mentions t; tweet_tags := tweet_tags t;
     tweet_media := tweet_media t |}.

Definition set_users (x : list (Z * users_cols)) (t : tables) : tables :=
  {| urls := urls t; users := x; tweets := tweets t; tweet_urls := tweet_urls t;
     tweet_mentions := tweet_mentions t; tweet_tags := tweet_tags t;
     tweet_media := tweet_media t |}.

Definition set_tweets (x : list (Z * tweets_cols)) (t : tables) : tables :=
  {| urls := urls t; users := users t; tweets := x; tweet_urls := tweet_urls t;
     tweet_mentions := tweet_mentions t; tweet_tags := tweet_tags t;
     tweet_media := tweet_media t |}.

Definition set_tweet_urls (x : list (Z * Z)) (t : tables) : tables :=
  {| urls := urls t; users := users t; tweets := tweets t; tweet_urls := x;
     tweet_mentions := tweet_mentions t; tweet_tags := tweet_tags t;
     tweet_media := tweet_media t |}.

Definition set_tweet_mentions (x : list (Z * Z)) (t : tables) : tables :=
  {| urls := urls t; users := users t; tweets := tweets t; tweet_urls := tweet_urls t;
     tweet_mentions := x; tweet_tags := tweet_tags t;
     tweet_media := tweet_media t |}.

Definition set_tweet_tags (x : list (Z * string)) (t : tables) : tables :=
  {| urls := urls t; users := users t; tweets := tweets t; tweet_urls := tweet_urls t;
     tweet_mentions := tweet_mentions t; tweet_tags := x;
     tweet_media := tweet_media t |}.

Definition set_tweet_media (x : list (Z * Z * json)) (t : tables) : tables :=
  {| urls := urls t; users := users t; tweets := tweets t; tweet_urls := tweet_urls t;
     tweet_mentions := tweet_mentions t; tweet_tags := tweet_tags t;
     tweet_media := x |}.

(** *** Parameters, keys and references *)

Definition as_bigint (v : json) : result dberr (option Z) :=
  match v with
  | JNull => OK None
  | JInt z => OK (Some z)
  | _ => Err DataError
  end.

(** A text parameter.  The store cannot represent the null character
    (the docstring of [remove_nulls]): a string that holds it is refused
    like a parameter of another type. *)
Definition as_text (v : json) : result dberr (option string) :=
  match v with
  | JNull => OK None
  | JStr s => if contains NUL s then Err DataError else OK (Some s)
  | _ => Err DataError
  end.

Definition not_null {A} (v : option A) : result dberr A :=
  match v with
  | Some a => OK a
  | None => Err NotNullViolation
  end.

Definition has_key {V} (k : Z) (l : list (Z * V)) : bool :=
  existsb (fun r => Z.eqb (fst r) k) l.

Definition has_pair {V} (a b : Z) (l : list (Z * Z * V)) : bool :=
  existsb (fun r => Z.eqb (fst (fst r)) a && Z.eqb (snd (fst r)) b)%bool l.

Definition pair_in (a b : Z) (l : list (Z * Z)) : bool :=
  existsb (fun r => Z.eqb (fst r) a && Z.eqb (snd r) b)%bool l.

Definition tag_in (a : Z) (g : string) (l : list (Z * string)) : bool :=
  existsb (fun r => Z.eqb (fst r) a && String.eqb (snd r) g)%bool l.

Definition url_is (s : string) (r : Z * option string) : bool :=
  match snd r with
  | Some s' => String.eqb s' s
  | None => false
  end.

(** The unique constraint on [url]: NULL conflicts with nothing. *)
Definition url_taken (u : option string) (l : list (Z * option string)) : bool :=
  match u with
  | Some s => existsb (url_is s) l
  | None => false
  end.

(** A foreign key: NULL refers to nothing, anything else to a row. *)
Definition refers {V} (k : option Z) (l : list (Z * V)) : result dberr unit :=
  match k with
  | None => OK tt
  | Some z => if has_key z l then OK tt else Err ForeignKeyViolation
  end.

Definition find_key {V} (k : option Z) (l : list (Z * V)) : option row :=
  match k with
  | None => None
  | Some z => if has_key z l then Some [JInt z] else None
  end.

Definition stub_cols (screen_name name : json) : users_cols :=
  {| u_created_at := JNull; u_updated_at := JNull; u_id_urls := JNull;
     u_friends_count := JNull; u_listed_count := JNull;
     u_favourites_count := JNull; u_statuses_count := JNull;
     u_protected := JNull; u_verified := JNull;
     u_screen_name := screen_name; u_name := name; u_location := JNull;
     u_description := JNull; u_withheld_in_countries := JNull |}.

Definition update_key {V} (k : Z) (v : V) (l : list (Z * V)) : list (Z * V) :=
  map (fun r => if Z.eqb (fst r) k then (k, v) else r) l.

Local Open Scope result_scope.

(** *** The statements

    [run q seq t]: the rows after [q] and the first row it returns.  An
    insert checks the types of its parameters, then NOT NULL on its key,
    then its unique constraints ([on conflict do nothing] ends the statement
    when one is hit), then its foreign keys. *)
Definition run (q : stmt) (seq : Z) (t : tables) : result dberr (tables * option row) :=
  match q with
  | sql_insert_urls url =>
      u <- as_text url ;;
      if (has_key seq (urls t) || url_taken u (urls t))%bool then OK (t, None)
      else OK (set_urls ((seq, u) :: urls t) t, Some [JInt seq])
  | sql_select_urls url =>
      u <- as_text url ;;
      OK (t, match u with
             | None => None
             | Some s => option_map (fun r => [JInt (fst r)]) (find (url_is s) (urls t))
             end)
  | sql_select_tweets id_tweets =>
      k <- as_bigint id_tweets ;;
      OK (t, find_key k (tweets t))
  | sql_check_user_id id_users =>
      k <- as_bigint id_users ;;
      OK (t, find_key k (users t))
  | sql_insert id_users data =>
      k <- as_bigint id_users ;;
      link <- as_bigint (u_id_urls data) ;;
      k <- not_null k ;;
      if has_key k (users t) then OK (t, None)
      else
        _ <- refers link (urls t) ;;
        OK (set_users ((k, data) :: users t) t, None)
  | sql_update id_users data =>
      k <- as_bigint id_users ;;
      link <- as_bigint (u_id_urls data) ;;
      match k with
      | None => OK (t, None)
      | Some k =>
          if has_key k (users t) then
            _ <- refers link (urls t) ;;
            OK (set_users (update_key k data (users t)) t, None)
          else OK (t, None)
      end
  | sql_id_insert id_users =>
      k <- as_bigint id_users ;;
      k <- not_null k ;;
      if has_key k (users t) then OK (t, None)
      else OK (set_users ((k, stub_cols JNull JNull) :: users t) t, None)
  | sql_id_users_insert id_users screen_name name =>
      k <- as_bigint id_users ;;
      k <- not_null k ;;
      if has_key k (users t) then OK (t, None)
      else OK (set_users ((k, stub_cols screen_name name) :: users t) t, None)
  | sql_in_tweets id_tweets data =>
      k <- as_bigint id_tweets ;;
      author <- as_bigint (t_id_users data) ;;
      target <- as_bigint (t_in_reply_to_user_id data) ;;
      k <- not_null k ;;
      if has_key k (tweets t) then OK (t, None)
      else
        _ <- refers author (users t) ;;
        _ <- refers target (users t) ;;
        OK (set_tweets ((k, data) :: tweets t) t, None)
  | sql_in_tweet_urls id_tweets id_urls =>
      a <- as_bigint id_tweets ;;
      b <- as_bigint id_urls ;;
      a <- not_null a ;;
      b <- not_null b ;;
      if pair_in a b (tweet_urls t) then OK (t, None)
      else
        _ <- refers (Some a) (tweets t) ;;
        _ <- refers (Some b) (urls t) ;;
        OK (set_tweet_urls ((a, b) :: tweet_urls t) t, None)
  | sql_into_tweet_mentions id_tweets id_users =>
      a <- as_bigint id_tweets ;;
      b <- as_bigint id_users ;;
      a <- not_null a ;;
      b <- not_null b ;;
      if pair_in a b (tweet_mentions t) then OK (t, None)
      else
        _ <- refers (Some a) (tweets t) ;;
        _ <- refers (Some b) (users t) ;;
        OK (set_tweet_mentions ((a, b) :: tweet_mentions t) t, None)
  | sql_into_tags id_tweets tag =>
      a <- as_bigint id_tweets ;;
      g <- as_text tag ;;
      a <- not_null a ;;
      g <- not_null g ;;
      if tag_in a g (tweet_tags t) then OK (t, None)
      else
        _ <- refers (Some a) (tweets t) ;;
        OK (set_tweet_tags ((a, g) :: tweet_tags t) t, None)
  | sql_into_media id_tweets id_urls type =>
      a <- as_bigint id_tweets ;;
      b <- as_bigint id_urls ;;
      a <- not_null a ;;
      b <- not_null b ;;
      if has_pair a b (tweet_media t) then OK (t, None)
      else
        _ <- refers (Some a) (tweets t) ;;
        _ <- refers (Some b) (urls t) ;;
        OK (set_tweet_media ((a, b, type) :: tweet_media t) t, None)
  end.

Local Close Scope result_scope.

(** [nextval] is taken by every insert into [urls] that reaches the
    engine, kept or not. *)
Definition next_seq (q : stmt) (seq : Z) : Z :=
  match q with
  | sql_insert_urls _ => seq + 1
  | _ => seq
  end.

Definition pg_execute (q : stmt) (db : pg) : pg * result exn (option row) :=
  match run q (urls_seq db) (cur db) with
  | OK (t, res) =>
      ({| cur := t; saved := saved db; urls_seq := next_seq q (urls_seq db) |}, OK res)
  | Err e => (db, Err (Db e))
  end.

Definition pg_begin (db : pg) : pg :=
  {| cur := cur db; saved := Some (cur db); urls_seq := urls_seq db |}.

Definition pg_commit (db : pg) : pg :=
  {| cur := cur db; saved := None; urls_seq := urls_seq db |}.

Definition pg_rollback (db : pg) : pg :=
  {| cur := match saved db with Some t => t | None => cur db end;
     saved := None; urls_seq := urls_seq db |}.

#[export] Instance pg_connection : Connection pg := {
  execute := pg_execute;
  begin := pg_begin;
  commit := pg_commit;
  rollback := pg_rollback
}.

(** The store with an engine that refuses some statements for reasons the
    model of the schema leaves out (a range, a length, the type of a
    column): [refuses] tells which. *)
Record faulty : Type := {
  store : pg;
  refuses : stmt -> bool
}.

Definition faulty_execute (q : stmt) (c : faulty) : faulty * result exn (option row) :=
  if refuses c q then (c, Err (Db Refused))
  else
    let (db, res) := pg_execute q (store c) in
    ({| store := db; refuses := refuses c |}, res).

#[export] Instance faulty_connection : Connection faulty := {
  execute := faulty_execute;
  begin := fun c => {| store := pg_begin (store c); refuses := refuses c |};
  commit := fun c => {| store := pg_commit (store c); refuses := refuses c |};
  rollback := fun c => {| store := pg_rollback (store c); refuses := refuses c |}
}.

(** A connection on which no statement yields a row, and which records the
    statements it was given (the latest first). *)
#[export] Instance recorder : Connection (list stmt) := {
  execute := fun q log => (q :: log, OK None);
  begin := fun log => log;
  commit := fun log => log;
  rollback := fun log => log
}.

Definition empty_tables : tables :=
  {| urls := []; users := []; tweets := []; tweet_urls := [];
     tweet_mentions := []; tweet_tags := []; tweet_media := [] |}.

Definition empty_pg : pg := {| cur := empty_tables; saved := None; urls_seq := 1 |}.

(** * Definitions used by the properties *)

(** ** Assertions on code that uses a connection *)

(** [m] keeps the invariant [I] of the connection, however it ends. *)
Definition preserves {C A} (I : C -> Prop) (m : M C A) : Prop :=
  forall c, I c -> I (fst (m c)).

(** A triple with a postcondition for each way [m] can end. *)
Definition hoare {C A} (P : C -> Prop) (m : M C A)
    (Q : A -> C -> Prop) (E : exn -> C -> Prop) : Prop :=
  forall c, P c ->
    match m c with
    | (c', OK a) => Q a c'
    | (c', Err e) => E e c'
    end.

Definition is_update (q : stmt) : bool :=
  match q with
  | sql_update _ _ => true
  | _ => false
  end.

(** An assertion on the store that no statement falsifies. *)
Definition stable (I : pg -> Prop) : Prop :=
  forall q db, I db -> I (fst (pg_execute q db)).

(** An engine that refuses every insert into [tweet_urls]. *)
Definition refuses_tweet_urls (q : stmt) : bool :=
  match q with
  | sql_in_tweet_urls _ _ => true
  | _ => false
  end.

(** ** Text *)

Definition not_nul (c : ascii) : bool := negb (Ascii.eqb c NUL).

(** ** Geometry *)

(** A value that no subscript applies to: [v[k]] and [v[i]] are [TypeError]s. *)
Definition unsubscriptable (v : json) : bool :=
  match v with
  | JNull | JBool _ | JInt _ | JFloat _ => true
  | _ => false
  end.

(** The text of a vertex and of a ring closed by its first vertex, on
    well-formed coordinates. *)
Definition is_point (p : json) : Prop :=
  exists x y rest, p = JArr (x :: y :: rest).

Definition point_text (p : json) : string :=
  match p with
  | JArr (x :: y :: _) => str x ++ " " ++ str y
  | _ => EmptyString
  end.

Definition flatten (l : list string) : string := fold_right append EmptyString l.

Definition is_ring (r : json) : Prop :=
  exists p ps, r = JArr (p :: ps) /\ Forall is_point (p :: ps).

Definition ring_text (r : json) : string :=
  match r with
  | JArr (p :: ps) =>
      "(" ++ flatten (map (fun q => point_text q ++ ",") (p :: ps))
          ++ point_text p ++ ")"
  | _ => EmptyString
  end.

(** ** Rows and references *)

Definition user_present (k : Z) (db : pg) : Prop := has_key k (users (cur db)) = true.
Definition tweet_present (k : Z) (db : pg) : Prop := has_key k (tweets (cur db)) = true.
Definition url_present (k : Z) (db : pg) : Prop := has_key k (urls (cur db)) = true.

(** The row a value refers to, if it is an identity, is there. *)
Definition resolves (present : Z -> pg -> Prop) (v : json) (db : pg) : Prop :=
  forall k, v = JInt k -> present k db.

Definition key_in {V} (v : json) (l : list (Z * V)) : Prop :=
  forall k, v = JInt k -> has_key k l = true.

(** What a statement refers to is in the rows [t]: the conditions of its
    foreign keys. *)
Definition references_resolved (q : stmt) (t : tables) : Prop :=
  match q with
  | sql_insert _ data | sql_update _ data => key_in (u_id_urls data) (urls t)
  | sql_in_tweets _ data =>
      key_in (t_id_users data) (users t) /\ key_in (t_in_reply_to_user_id data) (users t)
  | sql_in_tweet_urls id_tweets id_urls =>
      key_in id_tweets (tweets t) /\ key_in id_urls (urls t)
  | sql_into_tweet_mentions id_tweets id_users =>
      key_in id_tweets (tweets t) /\ key_in id_users (users t)
  | sql_into_tags id_tweets _ => key_in id_tweets (tweets t)
  | sql_into_media id_tweets id_urls _ =>
      key_in id_tweets (tweets t) /\ key_in id_urls (urls t)
  | _ => True
  end.

(** No row refers to a row that is not there. *)
Definition fk_closed (t : tables) : Prop :=
  Forall (fun r => key_in (u_id_urls (snd r)) (urls t)) (users t) /\
  Forall (fun r => key_in (t_id_users (snd r)) (users t) /\
                   key_in (t_in_reply_to_user_id (snd r)) (users t)) (tweets t) /\
  Forall (fun r => has_key (fst r) (tweets t) = true /\
                   has_key (snd r) (urls t) = true) (tweet_urls t) /\
  Forall (fun r => has_key (fst r) (tweets t) = true /\
                   has_key (snd r) (users t) = true) (tweet_mentions t) /\
  Forall (fun r => has_key (fst r) (tweets t) = true) (tweet_tags t) /\
  Forall (fun r => has_key (fst (fst r)) (tweets t) = true /\
                   has_key (snd (fst r)) (urls t) = true) (tweet_media t).

(** The error postcondition of referential integrity: whatever is raised
    is not a foreign-key violation. *)
Definition nofk {C} (e : exn) (_ : C) : Prop := e <> Db ForeignKeyViolation.

(** The row of the user that [user['id']] names, and of the tweet that
    [tweet['id']] names, is in the store. *)
Definition author_present (user : json) (db : pg) : Prop :=
  forall v, get user "id" JNull = OK v -> resolves user_present v db.

Definition post_present (tweet : json) (db : pg) : Prop :=
  forall v, get tweet "id" JNull = OK v -> resolves tweet_present v db.

(** The row of the tweet was written: its identity is an integer. *)
Definition post_written (tweet : json) (db : pg) : Prop :=
  exists k, get tweet "id" JNull = OK (JInt k) /\ tweet_present k db.

(** ** Author rows *)

(** The columns of the row with key [k], if there is one. *)
Definition row_of {V} (k : Z) (l : list (Z * V)) : option V :=
  option_map snd (find (fun r => Z.eqb (fst r) k) l).

(** The identity under which [insert_tweet] writes the posting user
    (lines 115 and 166). *)
Definition poster_id (tweet : json) : result pyexn json :=
  rbind (get tweet "user" (JObj [])) (fun user => get user "id" JNull).

(** A statement that is not the update of the row of user [k]. *)
Definition spares (k : Z) (q : stmt) : Prop :=
  match q with
  | sql_update id_users _ => id_users <> JInt k
  | _ => True
  end.

(** ** The resolver *)

(** [n] calls of [get_id_urls] with the same URL, one after the other, and
    the identities they return. *)
Fixpoint get_id_urls_n {C} `{Connection C} (n : nat) (url : json) : M C (list json) :=
  match n with
  | O => ret []
  | S n' =>
      bind (get_id_urls url) (fun id_urls =>
      bind (get_id_urls_n n' url) (fun rest => ret (id_urls :: rest)))
  end.

(** The rows of [urls] that hold the string [s]. *)
Definition rows_of_url (s : string) (db : pg) : list (Z * option string) :=
  filter (url_is s) (urls (cur db)).

(** The sequence is ahead of every identity it has generated. *)
Definition seq_fresh (db : pg) : Prop :=
  forall r, In r (urls (cur db)) -> fst r < urls_seq db.

(** The rows of [urls] under a sequence value: every identity was
    generated before, and no string has two rows. *)
Definition urls_ok (seq : Z) (l : list (Z * option string)) : Prop :=
  (forall r, In r l -> fst r < seq) /\
  (forall s, (length (filter (url_is s) l) <= 1)%nat).

Definition store_ok (db : pg) : Prop :=
  urls_ok (urls_seq db) (urls (cur db)) /\
  forall t, saved db = Some t -> urls_ok (urls_seq db) (urls t).

(** A URL with a null character in it. *)
Definition url_with_nul : string :=
  "http://example.org/" ++ String NUL "a".

(** A store whose sequence has fallen behind its rows. *)
Definition pg_behind : pg :=
  {| cur := set_urls [(1, Some "http://example.org/a")] empty_tables;
     saved := None; urls_seq := 1 |}.

(** ** Records *)

(** The shape of the records of the source platform that carry no
    location: [geo] and [place] are both null. *)
Definition tweet_without_place : json :=
  JObj [("id", JInt 1);
        ("user", JObj [("id", JInt 2); ("url", JNull); ("geo_enabled", JBool true)]);
        ("geo", JNull);
        ("place", JNull);
        ("text", JStr "hello");
        ("entities", JObj [("urls", JArr []); ("user_mentions", JArr []);
                           ("hashtags", JArr []); ("symbols", JArr [])])].

(** A record with a location and no [entities] container. *)
Definition tweet_without_entities : json :=
  JObj [("id", JInt 1);
        ("user", JObj [("id", JInt 2); ("url", JNull)]);
        ("geo", JObj [("coordinates", JArr [JInt 51; JInt 0])]);
        ("place", JObj [("country_code", JStr "GB"); ("full_name", JStr "London, England")]);
        ("text", JStr "hello")].

(** A record whose first link has no [expanded_url]: the load fails in the
    loop over the links, after the rows of [urls], [users] and [tweets]
    were written. *)
Definition tweet_with_broken_link : json :=
  JObj [("id", JInt 10);
        ("user", JObj [("id", JInt 2); ("url", JStr "http://example.org/u");
                       ("name", JStr "u")]);
        ("geo", JObj [("coordinates", JArr [JInt 51; JInt 0])]);
        ("place", JObj [("country_code", JStr "GB"); ("full_name", JStr "London, England")]);
        ("text", JStr "hello");
        ("entities", JObj [("urls", JArr [JObj []]); ("user_mentions", JArr []);
                           ("hashtags", JArr []); ("symbols", JArr [])])].

(** Two records of one author: the first carries a full profile, the
    second, a later post, a profile whose description is null. *)
Definition tweet_hydrating : json :=
  JObj [("id", JInt 20);
        ("user", JObj [("id", JInt 2); ("url", JNull); ("screen_name", JStr "ann");
                       ("name", JStr "Ann"); ("description", JStr "bio")]);
        ("geo", JObj [("coordinates", JArr [JInt 51; JInt 0])]);
        ("place", JObj [("country_code", JStr "GB"); ("full_name", JStr "London, England")]);
        ("text", JStr "first");
        ("entities", JObj [("urls", JArr []); ("user_mentions", JArr []);
                           ("hashtags", JArr []); ("symbols", JArr [])])].

Definition tweet_later : json :=
  JObj [("id", JInt 21);
        ("user", JObj [("id", JInt 2); ("url", JNull); ("screen_name", JStr "ann");
                       ("name", JStr "Ann"); ("description", JNull)]);
        ("geo", JObj [("coordinates", JArr [JInt 51; JInt 0])]);
        ("place", JObj [("country_code", JStr "GB"); ("full_name", JStr "London, England")]);
        ("text", JStr "second");
        ("entities", JObj [("urls", JArr []); ("user_mentions", JArr []);
                           ("hashtags", JArr []); ("symbols", JArr [])])].

(** A post by another author that mentions user 2, answers them and
    carries a link and a tag. *)
Definition tweet_mentioning : json :=
  JObj [("id", JInt 22);
        ("user", JObj [("id", JInt 3); ("url", JNull); ("name", JStr "Bob")]);
        ("geo", JObj [("coordinates", JArr [JInt 51; JInt 0])]);
        ("place", JObj [("country_code", JStr "GB"); ("full_name", JStr "London, England")]);
        ("text", JStr "third");
        ("in_reply_to_user_id", JInt 2);
        ("entities", JObj [("urls", JArr [JObj [("expanded_url", JStr "http://example.org/a")]]);
                           ("user_mentions", JArr [JObj [("id", JInt 2); ("screen_name", JStr "ann")]]);
                           ("hashtags", JArr [JObj [("text", JStr "x")]]);
                           ("symbols", JArr [])])].

(** ** The order of the writes *)

(** The store with a record of what was executed on it: each statement
    next to the rows it was issued on, the latest first.  The record is no
    part of the store, and a rollback leaves it as it is. *)
Record traced : Type := {
  base : pg;
  log : list (stmt * tables)
}.

Definition traced_execute (q : stmt) (c : traced) : traced * result exn (option row) :=
  let (db, res) := pg_execute q (base c) in
  ({| base := db; log := (q, cur (base c)) :: log c |}, res).

#[export] Instance traced_connection : Connection traced | 100 := {
  execute := traced_execute;
  begin := fun c => {| base := pg_begin (base c); log := log c |};
  commit := fun c => {| base := pg_commit (base c); log := log c |};
  rollback := fun c => {| base := pg_rollback (base c); log := log c |}
}.

Definition start (db : pg) : traced := {| base := db; log := [] |}.

(** [v] is the identity of a row of [l]. *)
Definition names {V} (v : json) (l : list (Z * V)) : Prop :=
  exists k, v = JInt k /\ has_key k l = true.

(** The rows a statement refers to are written: every reference it binds
    is the identity of a row of [t].  The link of a user and the reply
    target of a tweet may also be [None]; the two ends of an association
    may not. *)
Definition refs_written (q : stmt) (t : tables) : Prop :=
  match q with
  | sql_insert _ data | sql_update _ data =>
      u_id_urls data = JNull \/ names (u_id_urls data) (urls t)
  | sql_in_tweets _ data =>
      names (t_id_users data) (users t) /\
      (t_in_reply_to_user_id data = JNull \/ names (t_in_reply_to_user_id data) (users t))
  | sql_in_tweet_urls id_tweets id_urls =>
      names id_tweets (tweets t) /\ names id_urls (urls t)
  | sql_into_tweet_mentions id_tweets id_users =>
      names id_tweets (tweets t) /\ names id_users (users t)
  | sql_into_tags id_tweets _ => names id_tweets (tweets t)
  | sql_into_media id_tweets id_urls _ =>
      names id_tweets (tweets t) /\ names id_urls (urls t)
  | _ => True
  end.

(** Every statement of the record was issued on rows in which what it
    refers to was written. *)
Definition in_order (c : traced) : Prop :=
  Forall (fun e => refs_written (fst e) (snd e)) (log c).

(** A triple on the recorded store: [m] keeps the record in order, and
    takes the store from [P] to [Q]. *)
Definition ordered {A} (P : pg -> Prop) (m : M traced A) (Q : A -> pg -> Prop) : Prop :=
  hoare (fun c => in_order c /\ P (base c)) m
        (fun a c => in_order c /\ Q a (base c))
        (fun _ c => in_order c).

(** [m] on the recorded store does to the store, and returns, what [m']
    does on the store itself. *)
Definition agrees {A} (m : M traced A) (m' : M pg A) : Prop :=
  forall c, base (fst (m c)) = fst (m' (base c)) /\ snd (m c) = snd (m' (base c)).

(** The user that [user['id']] names has a row. *)
Definition author_named (user : json) (db : pg) : Prop :=
  exists k, get user "id" JNull = OK (JInt k) /\ user_present k db.

(** * The loop over the records of an archive member (lines 457-465)

    A line is the text read from the file.  [json.loads], the decoder of
    the standard library, is a parameter [loads] of the loop: it gives the
    decoded value, or [None] where it raises.  A progress message is the
    pair of the index and the identity that [print] shows (the time and the
    file names it also shows are left out). *)

(** How the loop can stop early: the exception of [json.loads], an
    exception of [insert_tweet] or of [tweet['id']], or the division by
    zero of [i%args.print_every]. *)
Inductive stop : Type :=
| JSONDecodeError
| Raised (e : exn)
| ZeroDivisionError.

Section Main.
Context {C : Type} `{Connection C}.
Variable loads : string -> option json.

(** Lines 457-465, from index [i] on: the connection, the messages printed
    and the exception that left the loop, if any. *)
Fixpoint load_lines_from (print_every i : Z) (lines : list string) (c : C)
  : C * list (Z * json) * option stop :=
  match lines with
  | [] => (c, [], None)
  | line :: rest =>
      match loads line with
      | None => (c, [], Some JSONDecodeError)
      | Some tweet =>
          match insert_tweet tweet c with
          | (c1, Err e) => (c1, [], Some (Raised e))
          | (c1, OK _) =>
              if Z.eqb print_every 0 then (c1, [], Some ZeroDivisionError)
              else if Z.eqb (i mod print_every) 0 then
                match getitem tweet "id" with
                | Err e => (c1, [], Some (Raised (Py e)))
                | OK id =>
                    let '(c2, out, r) := load_lines_from print_every (i + 1) rest c1 in
                    (c2, (i, id) :: out, r)
                end
              else load_lines_from print_every (i + 1) rest c1
          end
      end
  end.

Definition load_lines (print_every : Z) (lines : list string) (c : C)
  : C * list (Z * json) * option stop :=
  load_lines_from print_every 0 lines c.

End Main.

(** * Definitions used by the further properties *)

(** No row of [t] is missing from [t']: the rows of [urls], [tweets] and
    the association tables are there as they were, and every identity of
    [users] still has a row. *)
Definition rows_kept (t t' : tables) : Prop :=
  incl (urls t) (urls t') /\
  (forall k, has_key k (users t) = true -> has_key k (users t') = true) /\
  incl (tweets t) (tweets t') /\
  incl (tweet_urls t) (tweet_urls t') /\
  incl (tweet_mentions t) (tweet_mentions t') /\
  incl (tweet_tags t) (tweet_tags t') /\
  incl (tweet_media t) (tweet_media t').

(** A record of a tweet that is withheld in two countries. *)
Definition tweet_withheld : json :=
  JObj [("id", JInt 20);
        ("user", JObj [("id", JInt 2); ("url", JNull); ("name", JStr "Ann")]);
        ("withheld_in_countries", JArr [JStr "DE"; JStr "FR"]);
        ("geo", JObj [("coordinates", JArr [JInt 51; JInt 0])]);
        ("place", JObj [("country_code", JStr "GB"); ("full_name", JStr "London, England")]);
        ("text", JStr "first");
        ("entities", JObj [("urls", JArr []); ("user_mentions", JArr []);
                           ("hashtags", JArr []); ("symbols", JArr [])])].

(** The link bound to the row of a user whose URL is [url]: [None] for a
    null URL, and otherwise the identity of a row of [urls] that holds
    the URL. *)
Definition link_of (url link : json) (t : tables) : Prop :=
  if is_None url then link = JNull
  else exists id u, link = JInt id /\ as_text url = OK u /\ In (id, u) (urls t).

(** A record whose user has a link. *)
Definition tweet_linked : json :=
  JObj [("id", JInt 11);
        ("user", JObj [("id", JInt 2); ("url", JStr "http://example.org/u");
                       ("name", JStr "u")]);
        ("geo", JObj [("coordinates", JArr [JInt 51; JInt 0])]);
        ("place", JObj [("country_code", JStr "GB"); ("full_name", JStr "London, England")]);
        ("text", JStr "hello");
        ("entities", JObj [("urls", JArr []); ("user_mentions", JArr []);
                           ("hashtags", JArr []); ("symbols", JArr [])])].

Definition is_in_tweets (q : stmt) : bool :=
  match q with
  | sql_in_tweets _ _ => true
  | _ => false
  end.

(** An assertion on the rows that holds of every store with more rows. *)
Definition kept (Q : tables -> Prop) : Prop :=
  forall t t', rows_kept t t' -> Q t -> Q t'.

(** What the store holds for an entity of the tweet [k]: the row of the
    link and the association to it, the mentioned user and the association
    to it, the tag, the row of the medium's URL and the association to
    it. *)
Definition link_stored (k : Z) (t : tables) (url : json) : Prop :=
  exists v u id,
    getitem url "expanded_url" = OK v /\ as_text v = OK u /\
    In (id, u) (urls t) /\ In (k, id) (tweet_urls t).

Definition mention_stored (k : Z) (t : tables) (mention : json) : Prop :=
  exists uid,
    get mention "id" JNull = OK (JInt uid) /\
    has_key uid (users t) = true /\ In (k, uid) (tweet_mentions t).

Definition tag_stored (k : Z) (t : tables) (tag : json) : Prop :=
  exists g, remove_nulls tag = OK (JStr g) /\ In (k, g) (tweet_tags t).

Definition medium_stored (k : Z) (t : tables) (medium : json) : Prop :=
  exists v u id type,
    getitem medium "media_url" = OK v /\ as_text v = OK u /\
    In (id, u) (urls t) /\ In (k, id, type) (tweet_media t).

(** A retweet-like record with two links, a repeated tag and a photo. *)
Definition tweet_with_entities : json :=
  JObj [("id", JInt 30);
        ("user", JObj [("id", JInt 3); ("url", JNull); ("name", JStr "Bob")]);
        ("geo", JObj [("coordinates", JArr [JInt 51; JInt 0])]);
        ("place", JObj [("country_code", JStr "GB"); ("full_name", JStr "London, England")]);
        ("text", JStr "fourth");
        ("entities",
         JObj [("urls", JArr [JObj [("expanded_url", JStr "http://example.org/a")];
                              JObj [("expanded_url", JStr "http://example.org/b")]]);
               ("user_mentions", JArr [JObj [("id", JInt 2); ("screen_name", JStr "ann")];
                                       JObj [("id", JInt 3); ("screen_name", JStr "bob")]]);
               ("hashtags", JArr [JObj [("text", JStr "x")]; JObj [("text", JStr "x")]]);
               ("symbols", JArr [JObj [("text", JStr "IBM")]])]);
        ("extended_entities",
         JObj [("media", JArr [JObj [("media_url", JStr "http://example.org/p.jpg");
                                     ("type", JStr "photo")]])])].

(** The row of the tweet a record names is in the store. *)
Definition loaded (db : pg) (tweet : json) : Prop :=
  exists k, getitem tweet "id" = OK (JInt k) /\ tweet_present k db.

(** The line decodes to a record whose tweet is in the store. *)
Definition line_loaded (loads : string -> option json) (db : pg) (line : string) : Prop :=
  exists tweet, loads line = Some tweet /\ loaded db tweet.

(** A decoder for a file of named records; any other line is malformed. *)
Definition loads_named (line : string) : option json :=
  if String.eqb line "hydrating" then Some tweet_hydrating
  else if String.eqb line "later" then Some tweet_later
  else if String.eqb line "mentioning" then Some tweet_mentioning
  else if String.eqb line "broken link" then Some tweet_with_broken_link
  else None.

(** Three records, the second of which has a link without [expanded_url];
    three records and a malformed line; three records. *)
Definition lines_with_broken_link : list string :=
  ["hydrating"; "broken link"; "later"].

Definition lines_with_malformed : list string :=
  ["hydrating"; "later"; "{"; "mentioning"].

Definition lines_of_three : list string :=
  ["hydrating"; "later"; "mentioning"].

(** A parameter that [remove_nulls] returned: [None], or a string without
    the null character. *)
Definition sanitized (v : json) : Prop :=
  v = JNull \/ exists s, v = JStr s /\ contains NUL s = false.

(** A user whose screen name holds a null character, and the parameters
    bound for their row. *)
Definition user_with_nul : json :=
  JObj [("id", JInt 2); ("screen_name", JStr (String NUL "ab"));
        ("name", JStr "Ann"); ("description", JStr "bio")].

Definition user_with_nul_cols : users_cols :=
  {| u_created_at := JNull; u_updated_at := JNull; u_id_urls := JNull;
     u_friends_count := JInt 0; u_listed_count := JInt 0;
     u_favourites_count := JInt 0; u_statuses_count := JInt 0;
     u_protected := JBool false; u_verified := JBool false;
     u_screen_name := JStr "ab"; u_name := JStr "Ann"; u_location := JNull;
     u_description := JStr "bio"; u_withheld_in_countries := JNull |}.

(** A tweet of that user with a null character in its text and in the name
    of its place, and the parameters bound for its row. *)
Definition tweet_with_nul : json := JObj [("id", JInt 1); ("source", JStr "web")].

Definition tweet_with_nul_cols : tweets_cols :=
  {| t_id_users := JInt 2; t_created_at := JNull; t_in_reply_to_status_id := JNull;
     t_in_reply_to_user_id := JNull; t_quoted_status_id := JNull;
     t_retweet_count := JInt 0; t_favorite_count := JInt 0; t_quote_count := JInt 0;
     t_withheld_copyright := JBool false; t_withheld_in_countries := JNull;
     t_source := JStr "web"; t_text := JStr "hi"; t_country_code := JStr "gb";
     t_state_code := JNull; t_lang := JStr EmptyString;
     t_place_name := JStr (String NUL "x"); t_geo := JNull |}.

(** Two records with tags on the extended side: the first holds hashtags
    and symbols there, the second hashtags only. *)
Definition tweet_tags_extended : json :=
  JObj [("extended_tweet",
         JObj [("entities",
                JObj [("hashtags", JArr [JObj [("text", JStr "long")]]);
                      ("symbols", JArr [])])]);
        ("entities", JObj [("hashtags", JArr []);
                           ("symbols", JArr [JObj [("text", JStr "IBM")]])])].

Definition tweet_tags_half_extended : json :=
  JObj [("extended_tweet",
         JObj [("entities",
                JObj [("hashtags", JArr [JObj [("text", JStr "long")]])])]);
        ("entities", JObj [("hashtags", JArr []);
                           ("symbols", JArr [JObj [("text", JStr "IBM")]])])].
(** * Properties *)

(** ** Text sanitizer *)

Lemma replace1_nul_filter (s : string) :
  list_ascii_of_string (replace1 NUL EmptyString s) = filter not_nul (list_ascii_of_string s).
Proof.
  induction s as [|c s IH]; simpl; [reflexivity|].
  unfold not_nul at 1.
  destruct (Ascii.eqb c NUL); simpl; [exact IH | now rewrite IH].
Qed.

Lemma replace1_nul_free (s : string) : contains NUL (replace1 NUL EmptyString s) = false.
Proof.
  induction s as [|c s IH]; [reflexivity|].
  cbn [replace1]. destruct (Ascii.eqb c NUL) eqn:E; cbn [append contains]; [exact IH|].
  rewrite IH, Bool.orb_false_r.
  rewrite Ascii.eqb_sym. exact E.
Qed.

Lemma replace1_no_occurrence (c : ascii) (new s : string) :
  contains c s = false -> replace1 c new s = s.
Proof.
  induction s as [|c' s IH]; [reflexivity|].
  cbn [replace1 contains].
  intros Hc. apply Bool.orb_false_iff in Hc as [Hc Hs].
  rewrite Ascii.eqb_sym, Hc. now rewrite IH.
Qed.

(** C9. [remove_nulls] maps [None] to [None]; on a string it returns the
    string whose characters are, in order, the characters of the input other
    than the null character: every null character is removed and no other
    character is changed, added or removed. *)
Theorem remove_nulls_spec :
  remove_nulls (of_optional None) = OK (of_optional None) /\
  forall s : string,
    remove_nulls (of_optional (Some s))
    = OK (of_optional
            (Some (string_of_list_ascii (filter not_nul (list_ascii_of_string s))))).
Proof.
  split; [reflexivity|].
  intros s. simpl. do 2 f_equal.
  rewrite <- replace1_nul_filter.
  now rewrite string_of_list_ascii_of_string.
Qed.

(** C10. [remove_nulls] is idempotent on optional strings, and its output
    holds no null character. *)
Theorem remove_nulls_idempotent :
  forall s : option string,
    rbind (remove_nulls (of_optional s)) remove_nulls = remove_nulls (of_optional s) /\
    exists t : option string,
      remove_nulls (of_optional s) = OK (of_optional t) /\
      match t with
      | Some t => contains NUL t = false
      | None => s = None
      end.
Proof.
  intros [s|]; simpl.
  - split.
    + now rewrite (replace1_no_occurrence _ _ _ (replace1_nul_free s)).
    + exists (Some (replace1 NUL EmptyString s)). split; [reflexivity|apply replace1_nul_free].
  - split; [reflexivity|]. now exists None.
Qed.

(** ** Geometry and field extraction *)

Example repr_ex :
  repr (JArr [JInt (-5); JStr "its"; JObj [("a", JNull); ("b", JFloat "1.5")];
              JStr (String "001" "x")])
  = "[-5, 'its', {'a': None, 'b': 1.5}, '\x01x']".
Proof. vm_compute. reflexivity. Qed.

Example state_code_ex :
  tweet_state_code
    (JObj [("place", JObj [("country_code", JStr "US"); ("full_name", JStr "Austin, TX")])])
    (JStr "us")
  = OK (JStr "tx").
Proof. reflexivity. Qed.

Example geo_point_ex :
  normalize_geo (JObj [("geo", JObj [("coordinates", JArr [JFloat "40.5"; JInt (-74)])]);
                       ("place", JNull)])
  = OK (JStr "POINT(40.5 -74)").
Proof. reflexivity. Qed.

Example geo_polygon_ex :
  normalize_geo
    (JObj [("geo", JNull);
           ("place", JObj [("bounding_box", JObj [("coordinates",
              JArr [JArr [JArr [JInt 1; JInt 2]; JArr [JInt 3; JInt 4]; JArr [JInt 5; JInt 6]];
                    JArr [JArr [JInt 7; JInt 8]]])])])])
  = OK (JStr "POLYGON((1 2,3 4,5 6,1 2),(7 8,7 8))").
Proof. reflexivity. Qed.


Lemma geo_point_falls_through (fields : list (string * json)) (g : json) :
  assoc "geo" fields = Some g ->
  unsubscriptable g = true ->
  normalize_geo (JObj fields)
  = rcatch KeyError (geo_polygon (JObj fields)) (geo_fallback (JObj fields)).
Proof.
  intros Hg Hu. unfold normalize_geo, geo_point. simpl. rewrite Hg.
  destruct g; try discriminate; reflexivity.
Qed.

Lemma geo_polygon_no_place (fields : list (string * json)) :
  assoc "place" fields = None -> geo_polygon (JObj fields) = Err KeyError.
Proof. intros Hp. unfold geo_polygon. simpl. now rewrite Hp. Qed.

Lemma geo_polygon_no_bounding_box (fields place : list (string * json)) :
  assoc "place" fields = Some (JObj place) ->
  assoc "bounding_box" place = None ->
  geo_polygon (JObj fields) = Err KeyError.
Proof. intros Hp Hb. unfold geo_polygon. simpl. rewrite Hp. simpl. now rewrite Hb. Qed.

(** Rules 3 and 4, reached through the [KeyError] of a record without
    [place] or a place without [bounding_box]. *)
Lemma geo_fallback_enabled (fields user : list (string * json)) (enabled : json) :
  assoc "user" fields = Some (JObj user) ->
  assoc "geo_enabled" user = Some enabled ->
  geo_fallback (JObj fields) = OK (if truthy enabled then JNull else JStr EmptyString).
Proof.
  intros Hu He. unfold geo_fallback. simpl. rewrite Hu. simpl. rewrite He. simpl.
  now destruct (truthy enabled).
Qed.

(** Without a coordinate pair, a [place] that is null (or of another type
    without subscripts) is not absorbed: its subscript raises [TypeError]
    inside the handler, and the handler under it names [KeyError] only. *)
Lemma normalize_geo_place_not_absorbed (fields : list (string * json)) (g p : json) :
  assoc "geo" fields = Some g -> unsubscriptable g = true ->
  assoc "place" fields = Some p -> unsubscriptable p = true ->
  normalize_geo (JObj fields) = Err TypeError.
Proof.
  intros Hg Hug Hp Hup. rewrite (geo_point_falls_through _ Hg Hug).
  unfold geo_polygon. cbn [getitem rbind]. rewrite Hp.
  destruct p; try discriminate; reflexivity.
Qed.

(** C7. On a record with neither a coordinate pair nor a bounding region
    ([geo] and [place] null) whose author has location sharing enabled, the
    geometry code emits nothing: the subscript of the null [place] raises
    [TypeError], which the handler for [KeyError] does not catch, and
    [insert_tweet] fails with it, leaving no row of the record. *)
Theorem normalize_geo_null_place_raises :
  normalize_geo tweet_without_place = Err TypeError /\
  insert_tweet tweet_without_place empty_pg = (empty_pg, Err (Py TypeError)).
Proof. split; reflexivity. Qed.

(** The same record without the [place] key takes rule 3. *)
Example normalize_geo_missing_place :
  normalize_geo
    (JObj [("id", JInt 1);
           ("user", JObj [("id", JInt 2); ("url", JNull); ("geo_enabled", JBool true)]);
           ("geo", JNull)])
  = OK JNull.
Proof. reflexivity. Qed.




(** *** Rule 2 on well-formed coordinates *)

Lemma append_assoc (a b c : string) : (a ++ b) ++ c = a ++ b ++ c.
Proof. induction a as [|x a IH]; simpl; [reflexivity|now rewrite IH]. Qed.

Lemma append_nil_r (a : string) : a ++ EmptyString = a.
Proof. induction a as [|x a IH]; simpl; [reflexivity|now rewrite IH]. Qed.

Lemma point_str_text (p : json) : is_point p -> point_str p = OK (point_text p).
Proof. intros (x & y & rest & ->). reflexivity. Qed.

Lemma ring_points_text (ps : list json) :
  Forall is_point ps ->
  ring_points ps = OK (flatten (map (fun q => point_text q ++ ",") ps)).
Proof.
  induction 1 as [|p ps Hp _ IH]; [reflexivity|].
  cbn [ring_points map]. rewrite (point_str_text Hp). cbn [rbind]. rewrite IH. cbn [rbind].
  unfold flatten. cbn [fold_right]. now rewrite append_assoc.
Qed.

Lemma ring_str_closed (r : json) : is_ring r -> ring_str r = OK (ring_text r).
Proof.
  intros (p & ps & -> & Hps). unfold ring_str. cbn [iter rbind].
  rewrite (ring_points_text Hps). cbn [rbind index nth_error].
  inversion Hps as [|? ? Hp _]; subst. rewrite (point_str_text Hp). cbn [rbind].
  reflexivity.
Qed.

Lemma rings_str_text (rings : list json) (i : nat) :
  Forall is_ring rings ->
  rings_str i rings
  = OK (match rings with
        | [] => EmptyString
        | _ => (if Nat.ltb 0 i then "," else EmptyString) ++ join "," (map ring_text rings)
        end).
Proof.
  intros Hrings. revert i. induction Hrings as [|r rings Hr _ IH]; intros i; [reflexivity|].
  cbn [rings_str]. rewrite (ring_str_closed Hr). cbn [rbind]. rewrite IH. cbn [rbind].
  destruct rings as [|r' rings]; cbn [map join].
  - now rewrite append_nil_r.
  - reflexivity.
Qed.


(** ** The parameter dictionaries *)

Ltac rbind_inv H :=
  repeat match type of H with
         | rbind ?r _ = OK _ =>
             let E := fresh "E" in
             destruct r eqn:E; [cbn [rbind] in H | discriminate H]
         end.

Lemma users_data_inv (tweet user link id_users : json) (d : users_cols) :
  users_data tweet user link = OK (id_users, d) ->
  get user "id" JNull = OK id_users /\ u_id_urls d = link.
Proof.
  unfold users_data. intros Hd. rbind_inv Hd.
  inversion Hd; subst. split; reflexivity.
Qed.

Lemma tweets_data_inv (tweet user text cc sc pn geo id_tweets : json) (d : tweets_cols) :
  tweets_data tweet user text cc sc pn geo = OK (id_tweets, d) ->
  get tweet "id" JNull = OK id_tweets /\
  get user "id" JNull = OK (t_id_users d) /\
  get tweet "in_reply_to_user_id" JNull = OK (t_in_reply_to_user_id d).
Proof.
  unfold tweets_data. intros Hd. rbind_inv Hd.
  inversion Hd; subst. repeat split; assumption.
Qed.

(** ** Invariants of the connection *)

Section Preserves.
Context {C : Type}.
Variable I : C -> Prop.

Lemma preserves_ret {A} (a : A) : preserves I (ret a).
Proof. intros c Hc. exact Hc. Qed.

Lemma preserves_lift {A} (r : result pyexn A) : preserves I (lift r).
Proof. intros c Hc. exact Hc. Qed.

Lemma preserves_bind {A B} (m : M C A) (f : A -> M C B) :
  preserves I m -> (forall a, preserves I (f a)) -> preserves I (bind m f).
Proof.
  intros Hm Hf c Hc. unfold bind. specialize (Hm c Hc).
  destruct (m c) as [c' [a|e]]; simpl in *; [now apply Hf | exact Hm].
Qed.

(** The continuation of a pure expression may use its value. *)
Lemma preserves_bind_lift {A B} (r : result pyexn A) (f : A -> M C B) :
  (forall a, r = OK a -> preserves I (f a)) -> preserves I (bind (lift r) f).
Proof.
  intros Hf c Hc. unfold bind, lift.
  destruct r as [a|e]; simpl; [now apply (Hf a) | exact Hc].
Qed.

Lemma preserves_for_each {X} (l : list X) (body : X -> M C unit) :
  (forall x, preserves I (body x)) -> preserves I (for_each l body).
Proof.
  intros Hb. induction l as [|x l IH]; simpl.
  - apply preserves_ret.
  - apply preserves_bind; [apply Hb | intros _; exact IH].
Qed.
End Preserves.

(** Walks a program built from [bind], [lift], [ret], [for_each] and
    conditionals, leaving the statements it executes. *)
Ltac walk :=
  repeat first
    [ apply preserves_ret
    | apply preserves_lift
    | apply preserves_for_each; intros ?
    | apply preserves_bind_lift; intros ? ?
    | apply preserves_bind; [ | intros ? ]
    | match goal with
      | |- preserves _ (if ?b then _ else _) => destruct b
      | |- preserves _ (match ?x with _ => _ end) => destruct x
      end ].

(** What the program executes on a connection, statement by statement: an
    invariant kept by every statement [allowed] is kept by each part of
    [insert_tweet], provided [allowed] holds of every statement other than
    [sql_update] and of the one [sql_update] the program issues. *)
Section Walk.
Context {C : Type} `{Connection C}.
Variable I : C -> Prop.
Variable allowed : stmt -> Prop.
Variable tweet : json.
Hypothesis step : forall q, allowed q -> preserves I (execute q).
Hypothesis allowed_rest : forall q, is_update q = false -> allowed q.

Lemma get_id_urls_preserves (url : json) : preserves I (get_id_urls url).
Proof. unfold get_id_urls. walk; apply step, allowed_rest; reflexivity. Qed.

Lemma insert_reply_target_preserves :
  preserves I (insert_reply_target tweet).
Proof. unfold insert_reply_target. walk; apply step, allowed_rest; reflexivity. Qed.

Lemma insert_tweets_row_preserves (user : json) :
  preserves I (insert_tweets_row tweet user).
Proof.
  unfold insert_tweets_row. walk; apply step, allowed_rest; reflexivity.
Qed.

Lemma insert_tweet_urls_preserves : preserves I (insert_tweet_urls tweet).
Proof.
  unfold insert_tweet_urls. walk; apply step, allowed_rest; reflexivity.
Qed.

Lemma insert_tweet_mentions_preserves :
  preserves I (insert_tweet_mentions tweet).
Proof. unfold insert_tweet_mentions. walk; apply step, allowed_rest; reflexivity. Qed.

Lemma insert_tweet_tags_preserves : preserves I (insert_tweet_tags tweet).
Proof. unfold insert_tweet_tags. walk; apply step, allowed_rest; reflexivity. Qed.

Lemma insert_tweet_media_preserves : preserves I (insert_tweet_media tweet).
Proof.
  unfold insert_tweet_media. walk; apply step, allowed_rest; reflexivity.
Qed.

(** The identity the posting user's row is written under (line 166). *)
Hypothesis allowed_update :
  forall user id_users d,
    get tweet "user" (JObj []) = OK user ->
    get user "id" JNull = OK id_users ->
    allowed (sql_update id_users d).

Lemma insert_user_preserves : preserves I (insert_user tweet).
Proof.
  unfold insert_user. walk; try (apply step, allowed_rest; reflexivity).
  destruct a4 as [id_users d].
  match goal with
  | Hd : users_data _ _ _ = OK _ |- _ => apply users_data_inv in Hd as [Hid _]
  end.
  destruct (first_is_None _); [apply step, allowed_rest; reflexivity|].
  apply step. eauto.
Qed.

Lemma load_tweet_preserves : preserves I (load_tweet tweet).
Proof.
  unfold load_tweet.
  apply preserves_bind; [apply insert_user_preserves|intros user].
  apply preserves_bind; [apply insert_tweets_row_preserves|intros _].
  apply preserves_bind; [apply insert_tweet_urls_preserves|intros _].
  apply preserves_bind; [apply insert_tweet_mentions_preserves|intros _].
  apply preserves_bind; [apply insert_tweet_tags_preserves|intros _].
  apply insert_tweet_media_preserves.
Qed.

Lemma insert_tweet_body_preserves : preserves I (insert_tweet_body tweet).
Proof.
  unfold insert_tweet_body.
  apply preserves_bind_lift; intros id_tweets _.
  apply preserves_bind; [apply step, allowed_rest; reflexivity|intros res].
  destruct (first_is_None res); [apply load_tweet_preserves|apply preserves_ret].
Qed.


End Walk.

(** ** The store, statement by statement *)

Lemma has_key_cons {V} (k k' : Z) (v : V) (l : list (Z * V)) :
  has_key k l = true -> has_key k ((k', v) :: l) = true.
Proof. unfold has_key. simpl. intros ->. apply Bool.orb_true_r. Qed.

Lemma has_key_head {V} (k : Z) (v : V) (l : list (Z * V)) :
  has_key k ((k, v) :: l) = true.
Proof. unfold has_key. simpl. now rewrite Z.eqb_refl. Qed.

Lemma has_key_update {V} (k k' : Z) (v : V) (l : list (Z * V)) :
  has_key k (update_key k' v l) = has_key k l.
Proof.
  unfold has_key, update_key. induction l as [|[a b] l IH]; simpl; [reflexivity|].
  rewrite IH. f_equal.
  destruct (Z.eqb_spec a k'); simpl; [now subst|reflexivity].
Qed.

(** Splits a hypothesis [run q seq t = OK (t', res)] into the cases of [q]. *)
Ltac run_inv H :=
  unfold run, not_null, refers, as_bigint, as_text in H;
  repeat match type of H with
         | context [match ?x with _ => _ end] =>
             let E := fresh "E" in destruct x eqn:E; cbn [rbind] in H; try discriminate H
         end;
  try (injection H as <- <-).

(** No statement deletes a row of [urls], [users] or [tweets] or changes
    its key. *)
Lemma run_grows (q : stmt) (seq : Z) (t t' : tables) (res : option row) :
  run q seq t = OK (t', res) ->
  (forall k, has_key k (urls t) = true -> has_key k (urls t') = true) /\
  (forall k, has_key k (users t) = true -> has_key k (users t') = true) /\
  (forall k, has_key k (tweets t) = true -> has_key k (tweets t') = true).
Proof.
  intros Hrun.
  destruct q; run_inv Hrun; simpl; repeat split; intros k' Hk';
    rewrite ?has_key_update; auto; rewrite Hk'; apply Bool.orb_true_r.
Qed.

Lemma pg_execute_saved (q : stmt) (db : pg) : saved (fst (pg_execute q db)) = saved db.
Proof. unfold pg_execute. now destruct (run q (urls_seq db) (cur db)) as [[t res]|e]. Qed.

Lemma pg_execute_err (q : stmt) (db db' : pg) (e : exn) :
  pg_execute q db = (db', Err e) ->
  db' = db /\ exists d, e = Db d /\ run q (urls_seq db) (cur db) = Err d.
Proof.
  unfold pg_execute. destruct (run q (urls_seq db) (cur db)) as [[t res]|e']; [discriminate|].
  intros Heq. injection Heq as <- <-. eauto.
Qed.

Lemma pg_execute_ok (q : stmt) (db db' : pg) (res : option row) :
  pg_execute q db = (db', OK res) ->
  run q (urls_seq db) (cur db) = OK (cur db', res) /\
  saved db' = saved db /\ urls_seq db' = next_seq q (urls_seq db).
Proof.
  unfold pg_execute. destruct (run q (urls_seq db) (cur db)) as [[t r]|e']; [|discriminate].
  intros Heq. injection Heq as <- <-. auto.
Qed.

(** An assertion on the rows that no statement can falsify. *)
Lemma pg_execute_grows (q : stmt) (db : pg) :
  let db' := fst (pg_execute q db) in
  (forall k, has_key k (urls (cur db)) = true -> has_key k (urls (cur db')) = true) /\
  (forall k, has_key k (users (cur db)) = true -> has_key k (users (cur db')) = true) /\
  (forall k, has_key k (tweets (cur db)) = true -> has_key k (tweets (cur db')) = true).
Proof.
  unfold pg_execute. destruct (run q (urls_seq db) (cur db)) as [[t r]|e'] eqn:Hrun; simpl.
  - exact (run_grows _ _ _ Hrun).
  - auto.
Qed.

(** ** Failure atomicity *)

(** No statement touches the rows saved when the transaction began,
    whether the engine runs it or refuses it. *)
Lemma faulty_execute_saved (q : stmt) (c : faulty) :
  saved (store (fst (execute q c))) = saved (store c).
Proof.
  cbn [execute faulty_connection]. unfold faulty_execute.
  destruct (refuses c q); [reflexivity|].
  pose proof (pg_execute_saved q (store c)) as Hsaved.
  now destruct (pg_execute q (store c)) as [db res].
Qed.

Lemma insert_tweet_body_saved (tweet : json) (db : pg) :
  saved (fst (insert_tweet_body tweet db)) = saved db.
Proof.
  apply (@insert_tweet_body_preserves pg _ (fun c => saved c = saved db) (fun _ => True) tweet);
    auto.
  intros q _ c Hc. change (execute q c) with (pg_execute q c).
  now rewrite pg_execute_saved.
Qed.

Lemma insert_tweet_body_saved_faulty (tweet : json) (c : faulty) :
  saved (store (fst (insert_tweet_body tweet c))) = saved (store c).
Proof.
  apply (@insert_tweet_body_preserves faulty _
           (fun c' => saved (store c') = saved (store c)) (fun _ => True) tweet); auto.
  intros q _ c' Hc'. now rewrite faulty_execute_saved.
Qed.

Lemma next_seq_le (q : stmt) (seq : Z) : seq <= next_seq q seq.
Proof. destruct q; simpl; lia. Qed.

Lemma faulty_execute_seq (q : stmt) (c : faulty) :
  urls_seq (store c) <= urls_seq (store (fst (execute q c))).
Proof.
  cbn [execute faulty_connection]. unfold faulty_execute.
  destruct (refuses c q); [cbn; lia|].
  unfold pg_execute.
  destruct (run q (urls_seq (store c)) (cur (store c))) as [[t res]|e]; cbn; [|lia].
  apply next_seq_le.
Qed.

Lemma insert_tweet_body_seq_faulty (tweet : json) (c : faulty) :
  urls_seq (store c) <= urls_seq (store (fst (insert_tweet_body tweet c))).
Proof.
  apply (@insert_tweet_body_preserves faulty _
           (fun c' => urls_seq (store c) <= urls_seq (store c')) (fun _ => True) tweet);
    auto; [|lia].
  intros q _ c' Hc'. pose proof (faulty_execute_seq q c'). lia.
Qed.

(** C2, as stated, fails: a record whose user has a link and whose first
    entity link has no [expanded_url] is rolled back, but the store is not
    exactly as it was.  The identity that [get_id_urls] drew for the link
    of the user is not given back, so the next link written gets the
    identity 2 where it would have got 1. *)
Lemma failed_load_advances_sequence :
  let db' := fst (insert_tweet tweet_with_broken_link empty_pg) in
  snd (insert_tweet tweet_with_broken_link empty_pg) = Err (Py KeyError) /\
  cur db' = cur empty_pg /\
  db' <> empty_pg /\
  snd (get_id_urls (JStr "http://example.org/a") empty_pg) = OK (JInt 1) /\
  snd (get_id_urls (JStr "http://example.org/a") db') = OK (JInt 2).
Proof. vm_compute. repeat split. discriminate. Qed.


(** Inside the transaction the rows of the failing record are there. *)
Example rows_before_rollback :
  let start := {| store := empty_pg; refuses := refuses_tweet_urls |} in
  let c := fst (insert_tweet_body tweet_mentioning (begin start)) in
  snd (insert_tweet_body tweet_mentioning (begin start)) = Err (Db Refused) /\
  has_key 3 (users (cur (store c))) = true /\
  has_key 22 (tweets (cur (store c))) = true /\
  has_key 1 (urls (cur (store c))) = true.
Proof. vm_compute. auto. Qed.


(** The same on the store itself, here for a Python exception in the loop
    over the links. *)
Lemma insert_tweet_rolls_back_store (tweet : json) (db db' : pg) (e : exn) :
  insert_tweet tweet db = (db', Err e) -> cur db' = cur db /\ saved db' = None.
Proof.
  unfold insert_tweet, with_begin.
  pose proof (insert_tweet_body_saved tweet (begin db)) as Hsaved.
  destruct (insert_tweet_body tweet (begin db)) as [c [[]|e']]; [discriminate|].
  intros Heq. injection Heq as <- <-.
  simpl in *. now rewrite Hsaved.
Qed.

Example broken_link_rolls_back :
  insert_tweet tweet_with_broken_link empty_pg
  = ({| cur := empty_tables; saved := None; urls_seq := 2 |}, Err (Py KeyError)).
Proof. reflexivity. Qed.

(** ** Rules for triples *)

Section Hoare.
Context {C : Type}.

Lemma hoare_ret {A} (P : C -> Prop) (a : A) Q E :
  (forall c, P c -> Q a c) -> hoare P (ret a) Q E.
Proof. intros HQ c Hc. simpl. auto. Qed.

Lemma hoare_lift {A} (P : C -> Prop) (r : result pyexn A) (Q : A -> C -> Prop) E :
  (forall a c, r = OK a -> P c -> Q a c) ->
  (forall e c, r = Err e -> P c -> E (Py e) c) ->
  hoare P (lift r) Q E.
Proof. intros HQ HE c Hc. unfold lift. destruct r; auto. Qed.

Lemma hoare_bind {A B} (P : C -> Prop) (m : M C A) (R : A -> C -> Prop)
    (f : A -> M C B) Q E :
  hoare P m R E -> (forall a, hoare (R a) (f a) Q E) -> hoare P (bind m f) Q E.
Proof.
  intros Hm Hf c Hc. unfold bind. specialize (Hm c Hc).
  destruct (m c) as [c' [a|e]]; [now apply Hf | exact Hm].
Qed.

Lemma hoare_bind_lift {A B} (P : C -> Prop) (r : result pyexn A) (f : A -> M C B) Q E :
  (forall e c, r = Err e -> P c -> E (Py e) c) ->
  (forall a, r = OK a -> hoare P (f a) Q E) ->
  hoare P (bind (lift r) f) Q E.
Proof.
  intros HE Hf c Hc. unfold bind, lift.
  destruct r as [a|e]; [now apply (Hf a) | now apply HE].
Qed.

Lemma hoare_weaken {A} (P P' : C -> Prop) (m : M C A) (Q Q' : A -> C -> Prop) E :
  hoare P m Q E ->
  (forall c, P' c -> P c) -> (forall a c, Q a c -> Q' a c) ->
  hoare P' m Q' E.
Proof.
  intros Hm HP HQ c Hc. specialize (Hm c (HP c Hc)).
  destruct (m c) as [c' [a|e]]; auto.
Qed.

(** An invariant of [m] can be added to both sides of its triple. *)
Lemma hoare_frame {A} (I P : C -> Prop) (m : M C A) (Q : A -> C -> Prop) E :
  preserves I m -> hoare P m Q E ->
  hoare (fun c => I c /\ P c) m (fun a c => I c /\ Q a c) E.
Proof.
  intros HI Hm c [Hc HPc]. specialize (Hm c HPc). specialize (HI c Hc).
  destruct (m c) as [c' [a|e]]; simpl in *; auto.
Qed.

Lemma hoare_for_each {X} (I : C -> Prop) (l : list X) (body : X -> M C unit) E :
  (forall x, hoare I (body x) (fun _ => I) E) ->
  hoare I (for_each l body) (fun _ => I) E.
Proof.
  intros Hb. induction l as [|x l IH]; simpl.
  - now apply hoare_ret.
  - eapply hoare_bind; [apply Hb | intros ?; exact IH].
Qed.

End Hoare.

(** ** Stable assertions *)

Lemma stable_user_present (k : Z) : stable (user_present k).
Proof. intros q db. apply (pg_execute_grows q db). Qed.

Lemma stable_tweet_present (k : Z) : stable (tweet_present k).
Proof. intros q db. apply (pg_execute_grows q db). Qed.

Lemma stable_url_present (k : Z) : stable (url_present k).
Proof. intros q db. apply (pg_execute_grows q db). Qed.

Lemma stable_resolves (present : Z -> pg -> Prop) (v : json) :
  (forall k, stable (present k)) -> stable (resolves present v).
Proof. intros Hs q db Hr k Hk. apply Hs. now apply Hr. Qed.

(** Every part of [insert_tweet] keeps a stable assertion. *)
Lemma stable_step (I : pg -> Prop) (q : stmt) :
  stable I -> True -> preserves I (execute q).
Proof. intros HI _ c Hc. now apply HI. Qed.

Section StableWalk.
Variable I : pg -> Prop.
Hypothesis HI : stable I.

Lemma get_id_urls_stable url : preserves I (get_id_urls url).
Proof. apply get_id_urls_preserves with (allowed := fun _ => True); auto using stable_step. Qed.

Lemma insert_user_stable tweet : preserves I (insert_user tweet).
Proof. apply insert_user_preserves with (allowed := fun _ => True); auto using stable_step. Qed.

Lemma insert_reply_target_stable tweet : preserves I (insert_reply_target tweet).
Proof. apply insert_reply_target_preserves with (allowed := fun _ => True); auto using stable_step. Qed.

Lemma insert_tweets_row_stable tweet user : preserves I (insert_tweets_row tweet user).
Proof. apply insert_tweets_row_preserves with (allowed := fun _ => True); auto using stable_step. Qed.

Lemma insert_tweet_urls_stable tweet : preserves I (insert_tweet_urls tweet).
Proof. apply insert_tweet_urls_preserves with (allowed := fun _ => True); auto using stable_step. Qed.

Lemma insert_tweet_mentions_stable tweet : preserves I (insert_tweet_mentions tweet).
Proof. apply insert_tweet_mentions_preserves with (allowed := fun _ => True); auto using stable_step. Qed.

Lemma insert_tweet_tags_stable tweet : preserves I (insert_tweet_tags tweet).
Proof. apply insert_tweet_tags_preserves with (allowed := fun _ => True); auto using stable_step. Qed.

Lemma insert_tweet_media_stable tweet : preserves I (insert_tweet_media tweet).
Proof. apply insert_tweet_media_preserves with (allowed := fun _ => True); auto using stable_step. Qed.

Lemma insert_tweet_body_stable tweet : preserves I (insert_tweet_body tweet).
Proof. apply insert_tweet_body_preserves with (allowed := fun _ => True); auto using stable_step. Qed.
End StableWalk.

(** ** Referential integrity *)

(** A statement whose references are in the rows is not refused for a
    foreign key. *)
Lemma run_references_resolved (q : stmt) (seq : Z) (t : tables) :
  references_resolved q t -> run q seq t <> Err ForeignKeyViolation.
Proof.
  unfold references_resolved, key_in. intros Href Hrun.
  destruct q; unfold run, not_null, refers, as_bigint, as_text in Hrun;
    repeat match type of Hrun with
           | context [match ?x with _ => _ end] =>
               let E := fresh "E" in destruct x eqn:E; cbn [rbind] in Hrun;
               try discriminate Hrun
           end;
    repeat match goal with
           | H : _ /\ _ |- _ => destruct H
           | H : forall k, ?v = JInt k -> _, E : ?v = JInt _ |- _ =>
               specialize (H _ E)
           | H : forall k, JInt ?z = JInt k -> _ |- _ => specialize (H z eq_refl)
           end;
    congruence.
Qed.

Ltac key_done :=
  simpl;
  first [ assumption
        | rewrite Z.eqb_refl; reflexivity
        | apply has_key_head ].

(** The row an insert is about is there once the statement has run. *)
Lemma run_insert_users (v : json) (d : users_cols) seq t t' res :
  run (sql_insert v d) seq t = OK (t', res) ->
  exists k, v = JInt k /\ has_key k (users t') = true.
Proof.
  intros Hrun. run_inv Hrun; eexists; (split; [reflexivity|]); key_done.
Qed.

Lemma run_id_insert (v : json) seq t t' res :
  run (sql_id_insert v) seq t = OK (t', res) ->
  exists k, v = JInt k /\ has_key k (users t') = true.
Proof.
  intros Hrun. run_inv Hrun; eexists; (split; [reflexivity|]); key_done.
Qed.

Lemma run_id_users_insert (v a b : json) seq t t' res :
  run (sql_id_users_insert v a b) seq t = OK (t', res) ->
  exists k, v = JInt k /\ has_key k (users t') = true.
Proof.
  intros Hrun. run_inv Hrun; eexists; (split; [reflexivity|]); key_done.
Qed.

Lemma run_in_tweets (v : json) (d : tweets_cols) seq t t' res :
  run (sql_in_tweets v d) seq t = OK (t', res) ->
  exists k, v = JInt k /\ has_key k (tweets t') = true.
Proof.
  intros Hrun. run_inv Hrun; eexists; (split; [reflexivity|]); key_done.
Qed.

(** What a lookup by identity finds. *)
Lemma run_check_user_id (v : json) seq t t' res :
  run (sql_check_user_id v) seq t = OK (t', res) ->
  t' = t /\
  (first_is_None res = false -> exists k, v = JInt k /\ has_key k (users t) = true).
Proof.
  intros Hrun. run_inv Hrun; (split; [reflexivity|]); simpl; try discriminate.
  unfold find_key. destruct (has_key z (users t)) eqn:Hk; [eauto|discriminate].
Qed.

Lemma run_select_tweets (v : json) seq t t' res :
  run (sql_select_tweets v) seq t = OK (t', res) ->
  t' = t /\
  (first_is_None res = false -> exists k, v = JInt k /\ has_key k (tweets t) = true).
Proof.
  intros Hrun. run_inv Hrun; (split; [reflexivity|]); simpl; try discriminate.
  unfold find_key. destruct (has_key z (tweets t)) eqn:Hk; [eauto|discriminate].
Qed.

Lemma find_url_has_key (s : string) (l : list (Z * option string)) (r : Z * option string) :
  find (url_is s) l = Some r -> has_key (fst r) l = true.
Proof.
  intros Hf. apply find_some in Hf as [Hin _].
  unfold has_key. apply existsb_exists. exists r. split; [exact Hin|apply Z.eqb_refl].
Qed.

(** The identity either statement of the resolver returns is that of a row. *)
Lemma run_insert_urls (v : json) seq t t' res :
  run (sql_insert_urls v) seq t = OK (t', res) ->
  first_is_None res = false ->
  exists id, row_0 res = OK (JInt id) /\ has_key id (urls t') = true.
Proof.
  intros Hrun. run_inv Hrun; simpl; try discriminate; intros _; eexists;
    (split; [reflexivity|]); key_done.
Qed.

Lemma run_select_urls (v : json) seq t t' res :
  run (sql_select_urls v) seq t = OK (t', res) ->
  first_is_None res = false ->
  exists id, row_0 res = OK (JInt id) /\ has_key id (urls t') = true.
Proof.
  intros Hrun. run_inv Hrun; simpl; try discriminate.
  destruct (find (url_is s) (urls t)) as [r|] eqn:Hf; simpl; [|discriminate].
  intros _. exists (fst r). split; [reflexivity|]. now apply find_url_has_key with s.
Qed.

Lemma hoare_execute (P : pg -> Prop) (q : stmt) Q E :
  (forall db, P db ->
     match pg_execute q db with
     | (db', OK res) => Q res db'
     | (db', Err e) => E e db'
     end) ->
  hoare P (execute q) Q E.
Proof. intros Hq db Hdb. exact (Hq db Hdb). Qed.

(** Opens a triple on [execute q] into the two outcomes of [run q]. *)
Ltac hexec :=
  apply hoare_execute;
  let db := fresh "db" in
  let db' := fresh "db'" in
  let res := fresh "res" in
  let Hex := fresh "Hex" in
  let Hpre := fresh "Hpre" in
  let Hrun := fresh "Hrun" in
  let d := fresh "d" in
  intros db Hpre;
  destruct (pg_execute _ db) as [db' [res|?e]] eqn:Hex;
  [ apply pg_execute_ok in Hex as (Hrun & _ & _)
  | apply pg_execute_err in Hex as (-> & d & -> & Hrun);
    unfold nofk; intros Hfk; injection Hfk as ->;
    revert Hrun; apply run_references_resolved; unfold references_resolved, key_in ].

Tactic Notation "hpure" ident(x) ident(Hx) :=
  apply hoare_bind_lift; [unfold nofk; discriminate | intros x Hx].

Lemma get_id_urls_refs (url : json) :
  hoare (fun _ => True) (get_id_urls url)
        (fun v db => exists id, v = JInt id /\ url_present id db) nofk.
Proof.
  unfold get_id_urls.
  apply hoare_bind with
    (R := fun res db => first_is_None res = false ->
                        exists id, row_0 res = OK (JInt id) /\ url_present id db).
  { hexec; [|exact I]. now apply run_insert_urls with (v := url) (seq := urls_seq db) (t := cur db). }
  intros res. destruct (first_is_None res) eqn:Hnone.
  - apply hoare_bind with
      (R := fun res db => first_is_None res = false ->
                          exists id, row_0 res = OK (JInt id) /\ url_present id db).
    { hexec; [|exact I].
      now apply run_select_urls with (v := url) (seq := urls_seq db) (t := cur db). }
    intros res'. destruct (first_is_None res') eqn:Hnone'.
    + destruct res'; [discriminate|]. hpure v Hv. discriminate.
    + apply hoare_bind_lift; [unfold nofk; discriminate|]. intros v Hv.
      apply hoare_ret. intros db Hdb. destruct (Hdb eq_refl) as (id & Hrow & Hid).
      exists id. split; [congruence|exact Hid].
  - apply hoare_bind with
      (R := fun res' db => res' = res /\
                           exists id, row_0 res = OK (JInt id) /\ url_present id db).
    { apply hoare_ret. intros db Hdb. split; [reflexivity|now apply Hdb]. }
    intros res'. apply hoare_bind_lift; [unfold nofk; discriminate|]. intros v Hv.
    apply hoare_ret. intros db (-> & id & Hrow & Hid).
    exists id. split; [congruence|exact Hid].
Qed.

Lemma getitem_get (v : json) (k : string) (d x : json) :
  getitem v k = OK x -> get v k d = OK x.
Proof.
  destruct v; simpl; try discriminate.
  destruct (assoc k l); [trivial|discriminate].
Qed.

(** Lines 108-182: the link of the posting user is resolved before the row
    of the user is written, and the row is there afterwards. *)
Lemma insert_user_refs (tweet : json) :
  hoare (fun _ => True) (insert_user tweet)
        (fun user db => exists k, get user "id" JNull = OK (JInt k) /\ user_present k db)
        nofk.
Proof.
  unfold insert_user.
  hpure url Hurl.
  apply hoare_bind with (R := fun v db => resolves url_present v db).
  { destruct (is_None url).
    - apply hoare_ret. intros db _ k Hk. discriminate.
    - eapply hoare_weaken; [apply get_id_urls_refs | auto |].
      intros v db (id & -> & Hid) k Hk. injection Hk as <-. exact Hid. }
  intros link.
  hpure user Huser.
  hpure id_users Hid.
  apply hoare_bind with
    (R := fun res db => resolves url_present link db /\
                        (first_is_None res = false ->
                         exists k, id_users = JInt k /\ user_present k db)).
  { hexec; [|exact I].
    apply run_check_user_id in Hrun as [Heq Hfound].
    unfold resolves, url_present, user_present in *. rewrite Heq. auto. }
  intros res.
  hpure data Hdata. destruct data as [v d]. apply users_data_inv in Hdata as [Hget Hlink].
  apply (getitem_get _ _ JNull) in Hid.
  assert (v = id_users) by congruence. subst v. cbn [fst snd].
  apply hoare_bind with (R := fun _ db => exists k, id_users = JInt k /\ user_present k db).
  { destruct (first_is_None res) eqn:Hnone.
    - hexec.
      + now apply run_insert_users in Hrun.
      + intros k Hk. rewrite Hlink in Hk. now apply Hpre.
    - hexec.
      + destruct Hpre as [_ Hfound]. destruct (Hfound eq_refl) as (k & -> & Hk).
        exists k. split; [reflexivity|].
        now apply (run_grows _ _ _ Hrun).
      + intros k Hk. rewrite Hlink in Hk. now apply Hpre. }
  intros _. apply hoare_ret. intros db (k & -> & Hk). eauto.
Qed.

(** Lines 242-257: the user a reply is addressed to has a row afterwards. *)
Lemma insert_reply_target_refs (tweet : json) :
  hoare (fun _ => True) (insert_reply_target tweet)
        (fun _ db => forall v, get tweet "in_reply_to_user_id" JNull = OK v ->
                               resolves user_present v db)
        nofk.
Proof.
  unfold insert_reply_target.
  hpure target Htarget.
  destruct (is_None target) eqn:Hnone.
  - apply hoare_ret. intros db _ v Hv k Hk.
    assert (v = target) by congruence. subst. discriminate.
  - apply hoare_bind with
      (R := fun res db => first_is_None res = false ->
                          exists k, target = JInt k /\ user_present k db).
    { hexec; [|exact I].
      apply run_check_user_id in Hrun as [Heq Hfound].
      unfold user_present. now rewrite Heq. }
    intros res. destruct (first_is_None res) eqn:Hres.
    + apply hoare_bind with
        (R := fun _ db => exists k, target = JInt k /\ user_present k db).
      { hexec; [|exact I]. now apply run_id_insert in Hrun. }
      intros _. apply hoare_ret. intros db (k & Ht & Hk) v Hv k' Hk'.
      assert (k' = k) by congruence. now subst k'.
    + apply hoare_ret. intros db Hdb v Hv k' Hk'.
      destruct (Hdb eq_refl) as (k & Ht & Hk).
      assert (k' = k) by congruence. now subst k'.
Qed.

Lemma stable_author_present (user : json) : stable (author_present user).
Proof.
  intros q db Ha v Hv. apply stable_resolves; [apply stable_user_present|].
  now apply Ha.
Qed.

Lemma stable_post_present (tweet : json) : stable (post_present tweet).
Proof.
  intros q db Ha v Hv. apply stable_resolves; [apply stable_tweet_present|].
  now apply Ha.
Qed.

Lemma stable_post_written (tweet : json) : stable (post_written tweet).
Proof.
  intros q db (k & Hget & Hk). exists k. split; [exact Hget|].
  now apply stable_tweet_present.
Qed.

Lemma post_written_present (tweet : json) (db : pg) :
  post_written tweet db -> post_present tweet db.
Proof.
  intros (k & Hget & Hk) v Hv k' Hk'. assert (k' = k) by congruence. now subst k'.
Qed.

(** A stable assertion after a statement that ran. *)
Lemma stable_run (I : pg -> Prop) (q : stmt) (db db' : pg) (res : option row) :
  stable I -> pg_execute q db = (db', OK res) -> I db -> I db'.
Proof. intros HI Hex Hdb. specialize (HI q db Hdb). now rewrite Hex in HI. Qed.

Lemma hoare_execute_stable (I P : pg -> Prop) (q : stmt) Q E :
  stable I ->
  hoare P (execute q) Q E ->
  hoare (fun db => I db /\ P db) (execute q) (fun res db => I db /\ Q res db) E.
Proof. intros HI. apply hoare_frame. intros db Hdb. now apply HI. Qed.

(** Lines 188-300: both users the row of [tweets] refers to are there
    before it is written. *)
Lemma insert_tweets_row_refs (tweet user : json) :
  hoare (author_present user) (insert_tweets_row tweet user)
        (fun _ db => post_written tweet db) nofk.
Proof.
  unfold insert_tweets_row.
  hpure geo Hgeo. hpure text Htext. hpure country_code Hcc. hpure state_code Hsc.
  hpure place_name Hpn.
  apply hoare_bind with
    (R := fun _ db => author_present user db /\
                      forall v, get tweet "in_reply_to_user_id" JNull = OK v ->
                                resolves user_present v db).
  { eapply hoare_weaken.
    - apply hoare_frame with (I := author_present user);
        [apply insert_reply_target_stable, stable_author_present
        |apply insert_reply_target_refs].
    - cbv beta; intuition.
    - cbv beta; intuition. }
  intros _. hpure data Hdata. destruct data as [v d].
  apply tweets_data_inv in Hdata as (Hid & Hauthor & Htarget). cbn [fst snd].
  apply hoare_bind with (R := fun _ db => post_written tweet db).
  { hexec.
    - apply run_in_tweets in Hrun as (k & -> & Hk). now exists k.
    - destruct Hpre as [Hu Ht]. split; intros k Hk.
      + now apply (Hu _ Hauthor).
      + now apply (Ht _ Htarget). }
  intros _. now apply hoare_ret.
Qed.

(** A statement whose references are in the store keeps a stable
    assertion and is not refused for a foreign key. *)
Lemma hoare_execute_refs (I P : pg -> Prop) (q : stmt) :
  stable I ->
  (forall db, P db -> references_resolved q (cur db)) ->
  hoare (fun db => I db /\ P db) (execute q) (fun _ db => I db) nofk.
Proof.
  intros HI Href. apply hoare_execute. intros db [Hdb Hp].
  destruct (pg_execute q db) as [db' [res|e]] eqn:Hex.
  - eapply stable_run; eauto.
  - apply pg_execute_err in Hex as (-> & d & -> & Hrun).
    intros Hfk. injection Hfk as ->. revert Hrun. now apply run_references_resolved, Href.
Qed.

(** Lines 306-325: each link is resolved to a row of [urls] before its
    association is written. *)
Lemma insert_tweet_urls_refs (tweet : json) :
  hoare (post_present tweet) (insert_tweet_urls tweet)
        (fun _ db => post_present tweet db) nofk.
Proof.
  unfold insert_tweet_urls.
  hpure urls Hurls. hpure id_tweet Hid. hpure l Hl.
  apply hoare_for_each. intros url.
  hpure expanded_url Hexp.
  apply hoare_bind with
    (R := fun v db => post_present tweet db /\ exists id, v = JInt id /\ url_present id db).
  { eapply hoare_weaken.
    - apply hoare_frame with (I := post_present tweet);
        [apply get_id_urls_stable, stable_post_present|apply get_id_urls_refs].
    - cbv beta; intuition.
    - cbv beta; intuition. }
  intros id_urls.
  apply hoare_bind with (R := fun _ db => post_present tweet db).
  { eapply hoare_weaken.
    - apply hoare_execute_refs with
        (I := post_present tweet)
        (P := fun db => post_present tweet db /\
                        exists id, id_urls = JInt id /\ url_present id db);
        [apply stable_post_present|].
      intros db (Hpost & id & -> & Hurl). split; intros k Hk.
      + now apply (Hpost _ Hid).
      + now injection Hk as <-.
    - cbv beta; intuition.
    - cbv beta; intuition. }
  intros _. now apply hoare_ret.
Qed.

(** Lines 330-371: the stub of each mentioned user is written before the
    association that refers to it. *)
Lemma insert_tweet_mentions_refs (tweet : json) :
  hoare (post_present tweet) (insert_tweet_mentions tweet)
        (fun _ db => post_present tweet db) nofk.
Proof.
  unfold insert_tweet_mentions.
  hpure mentions Hmentions. hpure l Hl.
  apply hoare_for_each. intros mention.
  hpure id_users Hid. hpure screen_name Hsn. hpure name Hname.
  apply hoare_bind with
    (R := fun _ db => post_present tweet db /\
                      exists k, id_users = JInt k /\ user_present k db).
  { eapply hoare_weaken.
    - apply hoare_execute_stable with (I := post_present tweet) (P := fun _ => True);
        [apply stable_post_present|].
      hexec; [|exact I].
      apply run_id_users_insert in Hrun. exact Hrun.
    - cbv beta; intuition.
    - cbv beta; intuition. }
  intros _. hpure id_tweets Hidt. hpure id_users' Hid'.
  assert (id_users' = id_users) by congruence. subst id_users'.
  apply hoare_bind with (R := fun _ db => post_present tweet db).
  { eapply hoare_weaken.
    - apply hoare_execute_refs with
        (I := post_present tweet)
        (P := fun db => post_present tweet db /\
                        exists k, id_users = JInt k /\ user_present k db);
        [apply stable_post_present|].
      intros db (Hpost & id & -> & Huser). split; intros k Hk.
      + now apply (Hpost _ Hidt).
      + now injection Hk as <-.
    - cbv beta; intuition.
    - cbv beta; intuition. }
  intros _. now apply hoare_ret.
Qed.

(** Lines 376-397. *)
Lemma insert_tweet_tags_refs (tweet : json) :
  hoare (post_present tweet) (insert_tweet_tags tweet)
        (fun _ db => post_present tweet db) nofk.
Proof.
  unfold insert_tweet_tags.
  hpure containers Hc. hpure tags Htags.
  apply hoare_for_each. intros tag.
  hpure id_tweets Hidt. hpure tag' Htag.
  apply hoare_bind with (R := fun _ db => post_present tweet db).
  { eapply hoare_weaken.
    - apply hoare_execute_refs with
        (I := post_present tweet) (P := fun db => post_present tweet db);
        [apply stable_post_present|].
      intros db Hpost k Hk. now apply (Hpost _ Hidt).
    - cbv beta; intuition.
    - cbv beta; intuition. }
  intros _. now apply hoare_ret.
Qed.

(** Lines 403-426: each media link is resolved to a row of [urls] before
    its association is written. *)
Lemma insert_tweet_media_refs (tweet : json) :
  hoare (post_present tweet) (insert_tweet_media tweet)
        (fun _ db => post_present tweet db) nofk.
Proof.
  unfold insert_tweet_media.
  hpure media Hmedia. hpure l Hl.
  apply hoare_for_each. intros medium.
  hpure media_url Hurl.
  apply hoare_bind with
    (R := fun v db => post_present tweet db /\ exists id, v = JInt id /\ url_present id db).
  { eapply hoare_weaken.
    - apply hoare_frame with (I := post_present tweet);
        [apply get_id_urls_stable, stable_post_present|apply get_id_urls_refs].
    - cbv beta; intuition.
    - cbv beta; intuition. }
  intros id_urls. hpure id_tweets Hidt. hpure type Htype.
  apply hoare_bind with (R := fun _ db => post_present tweet db).
  { eapply hoare_weaken.
    - apply hoare_execute_refs with
        (I := post_present tweet)
        (P := fun db => post_present tweet db /\
                        exists id, id_urls = JInt id /\ url_present id db);
        [apply stable_post_present|].
      intros db (Hpost & id & -> & Hu). split; intros k Hk.
      + now apply (Hpost _ Hidt).
      + now injection Hk as <-.
    - cbv beta; intuition.
    - cbv beta; intuition. }
  intros _. now apply hoare_ret.
Qed.

(** Lines 105-426: a load that ends has written the row of the tweet, and
    a load that fails does not fail on a reference. *)
Lemma load_tweet_refs (tweet : json) :
  hoare (fun _ => True) (load_tweet tweet) (fun _ db => post_written tweet db) nofk.
Proof.
  unfold load_tweet.
  apply hoare_bind with (R := fun user db => author_present user db).
  { eapply hoare_weaken; [apply insert_user_refs|auto|].
    intros user db (k & Hget & Hk) v Hv k' Hk'.
    assert (k' = k) by congruence. now subst k'. }
  intros user.
  apply hoare_bind with (R := fun _ db => post_written tweet db);
    [apply insert_tweets_row_refs|intros _].
  apply hoare_bind with (R := fun _ db => post_written tweet db).
  { eapply hoare_weaken.
    - apply hoare_frame with (I := post_written tweet);
        [apply insert_tweet_urls_stable, stable_post_written|apply insert_tweet_urls_refs].
    - cbv beta. auto using post_written_present.
    - cbv beta; intuition. }
  intros _.
  apply hoare_bind with (R := fun _ db => post_written tweet db).
  { eapply hoare_weaken.
    - apply hoare_frame with (I := post_written tweet);
        [apply insert_tweet_mentions_stable, stable_post_written
        |apply insert_tweet_mentions_refs].
    - cbv beta. auto using post_written_present.
    - cbv beta; intuition. }
  intros _.
  apply hoare_bind with (R := fun _ db => post_written tweet db).
  { eapply hoare_weaken.
    - apply hoare_frame with (I := post_written tweet);
        [apply insert_tweet_tags_stable, stable_post_written|apply insert_tweet_tags_refs].
    - cbv beta. auto using post_written_present.
    - cbv beta; intuition. }
  intros _.
  eapply hoare_weaken.
  - apply hoare_frame with (I := post_written tweet);
      [apply insert_tweet_media_stable, stable_post_written|apply insert_tweet_media_refs].
  - cbv beta. auto using post_written_present.
  - cbv beta; intuition.
Qed.

Lemma insert_tweet_body_refs (tweet : json) :
  hoare (fun _ : pg => True) (insert_tweet_body tweet) (fun _ _ => True) nofk.
Proof.
  unfold insert_tweet_body.
  hpure id_tweets Hid.
  apply hoare_bind with (R := fun _ _ => True).
  { hexec; exact I. }
  intros res. destruct (first_is_None res).
  - eapply hoare_weaken; [apply load_tweet_refs|auto|auto].
  - now apply hoare_ret.
Qed.

(** Loading a record never fails on a foreign key, whatever the record
    and the store. *)
Lemma insert_tweet_no_foreign_key_violation (tweet : json) (db : pg) :
  snd (insert_tweet tweet db) <> Err (Db ForeignKeyViolation).
Proof.
  unfold insert_tweet, with_begin.
  pose proof (insert_tweet_body_refs tweet (c := begin db) I) as Hbody.
  destruct (insert_tweet_body tweet (begin db)) as [c [[]|e]]; simpl.
  - discriminate.
  - intros Heq. apply Hbody. congruence.
Qed.

(** The store does check references: the association of a mention whose
    user has no row is refused. *)
Example mention_without_user_refused :
  let db := fst (insert_tweet tweet_hydrating empty_pg) in
  snd (execute (sql_into_tweet_mentions (JInt 20) (JInt 7)) db)
  = Err (Db ForeignKeyViolation).
Proof. reflexivity. Qed.

(** In the order of the program the stub comes first and the association
    is accepted. *)
Example mention_after_stub_accepted :
  let db := fst (insert_tweet tweet_hydrating empty_pg) in
  let db' := fst (execute (sql_id_users_insert (JInt 7) JNull JNull) db) in
  execute (sql_into_tweet_mentions (JInt 20) (JInt 7)) db'
  = ({| cur := set_tweet_mentions [(20, 7)] (cur db'); saved := None; urls_seq := 1 |},
     OK None).
Proof. reflexivity. Qed.

(** The statements of a load, as the connection receives them (the latest
    first): each row that is referred to is written before the row that
    refers to it. *)
Example statements_in_order :
  map (fun q => match q with
                | sql_insert_urls _ => "urls"
                | sql_select_urls _ => "select urls"
                | sql_select_tweets _ => "select tweets"
                | sql_check_user_id _ => "select users"
                | sql_insert _ _ => "users"
                | sql_update _ _ => "update users"
                | sql_id_insert _ => "users (reply target)"
                | sql_in_tweets _ _ => "tweets"
                | sql_in_tweet_urls _ _ => "tweet_urls"
                | sql_id_users_insert _ _ _ => "users (mention)"
                | sql_into_tweet_mentions _ _ => "tweet_mentions"
                | sql_into_tags _ _ => "tweet_tags"
                | sql_into_media _ _ _ => "tweet_media"
                end)
      (rev (fst (insert_tweet_body
                   (JObj [("id", JInt 22);
                          ("user", JObj [("id", JInt 3); ("url", JNull)]);
                          ("geo", JObj [("coordinates", JArr [JInt 51; JInt 0])]);
                          ("place", JNull); ("text", JStr "t");
                          ("in_reply_to_user_id", JInt 2);
                          ("entities", JObj [("urls", JArr []);
                                             ("user_mentions", JArr [JObj [("id", JInt 2)]]);
                                             ("hashtags", JArr [JObj [("text", JStr "x")]]);
                                             ("symbols", JArr [])])])
                   ([] : list stmt))))
  = ["select tweets"; "select users"; "users"; "select users"; "users (reply target)";
     "tweets"; "users (mention)"; "tweet_mentions"; "tweet_tags"].
Proof. reflexivity. Qed.

(** *** No dangling reference at commit *)

Lemma key_in_cons {V} (v : json) (k : Z) (x : V) (l : list (Z * V)) :
  key_in v l -> key_in v ((k, x) :: l).
Proof. intros Hin k' Hk'. apply has_key_cons. now apply Hin. Qed.

Lemma key_in_update {V} (v : json) (k : Z) (x : V) (l : list (Z * V)) :
  key_in v l -> key_in v (update_key k x l).
Proof. intros Hin k' Hk'. rewrite has_key_update. now apply Hin. Qed.

Lemma key_in_null {V} (l : list (Z * V)) : key_in JNull l.
Proof. intros k Hk. discriminate. Qed.

Lemma key_in_int {V} (z : Z) (l : list (Z * V)) :
  has_key z l = true -> key_in (JInt z) l.
Proof. intros Hz k Hk. now injection Hk as <-. Qed.

Lemma Forall_update_key {V} (P : Z * V -> Prop) (k : Z) (x : V) (l : list (Z * V)) :
  P (k, x) -> Forall P l -> Forall P (update_key k x l).
Proof.
  intros Hx Hl. unfold update_key. apply Forall_map.
  eapply Forall_impl; [|exact Hl]. intros r Hr. now destruct (Z.eqb (fst r) k).
Qed.

(** Closes one conjunct of [fk_closed] after a statement: the table is
    unchanged, or has one more row whose references were checked, or is
    [users] after an update; the tables referred to have grown. *)
Ltac closed_table :=
  match goal with
  | |- Forall _ (_ :: _) => apply Forall_cons; [cbn [fst snd]|]
  | |- Forall _ (update_key _ _ _) => apply Forall_update_key; [cbn [fst snd]|]
  | H : Forall _ ?l |- Forall _ ?l =>
      eapply Forall_impl; [|exact H]; cbv beta; intros ? ?
  | |- _ /\ _ => split
  | H : _ /\ _ |- _ => destruct H
  | E : ?v = JNull |- key_in ?v _ => rewrite E; apply key_in_null
  | E : ?v = JInt _ |- key_in ?v _ => rewrite E; apply key_in_int
  | |- key_in _ (_ :: _) => apply key_in_cons
  | |- key_in _ (update_key _ _ _) => apply key_in_update
  | |- has_key _ (update_key _ _ _) = true => rewrite has_key_update
  | |- has_key ?k ((?k, _) :: _) = true => apply has_key_head
  | |- has_key _ (_ :: _) = true => apply has_key_cons
  | |- _ => assumption
  end.

Lemma run_fk_closed (q : stmt) (seq : Z) (t t' : tables) (res : option row) :
  run q seq t = OK (t', res) -> fk_closed t -> fk_closed t'.
Proof.
  intros Hrun (Husers & Htweets & Hurls & Hmentions & Htags & Hmedia).
  destruct q; run_inv Hrun; unfold fk_closed;
    cbn [urls users tweets tweet_urls tweet_mentions tweet_tags tweet_media
         set_urls set_users set_tweets set_tweet_urls set_tweet_mentions
         set_tweet_tags set_tweet_media];
    repeat split; repeat closed_table.
  all: apply key_in_null.
Qed.

Lemma stable_fk_closed : stable (fun db => fk_closed (cur db)).
Proof.
  intros q db Hclosed. unfold pg_execute.
  destruct (run q (urls_seq db) (cur db)) as [[t res]|e] eqn:Hrun; cbn [fst cur];
    [|exact Hclosed].
  eapply run_fk_closed; eauto.
Qed.

(** X11. Referential completeness: a load, however it ends, leaves a store
    in which every reference of every row resolves (the link of a user,
    the author and the reply target of a tweet, both ends of every
    association). *)
Lemma insert_tweet_fk_closed (tweet : json) (db : pg) :
  fk_closed (cur db) -> fk_closed (cur (fst (insert_tweet tweet db))).
Proof.
  intros Hclosed. unfold insert_tweet, with_begin.
  pose proof (insert_tweet_body_stable stable_fk_closed tweet (begin db) Hclosed) as Hbody.
  pose proof (insert_tweet_body_saved tweet (begin db)) as Hsaved.
  destruct (insert_tweet_body tweet (begin db)) as [c [[]|e]]; cbn [fst] in *.
  - exact Hbody.
  - cbn [rollback pg_connection pg_rollback cur]. rewrite Hsaved. exact Hclosed.
Qed.

Example fk_closed_empty : fk_closed empty_tables.
Proof. repeat split; constructor. Qed.

(** ** The order of the writes *)

Lemma traced_execute_base (q : stmt) (c : traced) :
  base (fst (execute q c)) = fst (pg_execute q (base c)).
Proof.
  cbn [execute traced_connection]. unfold traced_execute.
  now destruct (pg_execute q (base c)).
Qed.

Lemma traced_execute_snd (q : stmt) (c : traced) :
  snd (execute q c) = snd (pg_execute q (base c)).
Proof.
  cbn [execute traced_connection]. unfold traced_execute.
  now destruct (pg_execute q (base c)).
Qed.

(** *** The recorded run is the run *)

Section Agrees.

Lemma agrees_ret {A} (a : A) : agrees (ret a) (ret a).
Proof. intros c. split; reflexivity. Qed.

Lemma agrees_lift {A} (r : result pyexn A) : agrees (lift r) (lift r).
Proof. intros c. split; reflexivity. Qed.

Lemma agrees_execute (q : stmt) : agrees (execute q) (execute q).
Proof. intros c. split; [apply traced_execute_base|apply traced_execute_snd]. Qed.

Lemma agrees_bind {A B} (m : M traced A) (m' : M pg A)
    (f : A -> M traced B) (f' : A -> M pg B) :
  agrees m m' -> (forall a, agrees (f a) (f' a)) -> agrees (bind m f) (bind m' f').
Proof.
  intros Hm Hf c. unfold bind. destruct (Hm c) as [Hbase Hres].
  destruct (m c) as [c1 r]. destruct (m' (base c)) as [db1 r'].
  cbn [fst snd] in Hbase, Hres. subst db1 r'.
  destruct r as [a|e]; [apply Hf|split; reflexivity].
Qed.

Lemma agrees_for_each {X} (l : list X) (body : X -> M traced unit)
    (body' : X -> M pg unit) :
  (forall x, agrees (body x) (body' x)) -> agrees (for_each l body) (for_each l body').
Proof.
  intros Hb. induction l as [|x l IH]; cbn [for_each].
  - apply agrees_ret.
  - apply agrees_bind; [apply Hb|intros _; exact IH].
Qed.

Lemma agrees_with_begin {A} (m : M traced A) (m' : M pg A) :
  agrees m m' -> agrees (with_begin m) (with_begin m').
Proof.
  intros Hm c. unfold with_begin. cbn [begin traced_connection pg_connection].
  destruct (Hm {| base := pg_begin (base c); log := log c |}) as [Hbase Hres].
  cbn [base] in *.
  destruct (m _) as [c1 r]. destruct (m' (pg_begin (base c))) as [db1 r'].
  cbn [fst snd] in Hbase, Hres. subst db1 r'.
  destruct r as [a|e]; split; reflexivity.
Qed.

End Agrees.

(** Walks the same program on the two connections. *)
Ltac agree :=
  repeat first
    [ apply agrees_ret
    | apply agrees_lift
    | apply agrees_execute
    | apply agrees_for_each; intros ?
    | apply agrees_bind; [ | intros ? ]
    | match goal with
      | |- agrees (if ?b then _ else _) _ => destruct b
      | |- agrees (match ?x with _ => _ end) _ => destruct x
      end ].

Lemma insert_tweet_agrees (tweet : json) : agrees (insert_tweet tweet) (insert_tweet tweet).
Proof.
  unfold insert_tweet. apply agrees_with_begin.
  unfold insert_tweet_body, load_tweet, insert_user, insert_tweets_row, insert_reply_target,
    insert_tweet_urls, insert_tweet_mentions, insert_tweet_tags, insert_tweet_media,
    get_id_urls.
  agree.
Qed.

(** *** Rules for the recorded store *)

Section Ordered.

Lemma ordered_ret {A} (P : pg -> Prop) (a : A) (Q : A -> pg -> Prop) :
  (forall db, P db -> Q a db) -> ordered P (ret a) Q.
Proof. intros HQ c [Hc HP]. cbn. auto. Qed.

Lemma ordered_bind_lift {A B} (P : pg -> Prop) (r : result pyexn A)
    (f : A -> M traced B) (Q : B -> pg -> Prop) :
  (forall a, r = OK a -> ordered P (f a) Q) -> ordered P (bind (lift r) f) Q.
Proof.
  intros Hf. apply hoare_bind_lift; [|exact Hf]. intros e c _ [Hc _]. exact Hc.
Qed.

Lemma ordered_bind {A B} (P : pg -> Prop) (m : M traced A) (R : A -> pg -> Prop)
    (f : A -> M traced B) (Q : B -> pg -> Prop) :
  ordered P m R -> (forall a, ordered (R a) (f a) Q) -> ordered P (bind m f) Q.
Proof. intros Hm Hf. eapply hoare_bind; [exact Hm|exact Hf]. Qed.

Lemma ordered_weaken {A} (P P' : pg -> Prop) (m : M traced A) (Q Q' : A -> pg -> Prop) :
  ordered P m Q ->
  (forall db, P' db -> P db) -> (forall a db, Q a db -> Q' a db) ->
  ordered P' m Q'.
Proof.
  intros Hm HP HQ. eapply hoare_weaken; [exact Hm| |].
  - intros c [Hc Hp]. auto.
  - intros a c [Hc Hq]. auto.
Qed.

Lemma ordered_for_each {X} (P : pg -> Prop) (l : list X) (body : X -> M traced unit) :
  (forall x, ordered P (body x) (fun _ => P)) ->
  ordered P (for_each l body) (fun _ => P).
Proof. intros Hb. apply hoare_for_each. exact Hb. Qed.

(** A statement: it is recorded with the rows it was issued on, which must
    hold what it refers to. *)
Lemma ordered_execute (P : pg -> Prop) (q : stmt) (Q : option row -> pg -> Prop) :
  (forall db, P db -> refs_written q (cur db)) ->
  (forall db db' res, P db -> pg_execute q db = (db', OK res) -> Q res db') ->
  ordered P (execute q) Q.
Proof.
  intros Href Hq c [Hc HP]. cbn [execute traced_connection]. unfold traced_execute.
  destruct (pg_execute q (base c)) as [db' [res|e]] eqn:Hex; cbn [base log].
  - split; [|eapply Hq; eauto]. constructor; [now apply Href|exact Hc].
  - constructor; [now apply Href|exact Hc].
Qed.

Lemma ordered_frame {A} (J P : pg -> Prop) (m : M traced A) (Q : A -> pg -> Prop) :
  preserves (fun c => J (base c)) m ->
  ordered P m Q ->
  ordered (fun db => J db /\ P db) m (fun a db => J db /\ Q a db).
Proof.
  intros HJ Hm c (Hc & Hj & Hp). specialize (Hm c (conj Hc Hp)). specialize (HJ c Hj).
  destruct (m c) as [c' [a|e]]; cbn [fst] in *; intuition.
Qed.

(** A statement next to a stable assertion. *)
Lemma ordered_execute_keep (J P : pg -> Prop) (q : stmt) (Q : option row -> pg -> Prop) :
  stable J ->
  (forall db, J db -> P db -> refs_written q (cur db)) ->
  (forall db db' res, P db -> pg_execute q db = (db', OK res) -> Q res db') ->
  ordered (fun db => J db /\ P db) (execute q) (fun res db => J db /\ Q res db).
Proof.
  intros HJ Href Hq. apply ordered_execute.
  - intros db [Hj Hp]. now apply Href.
  - intros db db' res [Hj Hp] Hex. split; [eapply stable_run; eauto|eapply Hq; eauto].
Qed.

End Ordered.

Lemma traced_step (J : pg -> Prop) (q : stmt) :
  stable J -> True -> preserves (fun c : traced => J (base c)) (execute q).
Proof. intros HJ _ c Hc. rewrite traced_execute_base. now apply HJ. Qed.

Section TracedWalk.
Variable J : pg -> Prop.
Hypothesis HJ : stable J.

Lemma get_id_urls_traced url :
  preserves (fun c : traced => J (base c)) (get_id_urls url).
Proof. apply get_id_urls_preserves with (allowed := fun _ => True); auto using traced_step. Qed.

Lemma insert_reply_target_traced tweet :
  preserves (fun c : traced => J (base c)) (insert_reply_target tweet).
Proof.
  apply insert_reply_target_preserves with (allowed := fun _ => True);
    auto using traced_step.
Qed.

End TracedWalk.

Lemma stable_author_named (user : json) : stable (author_named user).
Proof.
  intros q db (k & Hget & Hk). exists k. split; [exact Hget|].
  now apply stable_user_present.
Qed.

Lemma is_None_null (v : json) : is_None v = true -> v = JNull.
Proof. destruct v; try discriminate. reflexivity. Qed.

(** Opens a statement of a triple on the recorded store. *)
Ltac ran Hex Hrun := apply pg_execute_ok in Hex as (Hrun & _ & _).

(** *** The parts of a load *)

(** Lines 41-73: what the resolver returns is the identity of a row of
    [urls]. *)
Lemma get_id_urls_ordered (url : json) :
  ordered (fun _ => True) (get_id_urls url) (fun v db => names v (urls (cur db))).
Proof.
  unfold get_id_urls.
  apply ordered_bind with
    (R := fun res db => first_is_None res = false ->
                        exists id, row_0 res = OK (JInt id) /\ url_present id db).
  { apply ordered_execute; [intros; exact I|].
    intros db db' res _ Hex Hn. ran Hex Hrun. eapply run_insert_urls; eauto. }
  intros res. destruct (first_is_None res) eqn:Hnone.
  - apply ordered_bind with
      (R := fun res db => first_is_None res = false ->
                          exists id, row_0 res = OK (JInt id) /\ url_present id db).
    { apply ordered_execute; [intros; exact I|].
      intros db db' res' _ Hex Hn. ran Hex Hrun. eapply run_select_urls; eauto. }
    intros res'. destruct (first_is_None res') eqn:Hnone'.
    + destruct res'; [discriminate|]. apply ordered_bind_lift. intros v Hv. discriminate.
    + apply ordered_bind_lift. intros v Hv. apply ordered_ret. intros db Hdb.
      destruct (Hdb eq_refl) as (id & Hrow & Hid).
      exists id. split; [congruence|exact Hid].
  - apply ordered_bind with
      (R := fun res' db => res' = res /\
                           exists id, row_0 res = OK (JInt id) /\ url_present id db).
    { apply ordered_ret. intros db Hdb. split; [reflexivity|now apply Hdb]. }
    intros res'. apply ordered_bind_lift. intros v Hv.
    apply ordered_ret. intros db (-> & id & Hrow & Hid).
    exists id. split; [congruence|exact Hid].
Qed.

(** Lines 108-182: the link of the posting user is resolved before the row
    of the user is written. *)
Lemma insert_user_ordered (tweet : json) :
  ordered (fun _ => True) (insert_user tweet) (fun user db => author_named user db).
Proof.
  unfold insert_user.
  apply ordered_bind_lift. intros url Hurl.
  apply ordered_bind with (R := fun v db => v = JNull \/ names v (urls (cur db))).
  { destruct (is_None url).
    - apply ordered_ret. auto.
    - eapply ordered_weaken; [apply get_id_urls_ordered|auto|]. cbv beta. auto. }
  intros link.
  apply ordered_bind_lift. intros user Huser.
  apply ordered_bind_lift. intros id_users Hid.
  apply ordered_bind with
    (R := fun res db => (link = JNull \/ names link (urls (cur db))) /\
                        (first_is_None res = false ->
                         exists k, id_users = JInt k /\ user_present k db)).
  { apply ordered_execute; [intros; exact I|].
    intros db db' res Hlink Hex. ran Hex Hrun.
    apply run_check_user_id in Hrun as [Heq Hfound].
    unfold user_present. rewrite Heq. auto. }
  intros res.
  apply ordered_bind_lift. intros data Hdata. destruct data as [v d].
  apply users_data_inv in Hdata as [Hget Hlink].
  apply (getitem_get _ _ JNull) in Hid.
  assert (v = id_users) by congruence. subst v. cbn [fst snd].
  apply ordered_bind with (R := fun _ db => exists k, id_users = JInt k /\ user_present k db).
  { destruct (first_is_None res) eqn:Hnone.
    - apply ordered_execute.
      + intros db [Hl _]. cbn [refs_written]. now rewrite Hlink.
      + intros db db' r _ Hex. ran Hex Hrun. now apply run_insert_users in Hrun.
    - apply ordered_execute.
      + intros db [Hl _]. cbn [refs_written]. now rewrite Hlink.
      + intros db db' r [_ Hfound] Hex. ran Hex Hrun.
        destruct (Hfound eq_refl) as (k & -> & Hk).
        exists k. split; [reflexivity|]. now apply (run_grows _ _ _ Hrun). }
  intros ?. apply ordered_ret. intros db (k & -> & Hk). exists k. auto.
Qed.

(** Lines 242-257: the user a reply is addressed to has a row when
    [insert_reply_target] returns. *)
Lemma insert_reply_target_ordered (tweet : json) :
  ordered (fun _ => True) (insert_reply_target tweet)
          (fun _ db => forall v, get tweet "in_reply_to_user_id" JNull = OK v ->
                                 v = JNull \/ names v (users (cur db))).
Proof.
  unfold insert_reply_target.
  apply ordered_bind_lift. intros target Htarget.
  destruct (is_None target) eqn:Hnone.
  - apply ordered_ret. intros db _ v Hv. left.
    apply is_None_null in Hnone. congruence.
  - apply ordered_bind with
      (R := fun res db => first_is_None res = false -> names target (users (cur db))).
    { apply ordered_execute; [intros; exact I|].
      intros db db' res _ Hex Hn. ran Hex Hrun.
      apply run_check_user_id in Hrun as [Heq Hfound]. rewrite Heq. now apply Hfound. }
    intros res. destruct (first_is_None res) eqn:Hres.
    + apply ordered_bind with (R := fun _ db => names target (users (cur db))).
      { apply ordered_execute; [intros; exact I|].
        intros db db' r _ Hex. ran Hex Hrun. now apply run_id_insert in Hrun. }
      intros ?. apply ordered_ret. intros db Hn v Hv. right.
      assert (v = target) by congruence. now subst v.
    + apply ordered_ret. intros db Hdb v Hv. right.
      assert (v = target) by congruence. subst v. now apply Hdb.
Qed.

(** Lines 188-300: both users the row of [tweets] refers to are written
    before it. *)
Lemma insert_tweets_row_ordered (tweet user : json) :
  ordered (author_named user) (insert_tweets_row tweet user)
          (fun _ db => post_written tweet db).
Proof.
  unfold insert_tweets_row.
  apply ordered_bind_lift. intros geo Hgeo.
  apply ordered_bind_lift. intros text Htext.
  apply ordered_bind_lift. intros country_code Hcc.
  apply ordered_bind_lift. intros state_code Hsc.
  apply ordered_bind_lift. intros place_name Hpn.
  apply ordered_bind with
    (R := fun _ db => author_named user db /\
                      forall v, get tweet "in_reply_to_user_id" JNull = OK v ->
                                v = JNull \/ names v (users (cur db))).
  { eapply ordered_weaken.
    - apply ordered_frame with (J := author_named user);
        [apply insert_reply_target_traced, stable_author_named
        |apply insert_reply_target_ordered].
    - cbv beta; intuition.
    - cbv beta; intuition. }
  intros ?. apply ordered_bind_lift. intros data Hdata. destruct data as [v d].
  apply tweets_data_inv in Hdata as (Hid & Hauthor & Htarget). cbn [fst snd].
  apply ordered_bind with (R := fun _ db => post_written tweet db).
  { apply ordered_execute.
    - intros db [(k & Hk & Hpresent) Ht]. cbn [refs_written]. split.
      + exists k. split; [congruence|exact Hpresent].
      + now apply Ht.
    - intros db db' r _ Hex. ran Hex Hrun.
      apply run_in_tweets in Hrun as (k & -> & Hk). now exists k. }
  intros ?. now apply ordered_ret.
Qed.

Lemma post_written_names (tweet id_tweets : json) (db : pg) :
  post_written tweet db -> get tweet "id" JNull = OK id_tweets ->
  names id_tweets (tweets (cur db)).
Proof. intros (k & Hget & Hk) Hid. exists k. split; [congruence|exact Hk]. Qed.

(** Lines 306-325: each link is resolved to a row of [urls] before its
    association is written. *)
Lemma insert_tweet_urls_ordered (tweet : json) :
  ordered (post_written tweet) (insert_tweet_urls tweet) (fun _ => post_written tweet).
Proof.
  unfold insert_tweet_urls.
  apply ordered_bind_lift. intros entity_urls Hurls.
  apply ordered_bind_lift. intros id_tweet Hid.
  apply ordered_bind_lift. intros l Hl.
  apply ordered_for_each. intros url.
  apply ordered_bind_lift. intros expanded_url Hexp.
  apply ordered_bind with
    (R := fun v db => post_written tweet db /\ names v (urls (cur db))).
  { eapply ordered_weaken.
    - apply ordered_frame with (J := post_written tweet);
        [apply get_id_urls_traced, stable_post_written|apply get_id_urls_ordered].
    - cbv beta; intuition.
    - cbv beta; intuition. }
  intros id_urls.
  apply ordered_bind with (R := fun _ db => post_written tweet db).
  { eapply ordered_weaken.
    - apply ordered_execute_keep with
        (J := post_written tweet) (P := fun db => names id_urls (urls (cur db)))
        (Q := fun _ _ => True);
        [apply stable_post_written| |auto].
      intros db Hpost Hurl. split; [|exact Hurl]. now apply post_written_names with tweet.
    - cbv beta; intuition.
    - cbv beta; intuition. }
  intros ?. now apply ordered_ret.
Qed.

(** Lines 330-371: the stub of each mentioned user is written before the
    association that refers to it. *)
Lemma insert_tweet_mentions_ordered (tweet : json) :
  ordered (post_written tweet) (insert_tweet_mentions tweet) (fun _ => post_written tweet).
Proof.
  unfold insert_tweet_mentions.
  apply ordered_bind_lift. intros mentions Hmentions.
  apply ordered_bind_lift. intros l Hl.
  apply ordered_for_each. intros mention.
  apply ordered_bind_lift. intros id_users Hid.
  apply ordered_bind_lift. intros screen_name Hsn.
  apply ordered_bind_lift. intros name Hname.
  apply ordered_bind with
    (R := fun _ db => post_written tweet db /\ names id_users (users (cur db))).
  { eapply ordered_weaken.
    - apply ordered_execute_keep with
        (J := post_written tweet) (P := fun _ => True)
        (Q := fun _ db => names id_users (users (cur db)));
        [apply stable_post_written|intros; exact I|].
      intros db db' r _ Hex. ran Hex Hrun. now apply run_id_users_insert in Hrun.
    - cbv beta; intuition.
    - cbv beta; intuition. }
  intros ?.
  apply ordered_bind_lift. intros id_tweets Hidt.
  apply ordered_bind_lift. intros id_users' Hid'.
  assert (id_users' = id_users) by congruence. subst id_users'.
  apply ordered_bind with (R := fun _ db => post_written tweet db).
  { eapply ordered_weaken.
    - apply ordered_execute_keep with
        (J := post_written tweet) (P := fun db => names id_users (users (cur db)))
        (Q := fun _ _ => True);
        [apply stable_post_written| |auto].
      intros db Hpost Huser. split; [|exact Huser]. now apply post_written_names with tweet.
    - cbv beta; intuition.
    - cbv beta; intuition. }
  intros ?. now apply ordered_ret.
Qed.

(** Lines 376-397. *)
Lemma insert_tweet_tags_ordered (tweet : json) :
  ordered (post_written tweet) (insert_tweet_tags tweet) (fun _ => post_written tweet).
Proof.
  unfold insert_tweet_tags.
  apply ordered_bind_lift. intros containers Hc.
  apply ordered_bind_lift. intros tags Htags.
  apply ordered_for_each. intros tag.
  apply ordered_bind_lift. intros id_tweets Hidt.
  apply ordered_bind_lift. intros tag' Htag.
  apply ordered_bind with (R := fun _ db => post_written tweet db).
  { eapply ordered_weaken.
    - apply ordered_execute_keep with
        (J := post_written tweet) (P := fun _ => True) (Q := fun _ _ => True);
        [apply stable_post_written| |auto].
      intros db Hpost _. now apply post_written_names with tweet.
    - cbv beta; intuition.
    - cbv beta; intuition. }
  intros ?. now apply ordered_ret.
Qed.

(** Lines 403-426: each media link is resolved to a row of [urls] before
    its association is written. *)
Lemma insert_tweet_media_ordered (tweet : json) :
  ordered (post_written tweet) (insert_tweet_media tweet) (fun _ => post_written tweet).
Proof.
  unfold insert_tweet_media.
  apply ordered_bind_lift. intros media Hmedia.
  apply ordered_bind_lift. intros l Hl.
  apply ordered_for_each. intros medium.
  apply ordered_bind_lift. intros media_url Hurl.
  apply ordered_bind with
    (R := fun v db => post_written tweet db /\ names v (urls (cur db))).
  { eapply ordered_weaken.
    - apply ordered_frame with (J := post_written tweet);
        [apply get_id_urls_traced, stable_post_written|apply get_id_urls_ordered].
    - cbv beta; intuition.
    - cbv beta; intuition. }
  intros id_urls.
  apply ordered_bind_lift. intros id_tweets Hidt.
  apply ordered_bind_lift. intros type Htype.
  apply ordered_bind with (R := fun _ db => post_written tweet db).
  { eapply ordered_weaken.
    - apply ordered_execute_keep with
        (J := post_written tweet) (P := fun db => names id_urls (urls (cur db)))
        (Q := fun _ _ => True);
        [apply stable_post_written| |auto].
      intros db Hpost Hu. split; [|exact Hu]. now apply post_written_names with tweet.
    - cbv beta; intuition.
    - cbv beta; intuition. }
  intros ?. now apply ordered_ret.
Qed.

(** Lines 105-426. *)
Lemma load_tweet_ordered (tweet : json) :
  ordered (fun _ => True) (load_tweet tweet) (fun _ db => post_written tweet db).
Proof.
  unfold load_tweet.
  eapply ordered_bind; [apply insert_user_ordered|]. intros user. cbv beta.
  eapply ordered_bind; [apply insert_tweets_row_ordered|]. intros ?. cbv beta.
  eapply ordered_bind; [apply insert_tweet_urls_ordered|]. intros ?.
  eapply ordered_bind; [apply insert_tweet_mentions_ordered|]. intros ?.
  eapply ordered_bind; [apply insert_tweet_tags_ordered|]. intros ?.
  apply insert_tweet_media_ordered.
Qed.

Lemma insert_tweet_body_ordered (tweet : json) :
  ordered (fun _ => True) (insert_tweet_body tweet) (fun _ _ => True).
Proof.
  unfold insert_tweet_body.
  apply ordered_bind_lift. intros id_tweets Hid.
  apply ordered_bind with (R := fun _ _ => True).
  { apply ordered_execute; [intros; exact I|auto]. }
  intros res. destruct (first_is_None res).
  - eapply ordered_weaken; [apply load_tweet_ordered|auto|auto].
  - now apply ordered_ret.
Qed.

(** C3. Every reference is written before the row that refers to it.  A
    load is run on the store with each statement recorded next to the rows
    it was issued on; the recorded run does to the store, and returns, what
    the load does.  Every insert of the record was issued on rows that
    held what it refers to: the row of [tweets] after the rows of its
    author and of the user it replies to, each [tweet_mentions] row after
    the rows of the tweet and of the mentioned user, each [tweet_urls] and
    [tweet_media] row after the row of the tweet and the row of [urls]
    whose identity [get_id_urls] returned, each [tweet_tags] row after the
    row of the tweet.  So a load never fails on a foreign key. *)
Theorem insert_tweet_references_resolved (tweet : json) (db : pg) :
  let run := insert_tweet tweet (start db) in
  base (fst run) = fst (insert_tweet tweet db) /\
  snd run = snd (insert_tweet tweet db) /\
  in_order (fst run) /\
  snd (insert_tweet tweet db) <> Err (Db ForeignKeyViolation).
Proof.
  cbv zeta. destruct (insert_tweet_agrees tweet (start db)) as [Hbase Hres].
  split; [exact Hbase|]. split; [exact Hres|].
  split; [|apply insert_tweet_no_foreign_key_violation].
  unfold insert_tweet, with_begin.
  assert (Hstart : in_order (begin (start db)) /\ True) by (split; [constructor|exact I]).
  pose proof (@insert_tweet_body_ordered tweet (begin (start db)) Hstart) as Hbody.
  destruct (insert_tweet_body tweet (begin (start db))) as [c [[]|e]]; cbn [fst].
  - exact (proj1 Hbody).
  - exact Hbody.
Qed.

(** The load of a reply with a link, a mention and a tag: eleven
    statements, no transaction left open, and the rows of an association
    only after the rows of both its ends. *)
Example statements_recorded :
  let c := fst (insert_tweet tweet_mentioning (start empty_pg)) in
  length (log c) = 11%nat /\
  nth_error (log c) 3
  = Some (sql_in_tweet_urls (JInt 22) (JInt 1),
          snd (match nth_error (log c) 3 with Some e => e | None => (sql_id_insert JNull, empty_tables) end)) /\
  option_map (fun e => (map fst (tweets (snd e)), map fst (urls (snd e)))) (nth_error (log c) 3)
  = Some ([22], [1]).
Proof. vm_compute. auto. Qed.

(** ** Idempotency *)

Lemma hoare_weaken_err {C A} (P : C -> Prop) (m : M C A) (Q : A -> C -> Prop)
    (E E' : exn -> C -> Prop) :
  hoare P m Q E -> (forall e c, E e c -> E' e c) -> hoare P m Q E'.
Proof.
  intros Hm HE c Hc. specialize (Hm c Hc). destruct (m c) as [c' [a|e]]; auto.
Qed.

(** When the body of the transaction ends, the row of the tweet is in
    [tweets]: it was found by the first lookup or it was written. *)
Lemma insert_tweet_body_written (tweet : json) :
  hoare (fun _ => True) (insert_tweet_body tweet)
        (fun _ db => exists k, getitem tweet "id" = OK (JInt k) /\ tweet_present k db)
        (fun _ _ => True).
Proof.
  unfold insert_tweet_body.
  apply hoare_bind_lift; [auto|]. intros id_tweets Hid.
  apply hoare_bind with
    (R := fun res db => first_is_None res = false ->
                        exists k, id_tweets = JInt k /\ tweet_present k db).
  { apply hoare_execute. intros db _.
    destruct (pg_execute _ db) as [db' [res|e]] eqn:Hex; [|exact I].
    apply pg_execute_ok in Hex as (Hrun & _ & _).
    apply run_select_tweets in Hrun as [Heq Hfound].
    unfold tweet_present. now rewrite Heq. }
  intros res. destruct (first_is_None res).
  - apply hoare_weaken_err with (E := nofk); [|auto].
    apply hoare_weaken with (P := fun _ => True) (Q := fun _ db => post_written tweet db);
      [apply load_tweet_refs|auto|].
    intros _ db (k & Hget & Hk). exists k. split; [|exact Hk].
    pose proof (getitem_get _ _ JNull Hid) as Hg.
    assert (id_tweets = JInt k) by congruence. now subst id_tweets.
  - apply hoare_ret. intros db Hdb. destruct (Hdb eq_refl) as (k & -> & Hk). eauto.
Qed.

(** The skip, on any connection: when the lookup yields a row, the body of
    the transaction is that one statement and nothing else. *)
Lemma insert_tweet_body_found {C} `{Connection C} (tweet id_tweets : json)
    (c c1 : C) (found : row) :
  getitem tweet "id" = OK id_tweets ->
  execute (sql_select_tweets id_tweets) c = (c1, OK (Some found)) ->
  insert_tweet_body tweet c = (c1, OK tt).
Proof.
  intros Hid Hfound. unfold insert_tweet_body, bind, lift. rewrite Hid, Hfound.
  reflexivity.
Qed.

Example found_executes_one_statement (c : pg) :
  tweet_present 22 c ->
  insert_tweet_body tweet_mentioning c
  = (fst (execute (sql_select_tweets (JInt 22)) c), OK tt).
Proof.
  intros Hc.
  apply insert_tweet_body_found with (id_tweets := JInt 22) (found := [JInt 22]);
    [reflexivity|].
  cbn [execute pg_connection]. unfold pg_execute. cbn [run as_bigint rbind find_key].
  unfold tweet_present in Hc. rewrite Hc. reflexivity.
Qed.

(** On a store that holds the row of the tweet, [insert_tweet] executes
    the lookup and returns; the store is as it was. *)
Lemma insert_tweet_skips (tweet : json) (db : pg) (k : Z) :
  getitem tweet "id" = OK (JInt k) ->
  tweet_present k db ->
  insert_tweet tweet db = (pg_commit db, OK tt).
Proof.
  intros Hid Hk. unfold tweet_present in Hk.
  unfold insert_tweet, with_begin.
  rewrite (insert_tweet_body_found tweet (begin db) (c1 := begin db)
             (found := [JInt k]) Hid); [reflexivity|].
  cbn [execute begin pg_connection]. unfold pg_execute. cbn [run as_bigint rbind].
  cbn [pg_begin cur urls_seq saved find_key next_seq]. now rewrite Hk.
Qed.

(** C1. After a load of a record that succeeded, a second load of the same
    record finds the row of the tweet with its first lookup, returns, and
    leaves the store (the rows of every table, the sequence, no open
    transaction) exactly as the first load left it. *)
Theorem insert_tweet_idempotent (tweet : json) (db db1 : pg) :
  insert_tweet tweet db = (db1, OK tt) ->
  insert_tweet tweet db1 = (db1, OK tt) /\
  exists k, getitem tweet "id" = OK (JInt k) /\
            execute (sql_select_tweets (JInt k)) db1 = (db1, OK (Some [JInt k])).
Proof.
  unfold insert_tweet at 1, with_begin.
  pose proof (insert_tweet_body_written tweet (c := begin db) I) as Hbody.
  destruct (insert_tweet_body tweet (begin db)) as [c [[]|e]]; [|discriminate].
  intros Heq. injection Heq as <-.
  destruct Hbody as (k & Hid & Hk).
  change (commit c) with (pg_commit c).
  assert (Hk' : tweet_present k (pg_commit c)) by exact Hk.
  split.
  - rewrite (insert_tweet_skips tweet Hid Hk'). reflexivity.
  - exists k. split; [exact Hid|].
    cbn [execute commit pg_connection]. unfold pg_execute. cbn [run as_bigint rbind].
    unfold tweet_present in Hk.
    cbn [pg_commit cur urls_seq saved find_key next_seq]. rewrite Hk. reflexivity.
Qed.

Lemma insert_tweet_idempotent_witness :
  let db1 := fst (insert_tweet tweet_mentioning empty_pg) in
  insert_tweet tweet_mentioning empty_pg = (db1, OK tt) /\
  insert_tweet tweet_mentioning db1 = (db1, OK tt) /\
  has_key 22 (tweets (cur db1)) = true.
Proof.
  intros db1.
  assert (Hfirst : insert_tweet tweet_mentioning empty_pg = (db1, OK tt))
    by (vm_compute; reflexivity).
  split; [exact Hfirst|].
  split; [exact (proj1 (insert_tweet_idempotent _ _ Hfirst))|].
  vm_compute. reflexivity.
Defined.

(** ** Author rows *)

Lemma row_of_has_key {V} (k : Z) (l : list (Z * V)) (v : V) :
  row_of k l = Some v -> has_key k l = true.
Proof.
  unfold row_of, has_key. destruct (find _ l) as [r|] eqn:Hf; [|discriminate].
  intros _. apply find_some in Hf as [Hin Hr].
  apply existsb_exists. now exists r.
Qed.

Lemma row_of_cons {V} (k k' : Z) (v v' : V) (l : list (Z * V)) :
  has_key k' l = false -> row_of k l = Some v -> row_of k ((k', v') :: l) = Some v.
Proof.
  intros Hnew Hrow. unfold row_of. simpl.
  destruct (Z.eqb_spec k' k) as [->|]; [|exact Hrow].
  apply row_of_has_key in Hrow. congruence.
Qed.

Lemma row_of_update {V} (k k' : Z) (v' : V) (l : list (Z * V)) :
  k' <> k -> row_of k (update_key k' v' l) = row_of k l.
Proof.
  intros Hne. unfold row_of, update_key.
  induction l as [|[a b] l IH]; simpl; [reflexivity|].
  destruct (Z.eqb_spec a k') as [->|Ha]; simpl.
  - destruct (Z.eqb_spec k' k); [contradiction|exact IH].
  - destruct (Z.eqb_spec a k); [reflexivity|exact IH].
Qed.

(** No statement other than the update of user [k] changes the row of
    user [k]: an insert on an identity that has a row does nothing. *)
Lemma run_spares (k : Z) (cols : users_cols) (q : stmt) seq t t' res :
  spares k q ->
  run q seq t = OK (t', res) ->
  row_of k (users t) = Some cols -> row_of k (users t') = Some cols.
Proof.
  intros Hq Hrun Hrow.
  destruct q; run_inv Hrun; simpl in *; auto using row_of_cons.
  all: rewrite row_of_update; [exact Hrow|congruence].
Qed.

Lemma pg_execute_spares (k : Z) (cols : users_cols) (q : stmt) :
  spares k q ->
  preserves (fun db : pg => row_of k (users (cur db)) = Some cols) (execute q).
Proof.
  intros Hq db Hrow. cbn [execute pg_connection]. unfold pg_execute.
  destruct (run q (urls_seq db) (cur db)) as [[t res]|e] eqn:Hrun; simpl; [|exact Hrow].
  eapply run_spares; eauto.
Qed.

Lemma insert_tweet_body_spares (k : Z) (cols : users_cols) (tweet : json) :
  poster_id tweet <> OK (JInt k) ->
  preserves (fun db : pg => row_of k (users (cur db)) = Some cols)
            (insert_tweet_body tweet).
Proof.
  intros Hposter.
  apply insert_tweet_body_preserves with (allowed := spares k).
  - intros q Hq. now apply pg_execute_spares.
  - intros q Hq. destruct q; try exact I. discriminate.
  - intros user id_users _ Huser Hid ->. apply Hposter.
    unfold poster_id. now rewrite Huser.
Qed.

(** C4, as stated, fails: a later load by the same author rewrites every
    column of the row with that record's profile, so a description that
    was populated becomes null. *)
Lemma later_load_overwrites :
  let db1 := fst (insert_tweet tweet_hydrating empty_pg) in
  let db2 := fst (insert_tweet tweet_later db1) in
  snd (insert_tweet tweet_hydrating empty_pg) = OK tt /\
  snd (insert_tweet tweet_later db1) = OK tt /\
  option_map u_description (row_of 2 (users (cur db1))) = Some (JStr "bio") /\
  option_map u_description (row_of 2 (users (cur db2))) = Some JNull.
Proof. vm_compute. auto. Qed.

(** C4, amended. A load changes no row of [users] other than the row of
    the record's posting user: the stub inserts for the reply target and
    for the mentions leave a row that exists as it is, hydrated or not,
    whether the load ends or fails. *)
Theorem stubs_never_overwrite (tweet : json) (db : pg) (k : Z) (cols : users_cols) :
  row_of k (users (cur db)) = Some cols ->
  poster_id tweet <> OK (JInt k) ->
  row_of k (users (cur (fst (insert_tweet tweet db)))) = Some cols.
Proof.
  intros Hrow Hposter. unfold insert_tweet, with_begin.
  pose proof (@insert_tweet_body_spares k cols tweet Hposter (begin db) Hrow) as Hbody.
  pose proof (insert_tweet_body_saved tweet (begin db)) as Hsaved.
  destruct (insert_tweet_body tweet (begin db)) as [c [[]|e]]; simpl in *.
  - exact Hbody.
  - now rewrite Hsaved.
Qed.

Lemma stubs_never_overwrite_witness :
  let db1 := fst (insert_tweet tweet_hydrating empty_pg) in
  let db2 := fst (insert_tweet tweet_mentioning db1) in
  snd (insert_tweet tweet_mentioning db1) = OK tt /\
  has_key 3 (users (cur db2)) = true /\
  row_of 2 (users (cur db2)) = row_of 2 (users (cur db1)) /\
  option_map u_description (row_of 2 (users (cur db2))) = Some (JStr "bio").
Proof.
  intros db1 db2.
  assert (Hrow : exists cols, row_of 2 (users (cur db1)) = Some cols
                              /\ u_description cols = JStr "bio")
    by (eexists; split; vm_compute; reflexivity).
  destruct Hrow as (cols & Hrow & Hdesc).
  assert (Hposter : poster_id tweet_mentioning <> OK (JInt 2))
    by (vm_compute; discriminate).
  pose proof (@stubs_never_overwrite tweet_mentioning db1 2 cols Hrow Hposter) as Hkept.
  fold db2 in Hkept.
  split; [|split; [|split]].
  - vm_compute. reflexivity.
  - vm_compute. reflexivity.
  - now rewrite Hkept, Hrow.
  - rewrite Hkept. simpl. now rewrite Hdesc.
Defined.

(** A stub is hydrated by the first record of its author.  (The stub of
    user 2 is the one of the reply target, written first; the insert for
    the mention meets it and does nothing.) *)
Example stub_then_hydrate :
  let db1 := fst (insert_tweet tweet_mentioning empty_pg) in
  let db2 := fst (insert_tweet tweet_hydrating db1) in
  option_map u_screen_name (row_of 2 (users (cur db1))) = Some JNull /\
  option_map u_description (row_of 2 (users (cur db1))) = Some JNull /\
  option_map u_description (row_of 2 (users (cur db2))) = Some (JStr "bio").
Proof. vm_compute. auto. Qed.

(** ** The resolver *)

Lemma existsb_find {A} (f : A -> bool) (l : list A) :
  existsb f l = true -> exists r, find f l = Some r /\ In r l /\ f r = true.
Proof.
  induction l as [|a l IH]; simpl; [discriminate|].
  destruct (f a) eqn:Hfa; simpl.
  - intros _. exists a. auto.
  - intros Hl. destruct (IH Hl) as (r & Hr & Hin & Hfr). exists r. auto.
Qed.

Lemma existsb_false_filter {A} (f : A -> bool) (l : list A) :
  existsb f l = false -> filter f l = [] /\ find f l = None.
Proof.
  induction l as [|a l IH]; simpl; [auto|].
  destruct (f a); simpl; [discriminate|exact IH].
Qed.

Lemma url_is_inv (s : string) (r : Z * option string) :
  url_is s r = true -> r = (fst r, Some s).
Proof.
  destruct r as [id [s'|]]; unfold url_is; simpl; [|discriminate].
  intros Heq. apply String.eqb_eq in Heq. now subst.
Qed.

Lemma url_is_refl (s : string) (id : Z) : url_is s (id, Some s) = true.
Proof. unfold url_is. simpl. apply String.eqb_refl. Qed.

Lemma seq_fresh_no_key (db : pg) :
  seq_fresh db -> has_key (urls_seq db) (urls (cur db)) = false.
Proof.
  intros Hfresh. unfold has_key.
  destruct (existsb _ (urls (cur db))) eqn:He; [|reflexivity].
  apply existsb_exists in He as (r & Hin & Heq).
  apply Z.eqb_eq in Heq. specialize (Hfresh r Hin). lia.
Qed.

(** A URL that has a row: the insert is discarded, the lookup returns the
    identity of the row, and no row is written. *)
Lemma get_id_urls_existing (s : string) (db : pg) :
  contains NUL s = false ->
  existsb (url_is s) (urls (cur db)) = true ->
  exists id,
    find (url_is s) (urls (cur db)) = Some (id, Some s) /\
    get_id_urls (JStr s) db
    = ({| cur := cur db; saved := saved db; urls_seq := urls_seq db + 1 |}, OK (JInt id)).
Proof.
  intros Hs Hex. destruct (existsb_find _ _ Hex) as (r & Hfind & Hin & Hr).
  exists (fst r). split; [now rewrite Hfind, (url_is_inv _ _ Hr) at 1|].
  unfold get_id_urls, bind, lift, ret. cbn [execute pg_connection].
  unfold pg_execute. cbn [run as_text]. rewrite Hs. cbn [rbind url_taken].
  rewrite Hex, Bool.orb_true_r.
  cbn [first_is_None cur urls_seq saved next_seq rbind].
  rewrite Hfind. reflexivity.
Qed.

(** A URL that has no row, on a store whose sequence is fresh: the insert
    writes the row and returns its identity. *)
Lemma get_id_urls_new (s : string) (db : pg) :
  contains NUL s = false ->
  existsb (url_is s) (urls (cur db)) = false ->
  has_key (urls_seq db) (urls (cur db)) = false ->
  get_id_urls (JStr s) db
  = ({| cur := set_urls ((urls_seq db, Some s) :: urls (cur db)) (cur db);
        saved := saved db; urls_seq := urls_seq db + 1 |},
     OK (JInt (urls_seq db))).
Proof.
  intros Hs Hex Hkey.
  unfold get_id_urls, bind, lift, ret. cbn [execute pg_connection].
  unfold pg_execute. cbn [run as_text]. rewrite Hs. cbn [rbind url_taken].
  rewrite Hex, Hkey. reflexivity.
Qed.

(** A URL that holds the null character: the store refuses the insert,
    and nothing is written or drawn from the sequence. *)
Lemma get_id_urls_refused (s : string) (db : pg) :
  contains NUL s = true -> get_id_urls (JStr s) db = (db, Err (Db DataError)).
Proof.
  intros Hs. unfold get_id_urls, bind. cbn [execute pg_connection].
  unfold pg_execute. cbn [run as_text]. rewrite Hs. reflexivity.
Qed.


(** The same on the store, when the sequence is behind: the insert is
    discarded for the identity it generated, the lookup finds no row for
    the URL, and the sequence has moved by one. *)
Example get_id_urls_behind :
  get_id_urls (JStr "http://example.org/b") pg_behind
  = ({| cur := cur pg_behind; saved := None; urls_seq := 2 |}, Err (Py TypeError)).
Proof. reflexivity. Qed.


Lemma find_filter {A} (f : A -> bool) (l : list A) (r : A) :
  find f l = Some r -> exists rest, filter f l = r :: rest.
Proof.
  induction l as [|a l IH]; simpl; [discriminate|].
  destruct (f a); [intros Heq; injection Heq as ->; eauto|exact IH].
Qed.

Lemma find_existsb {A} (f : A -> bool) (l : list A) (r : A) :
  find f l = Some r -> existsb f l = true.
Proof.
  intros Hf. apply find_some in Hf as [Hin Hr]. apply existsb_exists. eauto.
Qed.

(** Once the URL has a row, every further call returns the identity of
    that row and writes nothing. *)
Lemma get_id_urls_n_existing (s : string) (id : Z) (n : nat) (db : pg) :
  contains NUL s = false ->
  find (url_is s) (urls (cur db)) = Some (id, Some s) ->
  exists db',
    get_id_urls_n n (JStr s) db = (db', OK (repeat (JInt id) n)) /\ cur db' = cur db.
Proof.
  intros Hs. revert db. induction n as [|n IH]; intros db Hfind.
  - exists db. split; reflexivity.
  - destruct (get_id_urls_existing s db Hs (find_existsb _ _ Hfind))
      as (id' & Hfind' & Hcall).
    assert (id' = id) by congruence. subst id'.
    destruct (IH {| cur := cur db; saved := saved db; urls_seq := urls_seq db + 1 |} Hfind)
      as (db' & Hrest & Hcur).
    exists db'. split; [|exact Hcur].
    cbn [get_id_urls_n]. unfold bind at 1. rewrite Hcall.
    unfold bind at 1. rewrite Hrest. reflexivity.
Qed.

(** One call or more: the first call writes the row if there is none, and
    every call returns the identity of the one row. *)
Lemma get_id_urls_n_one_row (s : string) (n : nat) (db : pg) :
  contains NUL s = false ->
  seq_fresh db ->
  (length (rows_of_url s db) <= 1)%nat ->
  exists id db',
    get_id_urls_n (S n) (JStr s) db = (db', OK (repeat (JInt id) (S n))) /\
    rows_of_url s db' = [(id, Some s)] /\
    (length (urls (cur db')) <= S (length (urls (cur db))))%nat.
Proof.
  intros Hs Hfresh Hone.
  destruct (existsb (url_is s) (urls (cur db))) eqn:Hex.
  - destruct (get_id_urls_existing s db Hs Hex) as (id & Hfind & Hcall).
    destruct (@get_id_urls_n_existing s id n
                {| cur := cur db; saved := saved db; urls_seq := urls_seq db + 1 |} Hs Hfind)
      as (db' & Hrest & Hcur).
    exists id, db'. split; [|split].
    + cbn [get_id_urls_n]. unfold bind at 1. rewrite Hcall.
      unfold bind at 1. rewrite Hrest. reflexivity.
    + unfold rows_of_url in *. rewrite Hcur. cbn [cur].
      destruct (find_filter _ _ Hfind) as (rest & Hrows). rewrite Hrows in *.
      destruct rest; [reflexivity|simpl in Hone; lia].
    + rewrite Hcur. cbn [cur]. lia.
  - pose proof (get_id_urls_new s db Hs Hex (seq_fresh_no_key Hfresh)) as Hcall.
    set (db1 := {| cur := set_urls ((urls_seq db, Some s) :: urls (cur db)) (cur db);
                   saved := saved db; urls_seq := urls_seq db + 1 |}) in *.
    assert (Hfind : find (url_is s) (urls (cur db1)) = Some (urls_seq db, Some s)).
    { subst db1. cbn [cur urls set_urls find]. now rewrite url_is_refl. }
    destruct (@get_id_urls_n_existing s (urls_seq db) n db1 Hs Hfind)
      as (db' & Hrest & Hcur).
    exists (urls_seq db), db'. split; [|split].
    + cbn [get_id_urls_n]. unfold bind at 1. rewrite Hcall.
      unfold bind at 1. rewrite Hrest. reflexivity.
    + unfold rows_of_url. rewrite Hcur. subst db1. cbn [cur urls set_urls filter].
      rewrite url_is_refl.
      now destruct (existsb_false_filter _ _ Hex) as [-> _].
    + rewrite Hcur. subst db1. cbn [cur urls set_urls length]. lia.
Qed.

(** C6, as stated, fails: a URL that holds the null character is a URL
    string, and no call with it returns an identity; the store refuses
    the insert every time. *)
Lemma get_id_urls_nul_never_returns :
  get_id_urls_n 3 (JStr url_with_nul) empty_pg = (empty_pg, Err (Db DataError)) /\
  get_id_urls (JStr url_with_nul) empty_pg = (empty_pg, Err (Db DataError)).
Proof. split; reflexivity. Qed.



(** The three calls on the empty store. *)
Example get_id_urls_three_calls :
  get_id_urls_n 3 (JStr "http://example.org/a") empty_pg
  = ({| cur := set_urls [(1, Some "http://example.org/a")] empty_tables;
        saved := None; urls_seq := 4 |},
     OK [JInt 1; JInt 1; JInt 1]).
Proof. reflexivity. Qed.

(** On a store that holds the URL the calls return the identity of its row
    and write nothing. *)
Example get_id_urls_existing_row :
  let db := fst (insert_tweet tweet_mentioning empty_pg) in
  urls (cur db) = [(1, Some "http://example.org/a")] /\
  snd (get_id_urls_n 3 (JStr "http://example.org/a") db) = OK [JInt 1; JInt 1; JInt 1] /\
  cur (fst (get_id_urls_n 3 (JStr "http://example.org/a") db)) = cur db.
Proof. vm_compute. auto. Qed.

(** *** The hypotheses of C6 are invariants of the store *)

Lemma urls_ok_mono (seq seq' : Z) (l : list (Z * option string)) :
  seq <= seq' -> urls_ok seq l -> urls_ok seq' l.
Proof.
  intros Hle [Hfresh Huniq]. split; [|exact Huniq].
  intros r Hin. specialize (Hfresh r Hin). lia.
Qed.

(** Only the insert of the resolver writes to [urls], and only a row with
    the generated identity and a string that had no row. *)
Lemma run_urls (q : stmt) (seq : Z) (t t' : tables) (res : option row) :
  run q seq t = OK (t', res) ->
  urls t' = urls t \/
  exists u, urls t' = (seq, u) :: urls t /\ url_taken u (urls t) = false /\
            next_seq q seq = seq + 1.
Proof.
  intros Hrun. destruct q; run_inv Hrun; auto.
  all: right; eexists; cbn [urls set_urls next_seq]; split; [reflexivity|];
    match goal with
    | Hor : (_ || _)%bool = false |- _ => apply Bool.orb_false_iff in Hor as [_ Htaken]
    end; auto.
Qed.

Lemma urls_ok_insert (seq : Z) (u : option string) (l : list (Z * option string)) :
  url_taken u l = false -> urls_ok seq l -> urls_ok (seq + 1) ((seq, u) :: l).
Proof.
  intros Htaken [Hfresh Huniq]. split.
  - intros r [<-|Hin]; simpl; [lia|]. specialize (Hfresh r Hin). lia.
  - intros s. cbn [filter]. destruct (url_is s (seq, u)) eqn:Hs; [|apply Huniq].
    apply url_is_inv in Hs. injection Hs as ->. cbn [url_taken] in Htaken.
    destruct (existsb_false_filter _ _ Htaken) as [-> _]. simpl. lia.
Qed.

Lemma stable_store_ok : stable store_ok.
Proof.
  intros q db [Hcur Hsaved]. unfold pg_execute.
  destruct (run q (urls_seq db) (cur db)) as [[t res]|e] eqn:Hrun; cbn [fst];
    [|split; assumption].
  split; cbn [cur urls_seq saved].
  - destruct (run_urls _ _ _ Hrun) as [->|(u & -> & Htaken & ->)].
    + eapply urls_ok_mono; [apply next_seq_le|exact Hcur].
    + now apply urls_ok_insert.
  - intros t0 Ht0. eapply urls_ok_mono; [apply next_seq_le|now apply Hsaved].
Qed.

Lemma store_ok_empty : store_ok empty_pg.
Proof.
  split; [|discriminate]. split; [intros r []|intros s; simpl; lia].
Qed.

(** X10. A load, however it ends, leaves the rows of [urls] well formed:
    no string has two rows and the sequence is ahead of every identity, in
    the rows and in what a rollback would restore. *)
Lemma insert_tweet_store_ok (tweet : json) (db : pg) :
  urls_ok (urls_seq db) (urls (cur db)) ->
  store_ok (fst (insert_tweet tweet db)).
Proof.
  intros Hok. unfold insert_tweet, with_begin.
  assert (Hbegin : store_ok (begin db)).
  { split; [exact Hok|]. cbn. intros t Ht. now injection Ht as <-. }
  pose proof (insert_tweet_body_stable stable_store_ok tweet _ Hbegin) as [Hcur Hsaved].
  destruct (insert_tweet_body tweet (begin db)) as [c [[]|e]]; cbn [fst] in *.
  - split; [exact Hcur|discriminate].
  - split; [|discriminate]. cbn [pg_rollback rollback pg_connection cur urls_seq].
    destruct (saved c) as [t|]; [now apply Hsaved|exact Hcur].
Qed.

Lemma store_ok_hypotheses (db : pg) (s : string) :
  store_ok db -> seq_fresh db /\ (length (rows_of_url s db) <= 1)%nat.
Proof. intros [[Hfresh Huniq] _]. split; [exact Hfresh|apply Huniq]. Qed.

(** * Further properties *)

(** ** Field extraction *)

Lemma lower_char_idempotent (c : ascii) : lower_char (lower_char c) = lower_char c.
Proof. destruct c as [[] [] [] [] [] [] [] []]; reflexivity. Qed.

Lemma lower_idempotent (s : string) : lower (lower s) = lower s.
Proof.
  induction s as [|c s IH]; [reflexivity|].
  cbn [lower]. now rewrite lower_char_idempotent, IH.
Qed.

Lemma lower_length (s : string) : String.length (lower s) = String.length s.
Proof. induction s as [|c s IH]; [reflexivity|]. cbn [lower String.length]. now rewrite IH. Qed.

(** X1. The country code bound to the row of a tweet: for a [place] with
    a string under [country_code] it is that string in lower case, for a
    null [place] it is [None]; and whenever the lookup returns, what it
    returns is [None] or a string in lower case (one that [lower] leaves
    as it is). *)
Theorem country_code_lower_case (tweet : json) :
  (forall fields place s,
     tweet = JObj fields ->
     assoc "place" fields = Some (JObj place) ->
     assoc "country_code" place = Some (JStr s) ->
     tweet_country_code tweet = OK (JStr (lower s))) /\
  (forall fields,
     tweet = JObj fields -> assoc "place" fields = Some JNull ->
     tweet_country_code tweet = OK JNull) /\
  (forall v, tweet_country_code tweet = OK v ->
             v = JNull \/ exists s, v = JStr s /\ lower s = s).
Proof.
  split; [|split].
  - intros fields place s -> Hp Hc. unfold tweet_country_code.
    cbn [getitem rbind]. rewrite Hp. cbn [getitem rbind]. rewrite Hc. reflexivity.
  - intros fields -> Hp. unfold tweet_country_code.
    cbn [getitem rbind]. rewrite Hp. reflexivity.
  - intros v. unfold tweet_country_code.
    destruct (getitem tweet "place") as [p|e] eqn:Hp; cbn [rbind rcatch].
    + destruct (getitem p "country_code") as [c|e] eqn:Hc; cbn [rbind rcatch].
      * destruct c; cbn [lower_method rcatch pyexn_eqb]; try discriminate.
        intros Hv. injection Hv as <-. right. eexists. split; [reflexivity|].
        apply lower_idempotent.
      * destruct e; cbn [pyexn_eqb]; try discriminate.
        intros Hv. injection Hv as <-. now left.
    + destruct e; cbn [pyexn_eqb]; try discriminate. intros Hv. injection Hv as <-. now left.
Qed.

Lemma country_code_lower_case_witness :
  tweet_country_code (JObj [("place", JObj [("country_code", JStr "US")])]) = OK (JStr "us") /\
  tweet_country_code (JObj [("place", JNull)]) = OK JNull /\
  (JStr "us" = JNull \/ exists s, JStr "us" = JStr s /\ lower s = s).
Proof.
  split; [|split].
  - apply (proj1 (country_code_lower_case
                    (JObj [("place", JObj [("country_code", JStr "US")])]))
             [("place", JObj [("country_code", JStr "US")])]
             [("country_code", JStr "US")] "US"); reflexivity.
  - apply (proj1 (proj2 (country_code_lower_case (JObj [("place", JNull)])))
             [("place", JNull)]); reflexivity.
  - apply (proj2 (proj2 (country_code_lower_case
                           (JObj [("place", JObj [("country_code", JStr "US")])])))).
    reflexivity.
Defined.

(** X2. The state code bound to the row of a tweet is [None] or a string
    of at most two characters, and it is a string only when the country
    code is ['us']. *)
Theorem state_code_at_most_two (tweet country_code v : json) :
  tweet_state_code tweet country_code = OK v ->
  v = JNull \/
  exists s, v = JStr s /\ (String.length s <= 2)%nat /\ country_code = JStr "us".
Proof.
  unfold tweet_state_code.
  destruct (eq_str country_code "us") eqn:Hus.
  - destruct (rbind (getitem tweet "place") (fun p => getitem p "full_name")) as [f|e];
      cbn [rbind]; [|discriminate].
    destruct f; try discriminate.
    destruct (Nat.ltb 2 (String.length (lower (strip (last (split "," s) EmptyString)))))
      eqn:Hlen; intros Hv; injection Hv as <-; [now left|right].
    eexists. split; [reflexivity|]. split.
    + apply Nat.ltb_ge in Hlen. exact Hlen.
    + destruct country_code; try discriminate. cbn [eq_str] in Hus.
      apply String.eqb_eq in Hus. now subst.
  - intros Hv. injection Hv as <-. now left.
Qed.

Lemma state_code_at_most_two_witness :
  tweet_state_code
    (JObj [("place", JObj [("country_code", JStr "US"); ("full_name", JStr "Austin, TX")])])
    (JStr "us") = OK (JStr "tx") /\
  (JStr "tx" = JNull \/
   exists s, JStr "tx" = JStr s /\ (String.length s <= 2)%nat /\ JStr "us" = JStr "us").
Proof.
  assert (Hrun : tweet_state_code
            (JObj [("place", JObj [("country_code", JStr "US"); ("full_name", JStr "Austin, TX")])])
            (JStr "us") = OK (JStr "tx")) by reflexivity.
  split; [exact Hrun|]. exact (state_code_at_most_two _ _ Hrun).
Defined.

(** What [split(',')[-1]] selects: the text after the last comma. *)
Lemma split_not_nil (sep : ascii) (s : string) : split sep s <> [].
Proof.
  destruct s as [|c s]; cbn [split]; [discriminate|].
  destruct (Ascii.eqb c sep); [discriminate|].
  destruct (split sep s); discriminate.
Qed.

Lemma split_no_sep (sep : ascii) (b : string) :
  contains sep b = false -> split sep b = [b].
Proof.
  induction b as [|c b IH]; [reflexivity|].
  cbn [contains split]. intros Hc. apply Bool.orb_false_iff in Hc as [Hc Hb].
  rewrite Ascii.eqb_sym, Hc, (IH Hb). reflexivity.
Qed.

(** [(a + sep + b).split(sep) == a.split(sep) + b.split(sep)] *)
Lemma split_app (sep : ascii) (a b : string) :
  split sep (a ++ String sep b) = (split sep a ++ split sep b)%list.
Proof.
  induction a as [|c a IH]; cbn [append split].
  - now rewrite Ascii.eqb_refl.
  - destruct (Ascii.eqb c sep); rewrite IH; [reflexivity|].
    destruct (split sep a) as [|h t] eqn:Hs; [now apply split_not_nil in Hs|].
    reflexivity.
Qed.

Lemma last_app_not_nil {A} (l1 l2 : list A) (d : A) :
  l2 <> [] -> last (l1 ++ l2) d = last l2 d.
Proof.
  intros Hl2. induction l1 as [|x l1 IH]; [reflexivity|].
  cbn [app]. destruct (l1 ++ l2)%list eqn:Happ; [|exact IH].
  apply app_eq_nil in Happ as [_ Hnil]. contradiction.
Qed.

Lemma last_split (sep : ascii) (a b : string) :
  contains sep b = false ->
  last (split sep (a ++ String sep b)) EmptyString = b.
Proof.
  intros Hb. rewrite split_app, last_app_not_nil; [|apply split_not_nil].
  now rewrite (split_no_sep _ _ Hb).
Qed.

(** X3. For a place of the United States whose full name ends in a comma
    and a text without comma, the state code is that text, stripped and in
    lower case, and [None] when this is longer than two characters. *)
Theorem state_code_after_last_comma (fields place : list (string * json)) (a b : string) :
  assoc "place" fields = Some (JObj place) ->
  assoc "full_name" place = Some (JStr (a ++ String "," b)) ->
  contains "," b = false ->
  tweet_state_code (JObj fields) (JStr "us")
  = OK (if Nat.ltb 2 (String.length (lower (strip b))) then JNull
        else JStr (lower (strip b))).
Proof.
  intros Hp Hf Hb. unfold tweet_state_code. cbn [eq_str String.eqb Ascii.eqb Bool.eqb].
  cbn [getitem rbind]. rewrite Hp. cbn [getitem rbind]. rewrite Hf. cbn [rbind].
  rewrite (last_split _ a _ Hb).
  now destruct (Nat.ltb 2 (String.length (lower (strip b)))).
Qed.

Lemma state_code_after_last_comma_witness :
  tweet_state_code
    (JObj [("place", JObj [("full_name", JStr "Somewhere, Texas")])]) (JStr "us")
  = OK JNull /\
  tweet_state_code
    (JObj [("place", JObj [("full_name", JStr "Portland, Oregon, OR ")])]) (JStr "us")
  = OK (JStr "or").
Proof.
  split.
  - apply (@state_code_after_last_comma
             [("place", JObj [("full_name", JStr "Somewhere, Texas")])]
             [("full_name", JStr "Somewhere, Texas")] "Somewhere" " Texas"); reflexivity.
  - apply (@state_code_after_last_comma
             [("place", JObj [("full_name", JStr "Portland, Oregon, OR ")])]
             [("full_name", JStr "Portland, Oregon, OR ")] "Portland, Oregon" " OR ");
      reflexivity.
Defined.

Lemma prefixed_texts (p : string) (l : list json) (texts : list string) :
  Forall2 (fun x t => getitem x "text" = OK (JStr t)) l texts ->
  prefixed p l = OK (map (fun t => JStr (p ++ t)) texts).
Proof.
  induction 1 as [|x t l texts Hx _ IH]; [reflexivity|].
  cbn [prefixed map]. rewrite Hx. cbn [rbind concat_str]. now rewrite IH.
Qed.

(** X4. The tags of a record are the texts of its hashtags, each with
    ['#'] before it, followed by the texts of its symbols, each with ['$']
    before it, in the order of the two containers: one tag for each
    element, none dropped, merged or moved. *)
Theorem tags_are_prefixed (hashtags cashtags : json) (hl cl : list json)
    (htexts ctexts : list string) :
  iter hashtags = OK hl ->
  iter cashtags = OK cl ->
  Forall2 (fun x t => getitem x "text" = OK (JStr t)) hl htexts ->
  Forall2 (fun x t => getitem x "text" = OK (JStr t)) cl ctexts ->
  tweet_tags_list hashtags cashtags
  = OK (map (fun t => JStr ("#" ++ t)) htexts ++ map (fun t => JStr ("$" ++ t)) ctexts)%list.
Proof.
  intros Hh Hc Hht Hct. unfold tweet_tags_list. rewrite Hh, Hc. cbn [rbind].
  rewrite (prefixed_texts "#" Hht). cbn [rbind].
  rewrite (prefixed_texts "$" Hct). reflexivity.
Qed.

Lemma tags_are_prefixed_witness :
  tweet_tags_list (JArr [JObj [("text", JStr "rocq")]; JObj [("text", JStr "coq")]])
                  (JArr [JObj [("text", JStr "AAPL")]])
  = OK [JStr "#rocq"; JStr "#coq"; JStr "$AAPL"].
Proof.
  apply (@tags_are_prefixed
           (JArr [JObj [("text", JStr "rocq")]; JObj [("text", JStr "coq")]])
           (JArr [JObj [("text", JStr "AAPL")]])
           [JObj [("text", JStr "rocq")]; JObj [("text", JStr "coq")]]
           [JObj [("text", JStr "AAPL")]]
           ["rocq"; "coq"] ["AAPL"]); try reflexivity; repeat constructor.
Defined.

(** X5. The two tag containers come from the same side.  When the
    extended entities hold both hashtags and symbols, both containers are
    the extended ones, whatever the base entities hold; when they hold
    hashtags but no symbols, the hashtags of the extended side are dropped
    and both containers are the base ones. *)
Theorem tag_containers_same_side (fields ext ents : list (string * json)) (h : json) :
  assoc "extended_tweet" fields = Some (JObj ext) ->
  assoc "entities" ext = Some (JObj ents) ->
  assoc "hashtags" ents = Some h ->
  (forall c, assoc "symbols" ents = Some c ->
             tweet_tags_entities (JObj fields) = OK (h, c)) /\
  (forall base bh bs,
     assoc "symbols" ents = None ->
     assoc "entities" fields = Some (JObj base) ->
     assoc "hashtags" base = Some bh ->
     assoc "symbols" base = Some bs ->
     tweet_tags_entities (JObj fields) = OK (bh, bs)).
Proof.
  intros Hx He Hh. split.
  - intros c Hs. unfold tweet_tags_entities.
    cbn [getitem rbind]. rewrite Hx. cbn [getitem rbind]. rewrite He. cbn [getitem rbind].
    rewrite Hh, Hs. reflexivity.
  - intros base bh bs Hs Hb Hbh Hbs. unfold tweet_tags_entities.
    cbn [getitem rbind]. rewrite Hx. cbn [getitem rbind]. rewrite He. cbn [getitem rbind].
    rewrite Hh, Hs. cbn [rbind rcatch pyexn_eqb].
    rewrite Hb. cbn [getitem rbind]. rewrite Hbh, Hbs. reflexivity.
Qed.

Lemma tag_containers_same_side_witness :
  tweet_tags_entities tweet_tags_extended = OK (JArr [JObj [("text", JStr "long")]], JArr []) /\
  tweet_tags_entities tweet_tags_half_extended = OK (JArr [], JArr [JObj [("text", JStr "IBM")]]).
Proof.
  split.
  - apply (proj1 (@tag_containers_same_side
                    [("extended_tweet",
                      JObj [("entities",
                             JObj [("hashtags", JArr [JObj [("text", JStr "long")]]);
                                   ("symbols", JArr [])])]);
                     ("entities", JObj [("hashtags", JArr []);
                                        ("symbols", JArr [JObj [("text", JStr "IBM")]])])]
                    [("entities",
                      JObj [("hashtags", JArr [JObj [("text", JStr "long")]]);
                            ("symbols", JArr [])])]
                    [("hashtags", JArr [JObj [("text", JStr "long")]]); ("symbols", JArr [])]
                    (JArr [JObj [("text", JStr "long")]]) eq_refl eq_refl eq_refl)).
    reflexivity.
  - apply (proj2 (@tag_containers_same_side
                    [("extended_tweet",
                      JObj [("entities",
                             JObj [("hashtags", JArr [JObj [("text", JStr "long")]])])]);
                     ("entities", JObj [("hashtags", JArr []);
                                        ("symbols", JArr [JObj [("text", JStr "IBM")]])])]
                    [("entities",
                      JObj [("hashtags", JArr [JObj [("text", JStr "long")]])])]
                    [("hashtags", JArr [JObj [("text", JStr "long")]])]
                    (JArr [JObj [("text", JStr "long")]]) eq_refl eq_refl eq_refl)
             [("hashtags", JArr []); ("symbols", JArr [JObj [("text", JStr "IBM")]])]
             (JArr []) (JArr [JObj [("text", JStr "IBM")]]));
      reflexivity.
Defined.

(** ** Geometry *)



Lemma rings_str_empty_ring (good rest : list json) (i : nat) :
  Forall is_ring good -> rings_str i (good ++ JArr [] :: rest) = Err IndexError.
Proof.
  intros Hgood. revert i. induction Hgood as [|r good Hr _ IH]; intros i.
  - reflexivity.
  - cbn [app rings_str]. rewrite (ring_str_closed Hr). cbn [rbind]. now rewrite IH.
Qed.

(** X8. A ring without vertices is not absorbed: closing it subscripts
    [poly[0]], and the [IndexError] leaves the geometry code, wherever the
    ring stands among well-formed rings and whatever the author's location
    sharing is. *)
Theorem empty_ring_raises (fields place box : list (string * json)) (g : json)
    (good rest : list json) :
  assoc "geo" fields = Some g -> unsubscriptable g = true ->
  assoc "place" fields = Some (JObj place) ->
  assoc "bounding_box" place = Some (JObj box) ->
  assoc "coordinates" box = Some (JArr (good ++ JArr [] :: rest)) ->
  Forall is_ring good ->
  normalize_geo (JObj fields) = Err IndexError.
Proof.
  intros Hg Hu Hp Hb Hc Hgood. rewrite (geo_point_falls_through _ Hg Hu).
  unfold geo_polygon. cbn [getitem rbind]. rewrite Hp. cbn [getitem rbind]. rewrite Hb.
  cbn [getitem rbind]. rewrite Hc. cbn [iter rbind].
  now rewrite (rings_str_empty_ring rest 0 Hgood).
Qed.

Lemma empty_ring_raises_witness :
  normalize_geo
    (JObj [("geo", JNull);
           ("place", JObj [("bounding_box", JObj [("coordinates", JArr [JArr []])])]);
           ("user", JObj [("geo_enabled", JBool true)])])
  = Err IndexError.
Proof.
  apply (@empty_ring_raises
           [("geo", JNull);
            ("place", JObj [("bounding_box", JObj [("coordinates", JArr [JArr []])])]);
            ("user", JObj [("geo_enabled", JBool true)])]
           [("bounding_box", JObj [("coordinates", JArr [JArr []])])]
           [("coordinates", JArr [JArr []])] JNull [] []); try reflexivity.
  constructor.
Defined.

(** ** What a load does to the store *)

Lemma rows_kept_refl (t : tables) : rows_kept t t.
Proof. repeat split; auto using incl_refl. Qed.

Lemma rows_kept_trans (t1 t2 t3 : tables) :
  rows_kept t1 t2 -> rows_kept t2 t3 -> rows_kept t1 t3.
Proof.
  intros (A1 & A2 & A3 & A4 & A5 & A6 & A7) (B1 & B2 & B3 & B4 & B5 & B6 & B7).
  repeat split; eauto using incl_tran.
Qed.

Lemma run_rows_kept (q : stmt) (seq : Z) (t t' : tables) (res : option row) :
  run q seq t = OK (t', res) -> rows_kept t t'.
Proof.
  intros Hrun.
  destruct q; run_inv Hrun; try apply rows_kept_refl;
    unfold rows_kept;
    cbn [urls users tweets tweet_urls tweet_mentions tweet_tags tweet_media
         set_urls set_users set_tweets set_tweet_urls set_tweet_mentions
         set_tweet_tags set_tweet_media];
    repeat split; auto using incl_refl, incl_tl, has_key_cons.
  all: intros k' Hk'; now rewrite has_key_update.
Qed.

Lemma stable_rows_kept (t0 : tables) : stable (fun db => rows_kept t0 (cur db)).
Proof.
  intros q db Hkept. unfold pg_execute.
  destruct (run q (urls_seq db) (cur db)) as [[t res]|e] eqn:Hrun; cbn [fst cur];
    [|exact Hkept].
  eapply rows_kept_trans; [exact Hkept|]. eapply run_rows_kept; eauto.
Qed.

Lemma execute_rows_kept (q : stmt) (db : pg) :
  rows_kept (cur db) (cur (fst (pg_execute q db))).
Proof. apply (@stable_rows_kept (cur db) q db), rows_kept_refl. Qed.

(** X9. A load removes nothing, however it ends: every row of [urls],
    [tweets] and the association tables that was in the store is in it
    afterwards, unchanged, and every user that had a row has one. *)
Theorem insert_tweet_keeps_rows (tweet : json) (db : pg) :
  rows_kept (cur db) (cur (fst (insert_tweet tweet db))).
Proof.
  unfold insert_tweet, with_begin.
  pose proof (insert_tweet_body_stable (@stable_rows_kept (cur db)) tweet (begin db)
                (rows_kept_refl (cur db))) as Hbody.
  pose proof (insert_tweet_body_saved tweet (begin db)) as Hsaved.
  destruct (insert_tweet_body tweet (begin db)) as [c [[]|e]]; cbn [fst] in *.
  - exact Hbody.
  - cbn [rollback pg_connection pg_rollback cur]. rewrite Hsaved. apply rows_kept_refl.
Qed.

Lemma insert_tweet_store_ok_witness :
  store_ok (fst (insert_tweet tweet_mentioning empty_pg)).
Proof. apply insert_tweet_store_ok. exact (proj1 store_ok_empty). Defined.

Lemma insert_tweet_fk_closed_witness :
  fk_closed (cur (fst (insert_tweet tweet_mentioning empty_pg))).
Proof. apply insert_tweet_fk_closed. repeat split; constructor. Defined.

(** ** Withheld tweets *)

Lemma users_data_withheld (tweet user link : json) (l : list json) :
  get tweet "withheld_in_countries" JNull = OK (JArr l) ->
  forall d, users_data tweet user link <> OK d.
Proof.
  intros Hw d Hd. unfold users_data in Hd. rewrite Hw in Hd.
  rbind_inv Hd. cbn [rbind remove_nulls] in *. discriminate.
Qed.

Lemma insert_user_withheld {C} `{Connection C} (tweet : json) (l : list json) (c : C) :
  get tweet "withheld_in_countries" JNull = OK (JArr l) ->
  exists e, snd (insert_user tweet c) = Err e.
Proof.
  intros Hw. unfold insert_user, bind, lift.
  destruct (rbind (getitem tweet "user") _) as [url|e]; [|simpl; eauto].
  destruct ((if is_None url then ret JNull else get_id_urls url) c) as [c1 [link|e]];
    [|simpl; eauto].
  destruct (get tweet "user" (JObj [])) as [user|e]; [|simpl; eauto].
  destruct (getitem user "id") as [id_users|e]; [|simpl; eauto].
  destruct (execute (sql_check_user_id id_users) c1) as [c2 [res|e]]; [|simpl; eauto].
  destruct (users_data tweet user link) as [d|e] eqn:Hd; [|simpl; eauto].
  exfalso. eapply users_data_withheld; eauto.
Qed.

(** X12. A record whose [withheld_in_countries] is a list is never loaded:
    the dictionary for [users] passes the list to [remove_nulls], which
    raises.  [insert_tweet] succeeds on such a record only by skipping it,
    when the row of the tweet is already there, and then it changes
    nothing. *)
Theorem withheld_list_never_loads (tweet : json) (l : list json) (db db' : pg) :
  get tweet "withheld_in_countries" JNull = OK (JArr l) ->
  insert_tweet tweet db = (db', OK tt) ->
  exists k, getitem tweet "id" = OK (JInt k) /\ tweet_present k db /\ db' = pg_commit db.
Proof.
  intros Hw. unfold insert_tweet, with_begin, insert_tweet_body, bind, lift.
  destruct (getitem tweet "id") as [id_tweets|e]; [|discriminate].
  cbn [execute begin commit pg_connection].
  destruct (pg_execute (sql_select_tweets id_tweets) (pg_begin db)) as [c1 [res|e]] eqn:Hex;
    [|discriminate].
  apply pg_execute_ok in Hex as (Hrun & Hsaved & Hseq).
  apply run_select_tweets in Hrun as [Hcur Hfound].
  destruct (first_is_None res) eqn:Hnone.
  - unfold load_tweet, bind.
    destruct (insert_user_withheld tweet c1 Hw) as [e He].
    destruct (insert_user tweet c1) as [c2 [user|e']]; [discriminate|discriminate].
  - intros Heq. injection Heq as <-.
    destruct (Hfound eq_refl) as (k & -> & Hk). exists k.
    split; [reflexivity|]. split; [exact Hk|].
    unfold pg_commit. cbn [pg_begin cur urls_seq next_seq] in *. now rewrite Hcur, Hseq.
Qed.

Lemma withheld_list_never_loads_witness :
  let db := fst (insert_tweet tweet_hydrating empty_pg) in
  exists k, getitem tweet_withheld "id" = OK (JInt k) /\ tweet_present k db /\ db = pg_commit db.
Proof.
  apply (@withheld_list_never_loads tweet_withheld [JStr "DE"; JStr "FR"]); reflexivity.
Defined.

(** On a store without the tweet, the record fails with the exception of
    [remove_nulls] and leaves no row. *)
Example withheld_list_fails :
  insert_tweet tweet_withheld empty_pg = (empty_pg, Err (Py AttributeError)).
Proof. reflexivity. Qed.

(** ** The rows a load writes *)

Lemma hoare_any {C A} (P : C -> Prop) (m : M C A) :
  hoare P m (fun _ _ => True) (fun _ _ => True).
Proof. intros c _. destruct (m c) as [c' [a|e]]; exact I. Qed.

Lemma preserves_hoare {C A} (J : C -> Prop) (m : M C A) :
  preserves J m -> hoare J m (fun _ => J) (fun _ _ => True).
Proof.
  intros Hm c Hc. specialize (Hm c Hc). destruct (m c) as [c' [a|e]]; [exact Hm|exact I].
Qed.

(** A pure step of a triple whose exceptional postcondition is trivial. *)
Tactic Notation "hp" ident(x) ident(Hx) :=
  apply hoare_bind_lift; [intros; exact I | intros x Hx].

(** The row of [urls] behind the identity either statement of the resolver
    returns. *)
Lemma run_insert_urls_row (v : json) seq t t' res :
  run (sql_insert_urls v) seq t = OK (t', res) ->
  first_is_None res = false ->
  exists id u, row_0 res = OK (JInt id) /\ as_text v = OK u /\ In (id, u) (urls t').
Proof.
  intros Hrun. run_inv Hrun; simpl; try discriminate; intros _;
    try match goal with Hs : contains NUL _ = false |- _ => rewrite Hs end;
    do 2 eexists; (split; [reflexivity|split; [reflexivity|now left]]).
Qed.

Lemma run_select_urls_row (v : json) seq t t' res :
  run (sql_select_urls v) seq t = OK (t', res) ->
  first_is_None res = false ->
  exists id u, row_0 res = OK (JInt id) /\ as_text v = OK u /\ In (id, u) (urls t').
Proof.
  intros Hrun. run_inv Hrun; simpl; try discriminate.
  destruct (find (url_is s) (urls t)) as [r|] eqn:Hf; simpl; [|discriminate].
  intros _. apply find_some in Hf as [Hin Hr]. apply url_is_inv in Hr.
  match goal with Hs : contains NUL _ = false |- _ => rewrite Hs end.
  exists (fst r), (Some s). rewrite <- Hr. auto.
Qed.

Lemma get_id_urls_row (url : json) :
  hoare (fun _ : pg => True) (get_id_urls url)
        (fun v db => exists id u,
                       v = JInt id /\ as_text url = OK u /\ In (id, u) (urls (cur db)))
        (fun _ _ => True).
Proof.
  unfold get_id_urls.
  apply hoare_bind with
    (R := fun res db => first_is_None res = false ->
                        exists id u, row_0 res = OK (JInt id) /\ as_text url = OK u /\
                                     In (id, u) (urls (cur db))).
  { apply hoare_execute. intros db _.
    destruct (pg_execute _ db) as [db' [res|e]] eqn:Hex; [|exact I].
    apply pg_execute_ok in Hex as (Hrun & _ & _). intros Hn. eapply run_insert_urls_row; eauto. }
  intros res. destruct (first_is_None res) eqn:Hnone.
  - apply hoare_bind with
      (R := fun res db => first_is_None res = false ->
                          exists id u, row_0 res = OK (JInt id) /\ as_text url = OK u /\
                                       In (id, u) (urls (cur db))).
    { apply hoare_execute. intros db _.
      destruct (pg_execute _ db) as [db' [res'|e]] eqn:Hex; [|exact I].
      apply pg_execute_ok in Hex as (Hrun & _ & _). intros Hn. eapply run_select_urls_row; eauto. }
    intros res'. destruct (first_is_None res') eqn:Hnone'.
    + destruct res'; [discriminate|]. hp v Hv. discriminate.
    + hp v Hv. apply hoare_ret. intros db Hdb.
      destruct (Hdb eq_refl) as (id & u & Hrow & Hu & Hin).
      exists id, u. split; [congruence|auto].
  - apply hoare_bind with
      (R := fun res' db => res' = res /\
                           exists id u, row_0 res = OK (JInt id) /\ as_text url = OK u /\
                                        In (id, u) (urls (cur db))).
    { apply hoare_ret. intros db Hdb. split; [reflexivity|now apply Hdb]. }
    intros res'. hp v Hv.
    apply hoare_ret. intros db (-> & id & u & Hrow & Hu & Hin).
    exists id, u. split; [congruence|auto].
Qed.

Lemma row_of_head {V} (k : Z) (v : V) (l : list (Z * V)) :
  row_of k ((k, v) :: l) = Some v.
Proof. unfold row_of. simpl. now rewrite Z.eqb_refl. Qed.

Lemma row_of_update_same {V} (k : Z) (v : V) (l : list (Z * V)) :
  has_key k l = true -> row_of k (update_key k v l) = Some v.
Proof.
  unfold has_key, row_of, update_key.
  induction l as [|[a b] l IH]; simpl; [discriminate|].
  destruct (Z.eqb_spec a k) as [->|Ha]; simpl.
  - now rewrite Z.eqb_refl.
  - intros Hk. destruct (Z.eqb_spec a k); [contradiction|]. now apply IH.
Qed.

Lemma row_of_none {V} (k : Z) (l : list (Z * V)) :
  has_key k l = false -> row_of k l = None.
Proof.
  unfold has_key, row_of. induction l as [|r l IH]; simpl; [reflexivity|].
  destruct (Z.eqb (fst r) k); simpl; [discriminate|exact IH].
Qed.

Lemma run_check_user_id_none (v : json) (k : Z) seq t t' res :
  run (sql_check_user_id v) seq t = OK (t', res) ->
  v = JInt k -> first_is_None res = negb (has_key k (users t)).
Proof.
  intros Hrun ->. cbn in Hrun. injection Hrun as <- <-.
  now destruct (has_key k (users t)).
Qed.

Lemma run_insert_row (v : json) (d : users_cols) seq t t' res :
  run (sql_insert v d) seq t = OK (t', res) ->
  exists k, v = JInt k /\
    (has_key k (users t) = true /\ t' = t \/
     has_key k (users t) = false /\ users t' = (k, d) :: users t).
Proof.
  intros Hrun. run_inv Hrun; eexists; (split; [reflexivity|]);
    first [left; split; [assumption|reflexivity] | right; split; [assumption|reflexivity]].
Qed.

Lemma run_update_row (v : json) (d : users_cols) (k : Z) seq t t' res :
  run (sql_update v d) seq t = OK (t', res) ->
  v = JInt k -> has_key k (users t) = true ->
  users t' = update_key k d (users t).
Proof.
  intros Hrun -> Hk. run_inv Hrun; try congruence; reflexivity.
Qed.

Lemma stable_link_of (url link : json) : stable (fun db => link_of url link (cur db)).
Proof.
  intros q db. unfold link_of. destruct (is_None url); [auto|].
  intros (id & u & Hl & Hu & Hin). exists id, u. split; [exact Hl|]. split; [exact Hu|].
  now apply (execute_rows_kept q db).
Qed.

(** Lines 108-182: when [insert_user] returns, the row of the posting user
    holds the columns of this record, whether it was inserted or updated,
    and its link is the one resolved for the URL of the user. *)
Lemma insert_user_writes (tweet : json) :
  hoare (fun _ : pg => True) (insert_user tweet)
        (fun user db =>
           get tweet "user" (JObj []) = OK user /\
           exists url uid link d,
             getitem user "url" = OK url /\
             link_of url link (cur db) /\
             users_data tweet user link = OK (JInt uid, d) /\
             row_of uid (users (cur db)) = Some d)
        (fun _ _ => True).
Proof.
  unfold insert_user.
  apply hoare_bind_lift; [intros; exact I|]. intros url Hurl.
  apply hoare_bind with (R := fun link db => link_of url link (cur db)).
  { unfold link_of. destruct (is_None url).
    - apply hoare_ret. auto.
    - apply get_id_urls_row. }
  intros link.
  hp user Huser.
  assert (Huserurl : getitem user "url" = OK url).
  { destruct (getitem tweet "user") as [u|e] eqn:Hu; [|discriminate].
    apply (getitem_get _ _ (JObj [])) in Hu. cbn [rbind] in Hurl. congruence. }
  hp id_users Hid.
  apply hoare_bind with
    (R := fun res db =>
            link_of url link (cur db) /\
            (first_is_None res = false -> exists k, id_users = JInt k) /\
            (forall k, id_users = JInt k ->
                       first_is_None res = negb (has_key k (users (cur db))))).
  { apply hoare_execute. intros db Hlink.
    pose proof (@stable_link_of url link (sql_check_user_id id_users) db Hlink) as Hkept.
    destruct (pg_execute _ db) as [db' [res|e]] eqn:Hex; [|exact I].
    apply pg_execute_ok in Hex as (Hrun & _ & _).
    destruct (run_check_user_id _ _ _ Hrun) as [Heq Hfound].
    split; [exact Hkept|]. split.
    - intros Hsome. destruct (Hfound Hsome) as (k & Hk & _). eauto.
    - intros k Hk. rewrite Heq. eapply run_check_user_id_none; eauto. }
  intros res.
  hp data Hdata. destruct data as [v d].
  destruct (users_data_inv _ _ _ Hdata) as [Hget _].
  apply (getitem_get _ _ JNull) in Hid.
  assert (v = id_users) by congruence. subst v. cbn [fst snd].
  apply hoare_bind with
    (R := fun _ db => link_of url link (cur db) /\
                      exists uid, id_users = JInt uid /\
                                  row_of uid (users (cur db)) = Some d).
  { apply hoare_execute. intros db (Hlink & Hsome & Hnone).
    pose proof (fun q => @stable_link_of url link q db Hlink) as Hkept.
    specialize (Hkept (if first_is_None res then sql_insert id_users d
                       else sql_update id_users d)).
    destruct (pg_execute _ db) as [db' [r|e]] eqn:Hex; [|exact I].
    split; [exact Hkept|].
    apply pg_execute_ok in Hex as (Hrun & _ & _).
    destruct (first_is_None res) eqn:Hres.
    - apply run_insert_row in Hrun as (k & -> & [[Hk _]|[_ Hrows]]).
      + specialize (Hnone k eq_refl). rewrite Hk in Hnone. discriminate.
      + exists k. split; [reflexivity|]. rewrite Hrows. apply row_of_head.
    - destruct (Hsome eq_refl) as [k ->]. specialize (Hnone k eq_refl).
      destruct (has_key k (users (cur db))) eqn:Hk; [|discriminate].
      exists k. split; [reflexivity|].
      apply run_update_row with (k := k) in Hrun; [|reflexivity|exact Hk].
      rewrite Hrun. now apply row_of_update_same. }
  intros ?. apply hoare_ret. intros db (Hlink & uid & -> & Hrow).
  split; [exact Huser|]. exists url, uid, link, d. auto.
Qed.

Lemma execute_keeps_user_row (k : Z) (cols : users_cols) (q : stmt) :
  is_update q = false ->
  preserves (fun db : pg => row_of k (users (cur db)) = Some cols) (execute q).
Proof. intros Hq. apply pg_execute_spares. destruct q; try exact I. discriminate. Qed.

(** Lines 188-426: nothing that follows the write of the posting user's
    row changes it. *)
Lemma after_insert_user_keeps_row (k : Z) (cols : users_cols) (tweet user : json) :
  preserves (fun db : pg => row_of k (users (cur db)) = Some cols)
            (bind (insert_tweets_row tweet user) (fun _ =>
             bind (insert_tweet_urls tweet) (fun _ =>
             bind (insert_tweet_mentions tweet) (fun _ =>
             bind (insert_tweet_tags tweet) (fun _ =>
             insert_tweet_media tweet))))).
Proof.
  pose proof (@execute_keeps_user_row k cols) as Hstep.
  apply preserves_bind;
    [apply insert_tweets_row_preserves with (allowed := fun q => is_update q = false); auto
    |intros _].
  apply preserves_bind;
    [apply insert_tweet_urls_preserves with (allowed := fun q => is_update q = false); auto
    |intros _].
  apply preserves_bind;
    [apply insert_tweet_mentions_preserves with (allowed := fun q => is_update q = false); auto
    |intros _].
  apply preserves_bind;
    [apply insert_tweet_tags_preserves with (allowed := fun q => is_update q = false); auto
    |intros _].
  apply insert_tweet_media_preserves with (allowed := fun q => is_update q = false); auto.
Qed.

Lemma after_insert_user_stable (J : pg -> Prop) (tweet user : json) :
  stable J ->
  preserves J
            (bind (insert_tweets_row tweet user) (fun _ =>
             bind (insert_tweet_urls tweet) (fun _ =>
             bind (insert_tweet_mentions tweet) (fun _ =>
             bind (insert_tweet_tags tweet) (fun _ =>
             insert_tweet_media tweet))))).
Proof.
  intros HJ.
  apply preserves_bind; [now apply insert_tweets_row_stable|intros _].
  apply preserves_bind; [now apply insert_tweet_urls_stable|intros _].
  apply preserves_bind; [now apply insert_tweet_mentions_stable|intros _].
  apply preserves_bind; [now apply insert_tweet_tags_stable|intros _].
  now apply insert_tweet_media_stable.
Qed.

(** The first lookup of a load on a store without the tweet. *)
Lemma insert_tweet_body_absent (tweet : json) (k : Z) (db : pg) :
  getitem tweet "id" = OK (JInt k) ->
  has_key k (tweets (cur db)) = false ->
  insert_tweet_body tweet db = load_tweet tweet db.
Proof.
  intros Hid Hnew. unfold insert_tweet_body, bind, lift. rewrite Hid.
  cbn [execute pg_connection]. unfold pg_execute.
  cbn [run as_bigint rbind find_key next_seq]. rewrite Hnew. cbn [first_is_None].
  now destruct db.
Qed.

(** X13. Hydration: when a load has written a tweet (the tweet was not in
    the store and the load succeeded), the row of its author holds exactly
    the columns of [users] that this record gives, whatever the row held
    before and whatever stubs the same load writes for the reply target and
    the mentions.  Its link is [None] when the URL of the user is null,
    and otherwise the identity of a row of [urls] that holds that URL. *)
Theorem poster_row_is_record (tweet : json) (k : Z) (db db' : pg) :
  getitem tweet "id" = OK (JInt k) ->
  has_key k (tweets (cur db)) = false ->
  insert_tweet tweet db = (db', OK tt) ->
  exists user url uid link d,
    get tweet "user" (JObj []) = OK user /\
    getitem user "url" = OK url /\
    link_of url link (cur db') /\
    users_data tweet user link = OK (JInt uid, d) /\
    row_of uid (users (cur db')) = Some d.
Proof.
  intros Hid Hnew. unfold insert_tweet, with_begin.
  rewrite (@insert_tweet_body_absent tweet k (begin db) Hid); [|exact Hnew].
  unfold load_tweet, bind at 1.
  pose proof (insert_user_writes tweet (c := begin db) I) as Huser.
  destruct (insert_user tweet (begin db)) as [c1 [user|e]]; [|discriminate].
  destruct Huser as (Huser & url & uid & link & d & Hurl & Hlink & Hd & Hrow).
  pose proof (@after_insert_user_keeps_row uid d tweet user c1 Hrow) as Hrest.
  pose proof (@after_insert_user_stable _ tweet user (@stable_link_of url link) c1 Hlink)
    as Hrest'.
  match type of Hrest with context [fst ?m] => destruct m as [c2 [[]|e]] end;
    [|discriminate].
  intros Heq. injection Heq as <-. exists user, url, uid, link, d. auto 10.
Qed.

Lemma poster_row_is_record_witness :
  exists user url uid link d,
    get tweet_linked "user" (JObj []) = OK user /\
    getitem user "url" = OK url /\
    link_of url link (cur (fst (insert_tweet tweet_linked empty_pg))) /\
    users_data tweet_linked user link = OK (JInt uid, d) /\
    row_of uid (users (cur (fst (insert_tweet tweet_linked empty_pg)))) = Some d.
Proof.
  apply (@poster_row_is_record tweet_linked 11 empty_pg); reflexivity.
Defined.

(** The link of that row is the identity of the row of the URL. *)
Example poster_row_link :
  let t := cur (fst (insert_tweet tweet_linked empty_pg)) in
  urls t = [(1, Some "http://example.org/u")] /\
  option_map u_id_urls (row_of 2 (users t)) = Some (JInt 1).
Proof. vm_compute. auto. Qed.

(** *** The row of the tweet *)

Lemma run_keeps_tweets (q : stmt) seq t t' res :
  is_in_tweets q = false -> run q seq t = OK (t', res) -> tweets t' = tweets t.
Proof.
  intros Hq Hrun. destruct q; try discriminate Hq; run_inv Hrun; reflexivity.
Qed.

Lemma execute_keeps_tweets (T : list (Z * tweets_cols)) (q : stmt) :
  is_in_tweets q = false ->
  preserves (fun db : pg => tweets (cur db) = T) (execute q).
Proof.
  intros Hq db Hdb. cbn [execute pg_connection]. unfold pg_execute.
  destruct (run q (urls_seq db) (cur db)) as [[t res]|e] eqn:Hrun; cbn [fst cur];
    [|exact Hdb].
  rewrite <- Hdb. eapply run_keeps_tweets; eauto.
Qed.

(** Closes the statements a walk leaves, none of which writes [tweets]. *)
Ltac keeps_tweets :=
  walk;
  repeat match goal with
         | |- preserves _ (execute (if ?b then _ else _)) => destruct b
         end;
  apply execute_keeps_tweets; reflexivity.

Section KeepsTweets.
Variable T : list (Z * tweets_cols).
Variable tweet : json.

Lemma get_id_urls_keeps_tweets (url : json) :
  preserves (fun db : pg => tweets (cur db) = T) (get_id_urls url).
Proof. unfold get_id_urls. keeps_tweets. Qed.

Lemma insert_user_keeps_tweets :
  preserves (fun db : pg => tweets (cur db) = T) (insert_user tweet).
Proof. unfold insert_user, get_id_urls. keeps_tweets. Qed.

Lemma insert_reply_target_keeps_tweets :
  preserves (fun db : pg => tweets (cur db) = T) (insert_reply_target tweet).
Proof. unfold insert_reply_target. keeps_tweets. Qed.

Lemma associations_keep_tweets :
  preserves (fun db : pg => tweets (cur db) = T)
            (bind (insert_tweet_urls tweet) (fun _ =>
             bind (insert_tweet_mentions tweet) (fun _ =>
             bind (insert_tweet_tags tweet) (fun _ =>
             insert_tweet_media tweet)))).
Proof.
  unfold insert_tweet_urls, insert_tweet_mentions, insert_tweet_tags,
    insert_tweet_media, get_id_urls.
  keeps_tweets.
Qed.
End KeepsTweets.

Lemma run_in_tweets_row (v : json) (d : tweets_cols) (k : Z) seq t t' res :
  run (sql_in_tweets v d) seq t = OK (t', res) ->
  v = JInt k -> has_key k (tweets t) = false ->
  tweets t' = (k, d) :: tweets t.
Proof.
  intros Hrun -> Hk. run_inv Hrun; try congruence; reflexivity.
Qed.

(** Lines 188-300: on a store without the tweet, [insert_tweets_row] adds
    one row to [tweets], with the columns the record gives. *)
Lemma insert_tweets_row_writes (tweet user : json) (k : Z) (T : list (Z * tweets_cols)) :
  getitem tweet "id" = OK (JInt k) ->
  has_key k T = false ->
  hoare (fun db : pg => tweets (cur db) = T) (insert_tweets_row tweet user)
        (fun _ db =>
           exists geo text cc sc pn d,
             normalize_geo tweet = OK geo /\
             tweet_text tweet = OK text /\
             tweet_country_code tweet = OK cc /\
             tweet_state_code tweet cc = OK sc /\
             tweet_place_name tweet = OK pn /\
             tweets_data tweet user text cc sc pn geo = OK (JInt k, d) /\
             tweets (cur db) = (k, d) :: T)
        (fun _ _ => True).
Proof.
  intros Hid Hnew. unfold insert_tweets_row.
  hp geo Hgeo. hp text Htext. hp cc Hcc. hp sc Hsc. hp pn Hpn.
  eapply hoare_bind;
    [apply preserves_hoare, insert_reply_target_keeps_tweets|intros ?; cbv beta].
  hp data Hdata. destruct data as [v d].
  destruct (tweets_data_inv _ _ _ _ _ _ _ Hdata) as (Hget & _ & _).
  apply (getitem_get _ _ JNull) in Hid.
  assert (v = JInt k) by congruence. subst v. cbn [fst snd].
  apply hoare_bind with (R := fun _ db => tweets (cur db) = (k, d) :: T).
  { apply hoare_execute. intros db Hdb.
    destruct (pg_execute _ db) as [db' [r|e]] eqn:Hex; [|exact I].
    apply pg_execute_ok in Hex as (Hrun & _ & _).
    apply run_in_tweets_row with (k := k) in Hrun; [|reflexivity|now rewrite Hdb].
    now rewrite Hrun, Hdb. }
  intros _. apply hoare_ret. intros db Hdb.
  exists geo, text, cc, sc, pn, d. auto 10.
Qed.

(** X14. A load that finds no row of the tweet and succeeds adds exactly
    one row to [tweets]: its key is [tweet['id']] and its columns are those
    the record gives (the geometry, text, country code, state code and
    place name computed from it); no other row of [tweets] is added,
    changed or removed. *)
Theorem tweet_row_is_record (tweet : json) (k : Z) (db db' : pg) :
  getitem tweet "id" = OK (JInt k) ->
  has_key k (tweets (cur db)) = false ->
  insert_tweet tweet db = (db', OK tt) ->
  exists user geo text cc sc pn d,
    get tweet "user" (JObj []) = OK user /\
    normalize_geo tweet = OK geo /\
    tweet_text tweet = OK text /\
    tweet_country_code tweet = OK cc /\
    tweet_state_code tweet cc = OK sc /\
    tweet_place_name tweet = OK pn /\
    tweets_data tweet user text cc sc pn geo = OK (JInt k, d) /\
    tweets (cur db') = (k, d) :: tweets (cur db).
Proof.
  intros Hid Hnew. unfold insert_tweet, with_begin.
  rewrite (@insert_tweet_body_absent tweet k (begin db) Hid); [|exact Hnew].
  unfold load_tweet, bind at 1.
  pose proof (insert_user_writes tweet (c := begin db) I) as Huser.
  pose proof (@insert_user_keeps_tweets (tweets (cur db)) tweet (begin db) eq_refl) as Hkept.
  destruct (insert_user tweet (begin db)) as [c1 [user|e]]; [|discriminate].
  destruct Huser as [Huser _]. cbn [fst] in Hkept. unfold bind at 1.
  pose proof (@insert_tweets_row_writes tweet user k _ Hid Hnew c1 Hkept) as Hrow.
  destruct (insert_tweets_row tweet user c1) as [c2 [[]|e]]; [|discriminate].
  destruct Hrow as (geo & text & cc & sc & pn & d & Hgeo & Htext & Hcc & Hsc & Hpn & Hd & Hrow).
  pose proof (@associations_keep_tweets _ tweet c2 Hrow) as Hrest.
  match type of Hrest with context [fst ?m] => destruct m as [c3 [[]|e]] end;
    [|discriminate].
  intros Heq. injection Heq as <-.
  exists user, geo, text, cc, sc, pn, d. cbn [fst] in Hrest. auto 10.
Qed.

Lemma tweet_row_is_record_witness :
  exists user geo text cc sc pn d,
    get tweet_mentioning "user" (JObj []) = OK user /\
    normalize_geo tweet_mentioning = OK geo /\
    tweet_text tweet_mentioning = OK text /\
    tweet_country_code tweet_mentioning = OK cc /\
    tweet_state_code tweet_mentioning cc = OK sc /\
    tweet_place_name tweet_mentioning = OK pn /\
    tweets_data tweet_mentioning user text cc sc pn geo = OK (JInt 22, d) /\
    tweets (cur (fst (insert_tweet tweet_mentioning empty_pg)))
    = (22, d) :: tweets (cur empty_pg).
Proof.
  apply (@tweet_row_is_record tweet_mentioning 22 empty_pg); reflexivity.
Defined.

(** ** The association rows a load writes *)

Lemma kept_stable (Q : tables -> Prop) : kept Q -> stable (fun db => Q (cur db)).
Proof. intros HQ q db Hdb. eapply HQ; [apply execute_rows_kept|exact Hdb]. Qed.

Lemma kept_and (Q1 Q2 : tables -> Prop) :
  kept Q1 -> kept Q2 -> kept (fun t => Q1 t /\ Q2 t).
Proof. intros H1 H2 t t' Ht [Ha Hb]. split; eauto. Qed.

Lemma kept_Forall {X} (R : X -> tables -> Prop) (l : list X) :
  (forall x, kept (R x)) -> kept (fun t => Forall (fun x => R x t) l).
Proof.
  intros HR t t' Ht Hl. apply Forall_forall. intros x Hx.
  apply (HR x t t' Ht). revert x Hx. now apply Forall_forall.
Qed.

Lemma kept_link_stored (k : Z) (url : json) : kept (fun t => link_stored k t url).
Proof.
  intros t t' (Hurls & _ & _ & Hlinks & _) (v & u & id & Hv & Hu & Hrow & Hlink).
  exists v, u, id. auto.
Qed.

Lemma kept_mention_stored (k : Z) (mention : json) :
  kept (fun t => mention_stored k t mention).
Proof.
  intros t t' (_ & Husers & _ & _ & Hmentions & _) (uid & Hid & Huser & Hrow).
  exists uid. auto.
Qed.

Lemma kept_tag_stored (k : Z) (tag : json) : kept (fun t => tag_stored k t tag).
Proof.
  intros t t' (_ & _ & _ & _ & _ & Htags & _) (g & Hg & Hrow). exists g. auto.
Qed.

Lemma kept_medium_stored (k : Z) (medium : json) :
  kept (fun t => medium_stored k t medium).
Proof.
  intros t t' (Hurls & _ & _ & _ & _ & _ & Hmedia) (v & u & id & ty & Hv & Hu & Hrow & Hm).
  exists v, u, id, ty. auto.
Qed.

(** A triple from [True] next to an invariant. *)
Lemma hoare_keep {A} (J : pg -> Prop) (m : M pg A) (Q : A -> pg -> Prop) :
  preserves J m ->
  hoare (fun _ => True) m Q (fun _ _ => True) ->
  hoare J m (fun a db => J db /\ Q a db) (fun _ _ => True).
Proof.
  intros HJ Hm. eapply hoare_weaken; [apply (hoare_frame HJ Hm)| |]; cbv beta; intuition.
Qed.

(** A loop whose body establishes, for its element, a fact that more rows
    cannot falsify: the fact holds of every element when the loop ends. *)
Lemma hoare_for_each_kept {X} (R : X -> tables -> Prop) (l : list X)
    (body : X -> M pg unit) :
  (forall x, kept (R x)) ->
  (forall x (J : pg -> Prop), stable J -> preserves J (body x)) ->
  (forall x, hoare (fun _ => True) (body x) (fun _ db => R x (cur db)) (fun _ _ => True)) ->
  hoare (fun _ => True) (for_each l body)
        (fun _ db => Forall (fun x => R x (cur db)) l) (fun _ _ => True).
Proof.
  intros HR Hpres Hbody. induction l as [|x l IH]; cbn [for_each].
  - apply hoare_ret. intros; constructor.
  - eapply hoare_bind; [apply Hbody|]. intros ?. cbv beta.
    eapply hoare_weaken;
      [apply (@hoare_keep unit (fun db => R x (cur db)) (for_each l body)
                (fun _ db => Forall (fun y => R y (cur db)) l))| |].
    + apply preserves_for_each. intros y. apply Hpres, kept_stable, HR.
    + exact IH.
    + auto.
    + intros _ db [Hx Hl]. now constructor.
Qed.

Lemma pair_in_In (a b : Z) (l : list (Z * Z)) : pair_in a b l = true -> In (a, b) l.
Proof.
  unfold pair_in. intros He. apply existsb_exists in He as ([x y] & Hin & Heq).
  apply andb_prop in Heq as [Hx Hy]. apply Z.eqb_eq in Hx, Hy. simpl in *. now subst.
Qed.

Lemma tag_in_In (a : Z) (g : string) (l : list (Z * string)) :
  tag_in a g l = true -> In (a, g) l.
Proof.
  unfold tag_in. intros He. apply existsb_exists in He as ([x y] & Hin & Heq).
  apply andb_prop in Heq as [Hx Hy]. apply Z.eqb_eq in Hx. apply String.eqb_eq in Hy.
  simpl in *. now subst.
Qed.

Lemma has_pair_In {V} (a b : Z) (l : list (Z * Z * V)) :
  has_pair a b l = true -> exists v, In (a, b, v) l.
Proof.
  unfold has_pair. intros He. apply existsb_exists in He as ([[x y] v] & Hin & Heq).
  apply andb_prop in Heq as [Hx Hy]. apply Z.eqb_eq in Hx, Hy. simpl in *. subst. eauto.
Qed.

(** What each insert into an association table leaves, when it succeeds. *)
Lemma run_in_tweet_urls_row (v w : json) seq t t' res :
  run (sql_in_tweet_urls v w) seq t = OK (t', res) ->
  exists a b, v = JInt a /\ w = JInt b /\ In (a, b) (tweet_urls t') /\ urls t' = urls t.
Proof.
  intros Hrun. run_inv Hrun; do 2 eexists;
    (split; [reflexivity|split; [reflexivity|split; [|reflexivity]]]);
    first [now apply pair_in_In | now left].
Qed.

Lemma run_into_tweet_mentions_row (v w : json) seq t t' res :
  run (sql_into_tweet_mentions v w) seq t = OK (t', res) ->
  exists a b, v = JInt a /\ w = JInt b /\ In (a, b) (tweet_mentions t') /\ users t' = users t.
Proof.
  intros Hrun. run_inv Hrun; do 2 eexists;
    (split; [reflexivity|split; [reflexivity|split; [|reflexivity]]]);
    first [now apply pair_in_In | now left].
Qed.

Lemma run_into_tags_row (v w : json) seq t t' res :
  run (sql_into_tags v w) seq t = OK (t', res) ->
  exists a g, v = JInt a /\ w = JStr g /\ In (a, g) (tweet_tags t').
Proof.
  intros Hrun. run_inv Hrun; do 2 eexists;
    (split; [reflexivity|split; [reflexivity|]]);
    first [now apply tag_in_In | now left].
Qed.

Lemma run_into_media_row (v w type : json) seq t t' res :
  run (sql_into_media v w type) seq t = OK (t', res) ->
  exists a b ty, v = JInt a /\ w = JInt b /\ In (a, b, ty) (tweet_media t') /\
                 urls t' = urls t.
Proof.
  intros Hrun. run_inv Hrun.
  - match goal with
    | Hp : has_pair _ _ _ = true |- _ => apply has_pair_In in Hp as [ty Hty]
    end.
    exists z, z0, ty. auto.
  - exists z, z0, type. repeat split. now left.
Qed.

(** Closes the invariance of a loop body under a stable assertion. *)
Ltac body_stable :=
  let J := fresh "J" in
  let HJ := fresh "HJ" in
  intros ? J HJ; unfold get_id_urls; walk;
  let c := fresh "c" in
  let Hc := fresh "Hc" in
  intros c Hc; apply HJ; exact Hc.

(** Lines 306-325. *)
Lemma insert_tweet_urls_writes (tweet : json) (k : Z) :
  getitem tweet "id" = OK (JInt k) ->
  hoare (fun _ : pg => True) (insert_tweet_urls tweet)
        (fun _ db => exists urls l,
                       entities tweet "urls" = OK urls /\ iter urls = OK l /\
                       Forall (link_stored k (cur db)) l)
        (fun _ _ => True).
Proof.
  intros Hid. apply (getitem_get _ _ JNull) in Hid. unfold insert_tweet_urls.
  hp urls Hurls. hp id_tweet Hid'. assert (id_tweet = JInt k) by congruence. subst id_tweet.
  hp l Hl.
  eapply hoare_weaken;
    [apply hoare_for_each_kept with (R := fun url t => link_stored k t url)|auto|].
  - intros url. apply kept_link_stored.
  - body_stable.
  - intros url. hp v Hv.
    eapply hoare_bind; [apply get_id_urls_row|]. intros w. cbv beta.
    apply hoare_bind with (R := fun _ db => link_stored k (cur db) url).
    { apply hoare_execute. intros db (id & u & -> & Hu & Hin).
      destruct (pg_execute _ db) as [db' [r|e]] eqn:Hex; [|exact I].
      apply pg_execute_ok in Hex as (Hrun & _ & _).
      apply run_in_tweet_urls_row in Hrun as (x & y & Ha & Hb & Hrow & Hsame).
      injection Ha as <-. injection Hb as <-.
      exists v, u, id. rewrite Hsame. auto. }
    intros ?. apply hoare_ret. auto.
  - intros ? db Hall. exists urls, l. auto.
Qed.

(** Lines 330-371. *)
Lemma insert_tweet_mentions_writes (tweet : json) (k : Z) :
  getitem tweet "id" = OK (JInt k) ->
  hoare (fun _ : pg => True) (insert_tweet_mentions tweet)
        (fun _ db => exists mentions l,
                       entities tweet "user_mentions" = OK mentions /\
                       iter mentions = OK l /\
                       Forall (mention_stored k (cur db)) l)
        (fun _ _ => True).
Proof.
  intros Hid. apply (getitem_get _ _ JNull) in Hid. unfold insert_tweet_mentions.
  hp mentions Hm. hp l Hl.
  eapply hoare_weaken;
    [apply hoare_for_each_kept with (R := fun mention t => mention_stored k t mention)|auto|].
  - intros mention. apply kept_mention_stored.
  - body_stable.
  - intros mention. hp id_users Hu. hp screen_name Hs. hp name Hn.
    apply hoare_bind with
      (R := fun _ db => exists uid, id_users = JInt uid /\
                                    has_key uid (users (cur db)) = true).
    { apply hoare_execute. intros db _.
      destruct (pg_execute _ db) as [db' [r|e]] eqn:Hex; [|exact I].
      apply pg_execute_ok in Hex as (Hrun & _ & _). now apply run_id_users_insert in Hrun. }
    intros ?. hp id_tweets Hid'. assert (id_tweets = JInt k) by congruence. subst id_tweets.
    hp id_users' Hu'. assert (id_users' = id_users) by congruence. subst id_users'.
    apply hoare_bind with (R := fun _ db => mention_stored k (cur db) mention).
    { apply hoare_execute. intros db (uid & -> & Huser).
      destruct (pg_execute _ db) as [db' [r|e]] eqn:Hex; [|exact I].
      apply pg_execute_ok in Hex as (Hrun & _ & _).
      apply run_into_tweet_mentions_row in Hrun as (x & y & Ha & Hb & Hrow & Hsame).
      injection Ha as <-. injection Hb as <-.
      exists uid. rewrite Hsame. auto. }
    intros ?. apply hoare_ret. auto.
  - intros ? db Hall. exists mentions, l. auto.
Qed.

(** Lines 376-397. *)
Lemma insert_tweet_tags_writes (tweet : json) (k : Z) :
  getitem tweet "id" = OK (JInt k) ->
  hoare (fun _ : pg => True) (insert_tweet_tags tweet)
        (fun _ db => exists containers tags,
                       tweet_tags_entities tweet = OK containers /\
                       tweet_tags_list (fst containers) (snd containers) = OK tags /\
                       Forall (tag_stored k (cur db)) tags)
        (fun _ _ => True).
Proof.
  intros Hid. apply (getitem_get _ _ JNull) in Hid. unfold insert_tweet_tags.
  hp containers Hc. hp tags Ht.
  eapply hoare_weaken;
    [apply hoare_for_each_kept with (R := fun tag t => tag_stored k t tag)|auto|].
  - intros tag. apply kept_tag_stored.
  - body_stable.
  - intros tag. hp id_tweets Hid'. assert (id_tweets = JInt k) by congruence. subst id_tweets.
    hp tag' Htag.
    apply hoare_bind with (R := fun _ db => tag_stored k (cur db) tag).
    { apply hoare_execute. intros db _.
      destruct (pg_execute _ db) as [db' [r|e]] eqn:Hex; [|exact I].
      apply pg_execute_ok in Hex as (Hrun & _ & _).
      apply run_into_tags_row in Hrun as (x & g & Ha & -> & Hrow).
      injection Ha as <-. exists g. auto. }
    intros ?. apply hoare_ret. auto.
  - intros ? db Hall. exists containers, tags. auto.
Qed.

(** Lines 403-426. *)
Lemma insert_tweet_media_writes (tweet : json) (k : Z) :
  getitem tweet "id" = OK (JInt k) ->
  hoare (fun _ : pg => True) (insert_tweet_media tweet)
        (fun _ db => exists media l,
                       tweet_media_list tweet = OK media /\ iter media = OK l /\
                       Forall (medium_stored k (cur db)) l)
        (fun _ _ => True).
Proof.
  intros Hid. apply (getitem_get _ _ JNull) in Hid. unfold insert_tweet_media.
  hp media Hm. hp l Hl.
  eapply hoare_weaken;
    [apply hoare_for_each_kept with (R := fun medium t => medium_stored k t medium)|auto|].
  - intros medium. apply kept_medium_stored.
  - body_stable.
  - intros medium. hp v Hv.
    eapply hoare_bind; [apply get_id_urls_row|]. intros w. cbv beta.
    hp id_tweets Hid'. assert (id_tweets = JInt k) by congruence. subst id_tweets.
    hp type Htype.
    apply hoare_bind with (R := fun _ db => medium_stored k (cur db) medium).
    { apply hoare_execute. intros db (id & u & -> & Hu & Hin).
      destruct (pg_execute _ db) as [db' [r|e]] eqn:Hex; [|exact I].
      apply pg_execute_ok in Hex as (Hrun & _ & _).
      apply run_into_media_row in Hrun as (x & y & ty & Ha & Hb & Hrow & Hsame).
      injection Ha as <-. injection Hb as <-.
      exists v, u, id, ty. rewrite Hsame. auto. }
    intros ?. apply hoare_ret. auto.
  - intros ? db Hall. exists media, l. auto.
Qed.

Lemma kept_True : kept (fun _ => True).
Proof. intros t t' _ _. exact I. Qed.

(** Lines 105-426: what the four loops leave is there when the load
    ends. *)
Lemma load_tweet_associations (tweet : json) (Q1 Q2 Q3 Q4 : tables -> Prop) :
  kept Q1 -> kept Q2 -> kept Q3 ->
  hoare (fun _ : pg => True) (insert_tweet_urls tweet)
        (fun _ db => Q1 (cur db)) (fun _ _ => True) ->
  hoare (fun _ : pg => True) (insert_tweet_mentions tweet)
        (fun _ db => Q2 (cur db)) (fun _ _ => True) ->
  hoare (fun _ : pg => True) (insert_tweet_tags tweet)
        (fun _ db => Q3 (cur db)) (fun _ _ => True) ->
  hoare (fun _ : pg => True) (insert_tweet_media tweet)
        (fun _ db => Q4 (cur db)) (fun _ _ => True) ->
  hoare (fun _ : pg => True) (load_tweet tweet)
        (fun _ db => Q1 (cur db) /\ Q2 (cur db) /\ Q3 (cur db) /\ Q4 (cur db))
        (fun _ _ => True).
Proof.
  intros K1 K2 K3 H1 H2 H3 H4. unfold load_tweet.
  apply hoare_bind with (R := fun _ _ => True); [apply hoare_any|]. intros user.
  apply hoare_bind with (R := fun _ _ => True); [apply hoare_any|]. intros ?.
  eapply hoare_bind; [exact H1|]. intros ?. cbv beta.
  eapply hoare_bind.
  { apply hoare_keep; [|exact H2]. apply insert_tweet_mentions_stable, kept_stable, K1. }
  intros ?. cbv beta.
  eapply hoare_bind.
  { apply hoare_keep; [|exact H3].
    apply insert_tweet_tags_stable.
    apply (@kept_stable (fun t => Q1 t /\ Q2 t)), kept_and; assumption. }
  intros ?. cbv beta.
  eapply hoare_weaken.
  { apply hoare_keep; [|exact H4].
    apply insert_tweet_media_stable.
    apply (@kept_stable (fun t => (Q1 t /\ Q2 t) /\ Q3 t)).
    repeat apply kept_and; assumption. }
  - auto.
  - cbv beta. intuition.
Qed.

(** What a load that wrote the tweet establishes holds of the store it
    leaves. *)
Lemma insert_tweet_loaded (tweet : json) (k : Z) (db db' : pg) (Q : tables -> Prop) :
  getitem tweet "id" = OK (JInt k) ->
  has_key k (tweets (cur db)) = false ->
  insert_tweet tweet db = (db', OK tt) ->
  hoare (fun _ : pg => True) (load_tweet tweet) (fun _ db => Q (cur db)) (fun _ _ => True) ->
  Q (cur db').
Proof.
  intros Hid Hnew Hload Hq. unfold insert_tweet, with_begin in Hload.
  rewrite (@insert_tweet_body_absent tweet k (begin db) Hid) in Hload; [|exact Hnew].
  specialize (Hq (begin db) I).
  destruct (load_tweet tweet (begin db)) as [c [[]|e]]; [|discriminate].
  injection Hload as <-. exact Hq.
Qed.

(** X15. When a load has written a tweet, every link of the record (the
    elements of [urls] in the entities the fallback chain selects) has a
    row of [urls] holding its [expanded_url], and [tweet_urls] associates
    the tweet with that row. *)
Theorem links_are_stored (tweet : json) (k : Z) (db db' : pg) :
  getitem tweet "id" = OK (JInt k) ->
  has_key k (tweets (cur db)) = false ->
  insert_tweet tweet db = (db', OK tt) ->
  exists urls l,
    entities tweet "urls" = OK urls /\ iter urls = OK l /\
    Forall (link_stored k (cur db')) l.
Proof.
  intros Hid Hnew Hload.
  set (Q := fun t => exists urls l,
                      entities tweet "urls" = OK urls /\ iter urls = OK l /\
                      Forall (link_stored k t) l).
  apply (@insert_tweet_loaded tweet k db db' Q Hid Hnew Hload).
  eapply hoare_weaken;
    [apply (@load_tweet_associations tweet Q (fun _ => True) (fun _ => True)
              (fun _ => True))
    |auto|cbv beta; intros ? ? H; exact (proj1 H)];
    try apply kept_True; try apply hoare_any.
  - intros t t' Ht (urls & l & Hu & Hl & Hall). exists urls, l.
    split; [exact Hu|split; [exact Hl|]].
    apply (@kept_Forall _ (fun x t => link_stored k t x) l) with t; auto.
    intros x. apply kept_link_stored.
  - now apply insert_tweet_urls_writes.
Qed.

Lemma links_are_stored_witness :
  exists urls l,
    entities tweet_with_entities "urls" = OK urls /\ iter urls = OK l /\
    Forall (link_stored 30 (cur (fst (insert_tweet tweet_with_entities empty_pg)))) l.
Proof.
  apply (@links_are_stored tweet_with_entities 30 empty_pg); reflexivity.
Defined.

(** X16. When a load has written a tweet, every user the record mentions
    has an integer identity and a row of [users], and [tweet_mentions]
    associates the tweet with it. *)
Theorem mentions_are_stored (tweet : json) (k : Z) (db db' : pg) :
  getitem tweet "id" = OK (JInt k) ->
  has_key k (tweets (cur db)) = false ->
  insert_tweet tweet db = (db', OK tt) ->
  exists mentions l,
    entities tweet "user_mentions" = OK mentions /\ iter mentions = OK l /\
    Forall (mention_stored k (cur db')) l.
Proof.
  intros Hid Hnew Hload.
  set (Q := fun t => exists mentions l,
                      entities tweet "user_mentions" = OK mentions /\
                      iter mentions = OK l /\
                      Forall (mention_stored k t) l).
  apply (@insert_tweet_loaded tweet k db db' Q Hid Hnew Hload).
  eapply hoare_weaken;
    [apply (@load_tweet_associations tweet (fun _ => True) Q (fun _ => True)
              (fun _ => True))
    |auto|cbv beta; intros ? ? H; exact (proj1 (proj2 H))];
    try apply kept_True; try apply hoare_any.
  - intros t t' Ht (mentions & l & Hm & Hl & Hall). exists mentions, l.
    split; [exact Hm|split; [exact Hl|]].
    apply (@kept_Forall _ (fun x t => mention_stored k t x) l) with t; auto.
    intros x. apply kept_mention_stored.
  - now apply insert_tweet_mentions_writes.
Qed.

Lemma mentions_are_stored_witness :
  exists mentions l,
    entities tweet_with_entities "user_mentions" = OK mentions /\ iter mentions = OK l /\
    Forall (mention_stored 30 (cur (fst (insert_tweet tweet_with_entities empty_pg)))) l.
Proof.
  apply (@mentions_are_stored tweet_with_entities 30 empty_pg); reflexivity.
Defined.

(** X17. When a load has written a tweet, every tag of the record (each
    hashtag with its [#], each cashtag with its [$]) is a row of
    [tweet_tags] for the tweet, with its null characters removed. *)
Theorem tags_are_stored (tweet : json) (k : Z) (db db' : pg) :
  getitem tweet "id" = OK (JInt k) ->
  has_key k (tweets (cur db)) = false ->
  insert_tweet tweet db = (db', OK tt) ->
  exists containers tags,
    tweet_tags_entities tweet = OK containers /\
    tweet_tags_list (fst containers) (snd containers) = OK tags /\
    Forall (tag_stored k (cur db')) tags.
Proof.
  intros Hid Hnew Hload.
  set (Q := fun t => exists containers tags,
                      tweet_tags_entities tweet = OK containers /\
                      tweet_tags_list (fst containers) (snd containers) = OK tags /\
                      Forall (tag_stored k t) tags).
  apply (@insert_tweet_loaded tweet k db db' Q Hid Hnew Hload).
  eapply hoare_weaken;
    [apply (@load_tweet_associations tweet (fun _ => True) (fun _ => True) Q
              (fun _ => True))
    |auto|cbv beta; intros ? ? H; exact (proj1 (proj2 (proj2 H)))];
    try apply kept_True; try apply hoare_any.
  - intros t t' Ht (containers & tags & Hc & Hl & Hall). exists containers, tags.
    split; [exact Hc|split; [exact Hl|]].
    apply (@kept_Forall _ (fun x t => tag_stored k t x) tags) with t; auto.
    intros x. apply kept_tag_stored.
  - now apply insert_tweet_tags_writes.
Qed.

Lemma tags_are_stored_witness :
  exists containers tags,
    tweet_tags_entities tweet_with_entities = OK containers /\
    tweet_tags_list (fst containers) (snd containers) = OK tags /\
    Forall (tag_stored 30 (cur (fst (insert_tweet tweet_with_entities empty_pg)))) tags.
Proof.
  apply (@tags_are_stored tweet_with_entities 30 empty_pg); reflexivity.
Defined.

(** X18. When a load has written a tweet, every medium of the record (the
    list the fallback chain selects, empty when there is none) has a row
    of [urls] holding its [media_url], and [tweet_media] associates the
    tweet with that row. *)
Theorem media_are_stored (tweet : json) (k : Z) (db db' : pg) :
  getitem tweet "id" = OK (JInt k) ->
  has_key k (tweets (cur db)) = false ->
  insert_tweet tweet db = (db', OK tt) ->
  exists media l,
    tweet_media_list tweet = OK media /\ iter media = OK l /\
    Forall (medium_stored k (cur db')) l.
Proof.
  intros Hid Hnew Hload.
  set (Q := fun t => exists media l,
                      tweet_media_list tweet = OK media /\ iter media = OK l /\
                      Forall (medium_stored k t) l).
  apply (@insert_tweet_loaded tweet k db db' Q Hid Hnew Hload).
  eapply hoare_weaken;
    [apply (@load_tweet_associations tweet (fun _ => True) (fun _ => True)
              (fun _ => True) Q)
    |auto|cbv beta; intros ? ? H; exact (proj2 (proj2 (proj2 H)))];
    try apply kept_True; try apply hoare_any.
  now apply insert_tweet_media_writes.
Qed.

Lemma media_are_stored_witness :
  exists media l,
    tweet_media_list tweet_with_entities = OK media /\ iter media = OK l /\
    Forall (medium_stored 30 (cur (fst (insert_tweet tweet_with_entities empty_pg)))) l.
Proof.
  apply (@media_are_stored tweet_with_entities 30 empty_pg); reflexivity.
Defined.

(** The rows the record with two links, two mentions, a repeated tag and a
    photo leaves in an empty store: the repeated tag is one row. *)
Example entities_rows :
  let t := cur (fst (insert_tweet tweet_with_entities empty_pg)) in
  urls t = [(3, Some "http://example.org/p.jpg"); (2, Some "http://example.org/b");
            (1, Some "http://example.org/a")] /\
  tweet_urls t = [(30, 2); (30, 1)] /\
  tweet_mentions t = [(30, 3); (30, 2)] /\
  tweet_tags t = [(30, "$IBM"); (30, "#x")] /\
  tweet_media t = [(30, 3, JStr "photo")] /\
  map fst (users t) = [2; 3].
Proof. vm_compute. repeat split. Qed.

(** ** The loop over the records *)

Lemma insert_tweet_ok_id {C} `{Connection C} (tweet : json) (c c1 : C) :
  insert_tweet tweet c = (c1, OK tt) -> exists id, getitem tweet "id" = OK id.
Proof.
  unfold insert_tweet, with_begin, insert_tweet_body, bind, lift.
  destruct (getitem tweet "id") as [id|e]; [eauto|discriminate].
Qed.



(** A malformed line stops the loop after the two records before it: their
    rows stay, and the record after it is not loaded. *)
Example malformed_line_stops :
  let r := load_lines_from loads_named 1 0 lines_with_malformed empty_pg in
  snd r = Some JSONDecodeError /\
  snd (fst r) = [(0, JInt 20); (1, JInt 21)] /\
  map fst (tweets (cur (fst (fst r)))) = [21; 20].
Proof. vm_compute. auto. Qed.

(** *** Loading a file again *)

Lemma insert_tweet_keeps_tweet (k : Z) (tweet : json) (db : pg) :
  tweet_present k db -> tweet_present k (fst (insert_tweet tweet db)).
Proof.
  intros Hk. unfold insert_tweet, with_begin.
  pose proof (insert_tweet_body_stable (@stable_tweet_present k) tweet (begin db) Hk)
    as Hbody.
  pose proof (insert_tweet_body_saved tweet (begin db)) as Hsaved.
  destruct (insert_tweet_body tweet (begin db)) as [c [[]|e]]; cbn [fst] in *.
  - exact Hbody.
  - unfold tweet_present. cbn [rollback pg_connection pg_rollback cur].
    rewrite Hsaved. exact Hk.
Qed.

Lemma insert_tweet_loaded_row (tweet : json) (db db1 : pg) :
  insert_tweet tweet db = (db1, OK tt) -> loaded db1 tweet /\ saved db1 = None.
Proof.
  unfold insert_tweet, with_begin.
  pose proof (insert_tweet_body_written tweet (c := begin db) I) as Hbody.
  destruct (insert_tweet_body tweet (begin db)) as [c [[]|e]]; [|discriminate].
  intros Heq. injection Heq as <-. split; [exact Hbody|reflexivity].
Qed.

Section Again.
Variable loads : string -> option json.
Variable print_every : Z.

Lemma load_lines_keeps_tweet (k : Z) (lines : list string) :
  forall i db db1 out r,
    load_lines_from loads print_every i lines db = (db1, out, r) ->
    tweet_present k db -> tweet_present k db1.
Proof.
  induction lines as [|line rest IH]; intros i db db1 out r Hrun Hk;
    cbn [load_lines_from] in Hrun.
  - now injection Hrun as <- _ _.
  - destruct (loads line) as [tweet|]; [|now injection Hrun as <- _ _].
    pose proof (@insert_tweet_keeps_tweet k tweet db Hk) as Hk1.
    destruct (insert_tweet tweet db) as [c1 [[]|e]]; cbn [fst] in Hk1;
      [|now injection Hrun as <- _ _].
    destruct (Z.eqb print_every 0); [now injection Hrun as <- _ _|].
    destruct (Z.eqb (i mod print_every) 0).
    + destruct (getitem tweet "id"); [|now injection Hrun as <- _ _].
      destruct (load_lines_from loads print_every (i + 1) rest c1)
        as [[c2 out'] r'] eqn:Hrest.
      injection Hrun as <- _ _. eapply IH; eauto.
    + eapply IH; eauto.
Qed.

(** Every line of a loop that ran to its end decodes to a record that has
    its row, and the last transaction is closed. *)
Lemma load_lines_loaded (lines : list string) :
  forall i db db1 out,
    load_lines_from loads print_every i lines db = (db1, out, None) ->
    Forall (line_loaded loads db1) lines /\ (lines <> [] -> saved db1 = None).
Proof.
  induction lines as [|line rest IH]; intros i db db1 out Hrun;
    [split; [constructor|congruence]|].
  cbn [load_lines_from] in Hrun.
  destruct (loads line) as [tweet|] eqn:Hline; [|discriminate].
  destruct (insert_tweet tweet db) as [c1 [[]|e]] eqn:Hins; [|discriminate].
  destruct (insert_tweet_loaded_row _ _ Hins) as [(k & Hid & Hk) Hsaved].
  destruct (Z.eqb print_every 0); [discriminate|].
  assert (Hrest : exists out',
             load_lines_from loads print_every (i + 1) rest c1 = (db1, out', None)).
  { destruct (Z.eqb (i mod print_every) 0); [|eauto].
    rewrite Hid in Hrun.
    destruct (load_lines_from loads print_every (i + 1) rest c1) as [[c2 out'] r'].
    injection Hrun as -> _ ->. eauto. }
  destruct Hrest as [out' Hrest]. destruct (IH _ _ _ _ Hrest) as [Hall Hclosed].
  split.
  - constructor; [|exact Hall]. exists tweet. split; [exact Hline|].
    exists k. split; [exact Hid|].
    eapply load_lines_keeps_tweet; eauto.
  - intros _. destruct rest as [|line' rest']; [|apply Hclosed; discriminate].
    cbn [load_lines_from] in Hrest. now injection Hrest as <- _.
Qed.

(** On a store that has the rows of all the records, the loop skips each
    of them and prints what it printed when it loaded them. *)
Lemma load_lines_skips (lines : list string) :
  forall i (db db1 : pg) out,
    load_lines_from loads print_every i lines db = (db1, out, None) ->
    forall db2, saved db2 = None -> Forall (line_loaded loads db2) lines ->
                load_lines_from loads print_every i lines db2 = (db2, out, None).
Proof.
  induction lines as [|line rest IH]; intros i db db1 out Hrun db2 Hclosed Hall;
    cbn [load_lines_from] in *.
  - now injection Hrun as _ <-.
  - inversion Hall as [|? ? (tweet & Hline & k & Hid & Hk) Hrest]; subst.
    rewrite Hline in *.
    rewrite (@insert_tweet_skips tweet db2 k Hid Hk).
    assert (Hsame : pg_commit db2 = db2).
    { destruct db2 as [t sv sq]. cbn in Hclosed. subst sv. reflexivity. }
    rewrite Hsame.
    destruct (insert_tweet tweet db) as [c1 [[]|e]]; [|discriminate].
    destruct (Z.eqb print_every 0); [discriminate|].
    destruct (Z.eqb (i mod print_every) 0).
    + rewrite Hid in *.
      destruct (load_lines_from loads print_every (i + 1) rest c1)
        as [[c2 out'] r'] eqn:Hfirst.
      injection Hrun as -> <- ->.
      now rewrite (IH _ _ _ _ Hfirst db2 Hclosed Hrest).
    + eapply IH; eauto.
Qed.
End Again.

(** X20. Loading the same records again is a no-op: after a loop that ran
    to its end, the same loop on the store it left ends too, prints the
    same messages and leaves that store exactly as it was (the rows of
    every table, the sequence, no open transaction). *)
Theorem load_lines_idempotent (loads : string -> option json) (print_every i : Z)
    (lines : list string) (db db1 : pg) (out : list (Z * json)) :
  load_lines_from loads print_every i lines db = (db1, out, None) ->
  load_lines_from loads print_every i lines db1 = (db1, out, None).
Proof.
  intros Hrun. pose proof Hrun as Hdone.
  apply load_lines_loaded in Hdone as [Hall Hclosed].
  destruct lines as [|line rest].
  - cbn [load_lines_from] in *. now injection Hrun as _ <-.
  - eapply load_lines_skips; [exact Hrun| |exact Hall]. apply Hclosed. discriminate.
Qed.

Lemma load_lines_idempotent_witness :
  let r := load_lines_from loads_named 2 0 lines_of_three empty_pg in
  load_lines_from loads_named 2 0 lines_of_three (fst (fst r))
  = (fst (fst r), snd (fst r), None).
Proof.
  apply (@load_lines_idempotent loads_named 2 0 lines_of_three empty_pg). reflexivity.
Defined.

Example load_lines_messages :
  snd (fst (load_lines_from loads_named 2 0 lines_of_three empty_pg))
  = [(0, JInt 20); (2, JInt 22)].
Proof. reflexivity. Qed.

(** ** Text parameters *)

Lemma remove_nulls_sanitized (v w : json) : remove_nulls v = OK w -> sanitized w.
Proof.
  destruct v; try discriminate; cbn [remove_nulls]; intros Heq; injection Heq as <-.
  - now left.
  - right. eexists. split; [reflexivity|apply replace1_nul_free].
Qed.

Lemma get_remove_nulls_sanitized (x : json) (key : string) (d w : json) :
  rbind (get x key d) remove_nulls = OK w -> sanitized w.
Proof.
  destruct (get x key d) as [v|e]; [|discriminate]. apply remove_nulls_sanitized.
Qed.

(** X21. No null character reaches the text columns of [users]: in the
    parameters [insert_tweet] binds for the row of the posting user, the
    screen name, the name, the location, the description and
    [withheld_in_countries] are each [None] or a string without the null
    character. *)
Theorem users_text_sanitized (tweet user link id_users : json) (d : users_cols) :
  users_data tweet user link = OK (id_users, d) ->
  sanitized (u_screen_name d) /\ sanitized (u_name d) /\ sanitized (u_location d) /\
  sanitized (u_description d) /\ sanitized (u_withheld_in_countries d).
Proof.
  unfold users_data. intros Hd. rbind_inv Hd. injection Hd as _ <-.
  cbn [u_screen_name u_name u_location u_description u_withheld_in_countries].
  repeat split; eapply get_remove_nulls_sanitized; eassumption.
Qed.

Lemma users_text_sanitized_witness :
  sanitized (JStr "ab") /\ sanitized (JStr "Ann") /\ sanitized JNull /\
  sanitized (JStr "bio") /\ sanitized JNull.
Proof.
  exact (@users_text_sanitized (JObj []) user_with_nul JNull (JInt 2)
           user_with_nul_cols eq_refl).
Defined.

(** X22. No null character reaches the source, the text or the language
    of a row of [tweets]: each is [None] or a string without the null
    character in the parameters [insert_tweet] binds.  (The country code,
    the state code and the place name are bound as extracted.) *)
Theorem tweets_text_sanitized (tweet user text cc sc pn geo id_tweets : json)
    (d : tweets_cols) :
  tweets_data tweet user text cc sc pn geo = OK (id_tweets, d) ->
  sanitized (t_source d) /\ sanitized (t_text d) /\ sanitized (t_lang d) /\
  t_country_code d = cc /\ t_state_code d = sc /\ t_place_name d = pn.
Proof.
  unfold tweets_data. intros Hd. rbind_inv Hd. injection Hd as _ <-.
  cbn [t_source t_text t_lang t_country_code t_state_code t_place_name].
  split; [eapply get_remove_nulls_sanitized; eassumption|].
  split; [eapply remove_nulls_sanitized; eassumption|].
  split; [eapply get_remove_nulls_sanitized; eassumption|].
  auto.
Qed.

Lemma tweets_text_sanitized_witness :
  sanitized (JStr "web") /\ sanitized (JStr "hi") /\ sanitized (JStr EmptyString) /\
  JStr "gb" = JStr "gb" /\ JNull = JNull /\ JStr (String NUL "x") = JStr (String NUL "x").
Proof.
  exact (@tweets_text_sanitized tweet_with_nul user_with_nul
           (JStr (String NUL "hi")) (JStr "gb") JNull (JStr (String NUL "x")) JNull
           (JInt 1) tweet_with_nul_cols eq_refl).
Defined.
